(** * Human-Design-Synthesizer: the audio engine and the gesture mapper

    A shallow embedding of [services/synthEngine] (the classes [LoopChannel]
    and [SynthEngine]) and of the gesture code of [App.tsx]
    ([calculateHandMetrics], the per-hand body of [predictWebcam],
    [handleBpmChange]).

    JavaScript numbers are IEEE-754 binary64 values: they are modelled by
    Rocq's primitive [float], so every definition below evaluates to what the
    source computes, NaN and the infinities included.  [Math.pow] and
    [Math.atan2], whose results ECMAScript leaves to the implementation up
    to their special cases, are parameters.  Counters that the
    source only ever increments from zero ([currentStep]) are integers.
    Web Audio nodes are records of the parameters the engine writes; a call
    of [setTargetAtTime] that returns is recorded on the parameter it is made
    on, and one that throws leaves the parameter as it is. *)

From Stdlib Require Import Floats ZArith List Bool String Lia.
Import ListNotations.

(* Decimal literals are rounded to the nearest binary64 value, as the
   JavaScript parser does. *)
Set Warnings "-inexact-float".

(** ** JavaScript numbers *)

Module JS.

Local Open Scope float_scope.

(** [Math.min] and [Math.max] of two arguments: NaN is contagious and
    [-0] is smaller than [+0]. *)
Definition Math_min (a b : float) : float :=
  if is_nan a || is_nan b then nan
  else if a <? b then a
  else if b <? a then b
  else if get_sign a then a else b.

Definition Math_max (a b : float) : float :=
  if is_nan a || is_nan b then nan
  else if a <? b then b
  else if b <? a then a
  else if get_sign a then b else a.

(** The idiom [Math.max(lo, Math.min(hi, v))]. *)
Definition clamp (lo hi v : float) : float := Math_max lo (Math_min hi v).

(** [a || b] on numbers: [a] unless it is falsy (zero or NaN). *)
Definition or_default (a b : float) : float :=
  if is_nan a || is_zero a then b else a.

(** Closed interval test, false on NaN. *)
Definition between (lo hi v : float) : bool := (lo <=? v) && (v <=? hi).

End JS.

Import JS.

(** ** Binary64 numbers as scaled integers *)

Section Rounding.

Local Open Scope Z_scope.

(** The result of a rounding with mantissa [m] and exponent [e]. *)
Definition rounded (s : bool) (m e : Z) : spec_float :=
  match m with
  | Z0 => S754_zero s
  | Zpos p =>
    if e <=? emax - prec then S754_finite s p e else S754_infinity s
  | Zneg _ => S754_nan
  end.

(** The value of a mantissa at an exponent, in units of the smallest
    positive number. *)
Definition scaled (m e : Z) : Z := m * 2 ^ (e + 1074).



End Rounding.

(** [Math.pow]: ECMAScript asks for an implementation-approximated result,
    so the function of the engine that runs the program is a parameter of
    everything that calls it. *)
Class Implementation : Type := {
  Math_pow : float -> float -> float
}.

(** ** [types.ts] *)

Inductive EffectType : Type :=
  | NONE | VOLUME | LPF | HPF | REVERB | DELAY | FLANGER.

Inductive LoopCategory : Type := DRUMS | SYNTH | AMBIENT | PERC.

Record LoopDefinition : Type := mkLoop {
  loop_id : string;
  loop_name : string;
  loop_category : LoopCategory;
  loop_bpm : float
}.

Definition AVAILABLE_LOOPS : list LoopDefinition :=
  [ mkLoop "drum_house" "House Beat" DRUMS 128;
    mkLoop "drum_break" "Breakbeat" DRUMS 128;
    mkLoop "synth_neon" "Neon Arp" SYNTH 128;
    mkLoop "synth_bass" "Wobble Bass" SYNTH 128;
    mkLoop "amb_space" "Deep Space" AMBIENT 128;
    mkLoop "amb_pads" "Ethereal Pads" AMBIENT 128;
    mkLoop "perc_glitch" "Glitch Click" PERC 128;
    mkLoop "perc_shaker" "Shakers" PERC 128 ].

Definition EffectType_eqb (a b : EffectType) : bool :=
  match a, b with
  | NONE, NONE | VOLUME, VOLUME | LPF, LPF | HPF, HPF
  | REVERB, REVERB | DELAY, DELAY | FLANGER, FLANGER => true
  | _, _ => false
  end.

(** [Array.prototype.includes] on an array of effect types. *)
Definition includes (l : list EffectType) (e : EffectType) : bool :=
  existsb (EffectType_eqb e) l.

(** ** The Web Audio objects the engine writes to *)

(** One call [p.setTargetAtTime(target, startTime, timeConstant)]. *)
Record SetTarget : Type := mkSetTarget {
  target : float;
  startTime : float;
  timeConstant : float
}.

(** An [AudioParam]: the value it was created or assigned with, and the
    exponential approach most recently scheduled on it, if any. *)
Record AudioParam : Type := mkParam {
  value : float;
  automation : option SetTarget
}.

(** The conversion of a number to an argument of WebIDL type [float]: it
    throws a TypeError for NaN, for the infinities, and for a number whose
    nearest single-precision value is not finite, which are the numbers at or
    beyond 2^128 - 2^103 in magnitude. *)
Definition accepts (x : float) : bool := (abs x <? 0x1.ffffffp+127)%float.

(** The parameter once a call of [setTargetAtTime] on it has returned. *)
Definition approach (p : AudioParam) (tgt t tc : float) : AudioParam :=
  mkParam (value p) (Some (mkSetTarget tgt t tc)).

(** [p.setTargetAtTime(target, startTime, timeConstant)], [target] and
    [timeConstant] being of type [float]; [None] is the TypeError.  The
    start time is [ctx.currentTime] and the time constant a literal at every
    call of the engine. *)
Definition setTargetAtTime (p : AudioParam) (tgt t tc : float)
    : option AudioParam :=
  if accepts tgt then Some (approach p tgt t tc) else None.

(** How a call ends: normally, or by throwing; in both cases with the
    object in the state that the call has brought it to. *)
Inductive Completion (A : Type) : Type :=
  | Normal (a : A)
  | Throw (a : A).

Arguments Normal {A} a.
Arguments Throw {A} a.

Definition state {A : Type} (r : Completion A) : A :=
  match r with Normal a | Throw a => a end.

Definition returns {A : Type} (r : Completion A) : bool :=
  match r with Normal _ => true | Throw _ => false end.

(** [first; second]: the second call is made when the first has returned. *)
Definition andThen {A : Type} (r : Completion A) (k : A -> Completion A)
    : Completion A :=
  match r with Normal a => k a | Throw a => Throw a end.

Inductive BiquadFilterType : Type := lowpass | highpass.

Record BiquadFilterNode : Type := mkBiquad {
  filterType : BiquadFilterType;
  frequency : AudioParam;
  Q : float
}.

(** The nodes of one channel's graph, [destination] being the engine's
    [masterGain] that the channel is constructed on. *)
Inductive AudioNode : Type :=
  | Destination | MasterOutput | PresenceGain | GainNode | RotationFilterNode
  | ReverbNode | ReverbGain | DelayNode | DelayFeedback | FilterNode
  | FlangerDelay | FlangerFeedback | FlangerWet | FlangerLFO | FlangerLFOGain
  | InputGain.

(** The procedural generators; the tonal ones carry their frequency. *)
Inductive Generator : Type :=
  | Kick | Snare | HiHat | Perc
  | SynthTone (freq : float)
  | AmbientPad (freq : float)
  | Distorted808 (freq : float).

(** A short-lived voice: which generator, the audio time it starts at, and
    the node its last gain stage is connected to. *)
Record Voice : Type := mkVoice {
  generator : Generator;
  voiceTime : float;
  output : AudioNode
}.

(** A pending [window.setTimeout(callback, delay)]. *)
Record Timeout : Type := mkTimeout {
  timeoutId : nat;
  delayMs : float
}.

(** ** [class LoopChannel] *)

Record LoopChannel : Type := mkLoopChannel {
  bpm : float;
  presenceGain : AudioParam;
  gainNode : AudioParam;
  filterNode : BiquadFilterNode;
  rotationFilterNode : BiquadFilterNode;
  delayFeedback : AudioParam;
  reverbGain : AudioParam;
  flangerWet : AudioParam;
  isPlaying : bool;
  currentLoop : option LoopDefinition;
  nextNoteTime : float;
  currentStep : Z;
  timerID : option nat;
  isDogMode : bool;
  xEffect : EffectType;
  yEffect : EffectType;
  zEffect : EffectType;
  spreadEffect : EffectType;
  (** every voice started so far, oldest first *)
  voices : list Voice;
  (** the window's pending timeouts whose callback is this channel's
      [scheduler], and the last identifier [window.setTimeout] returned *)
  pendingWakes : list Timeout;
  lastTimer : nat
}.

(** Field assignment [this.f = v], one function per field. *)

Definition set_bpm (v : float) (c : LoopChannel) : LoopChannel :=
  mkLoopChannel v (presenceGain c) (gainNode c) (filterNode c)
    (rotationFilterNode c) (delayFeedback c) (reverbGain c) (flangerWet c)
    (isPlaying c) (currentLoop c) (nextNoteTime c) (currentStep c) (timerID c)
    (isDogMode c) (xEffect c) (yEffect c) (zEffect c) (spreadEffect c)
    (voices c) (pendingWakes c) (lastTimer c).

Definition set_presenceGain (v : AudioParam) (c : LoopChannel) : LoopChannel :=
  mkLoopChannel (bpm c) v (gainNode c) (filterNode c) (rotationFilterNode c)
    (delayFeedback c) (reverbGain c) (flangerWet c) (isPlaying c)
    (currentLoop c) (nextNoteTime c) (currentStep c) (timerID c) (isDogMode c)
    (xEffect c) (yEffect c) (zEffect c) (spreadEffect c) (voices c)
    (pendingWakes c) (lastTimer c).

Definition set_gainNode (v : AudioParam) (c : LoopChannel) : LoopChannel :=
  mkLoopChannel (bpm c) (presenceGain c) v (filterNode c)
    (rotationFilterNode c) (delayFeedback c) (reverbGain c) (flangerWet c)
    (isPlaying c) (currentLoop c) (nextNoteTime c) (currentStep c) (timerID c)
    (isDogMode c) (xEffect c) (yEffect c) (zEffect c) (spreadEffect c)
    (voices c) (pendingWakes c) (lastTimer c).

Definition set_filterNode (v : BiquadFilterNode) (c : LoopChannel) : LoopChannel :=
  mkLoopChannel (bpm c) (presenceGain c) (gainNode c) v (rotationFilterNode c)
    (delayFeedback c) (reverbGain c) (flangerWet c) (isPlaying c)
    (currentLoop c) (nextNoteTime c) (currentStep c) (timerID c) (isDogMode c)
    (xEffect c) (yEffect c) (zEffect c) (spreadEffect c) (voices c)
    (pendingWakes c) (lastTimer c).

Definition set_rotationFilterNode (v : BiquadFilterNode) (c : LoopChannel) : LoopChannel :=
  mkLoopChannel (bpm c) (presenceGain c) (gainNode c) (filterNode c) v
    (delayFeedback c) (reverbGain c) (flangerWet c) (isPlaying c)
    (currentLoop c) (nextNoteTime c) (currentStep c) (timerID c) (isDogMode c)
    (xEffect c) (yEffect c) (zEffect c) (spreadEffect c) (voices c)
    (pendingWakes c) (lastTimer c).

Definition set_delayFeedback (v : AudioParam) (c : LoopChannel) : LoopChannel :=
  mkLoopChannel (bpm c) (presenceGain c) (gainNode c) (filterNode c)
    (rotationFilterNode c) v (reverbGain c) (flangerWet c) (isPlaying c)
    (currentLoop c) (nextNoteTime c) (currentStep c) (timerID c) (isDogMode c)
    (xEffect c) (yEffect c) (zEffect c) (spreadEffect c) (voices c)
    (pendingWakes c) (lastTimer c).

Definition set_reverbGain (v : AudioParam) (c : LoopChannel) : LoopChannel :=
  mkLoopChannel (bpm c) (presenceGain c) (gainNode c) (filterNode c)
    (rotationFilterNode c) (delayFeedback c) v (flangerWet c) (isPlaying c)
    (currentLoop c) (nextNoteTime c) (currentStep c) (timerID c) (isDogMode c)
    (xEffect c) (yEffect c) (zEffect c) (spreadEffect c) (voices c)
    (pendingWakes c) (lastTimer c).

Definition set_flangerWet (v : AudioParam) (c : LoopChannel) : LoopChannel :=
  mkLoopChannel (bpm c) (presenceGain c) (gainNode c) (filterNode c)
    (rotationFilterNode c) (delayFeedback c) (reverbGain c) v (isPlaying c)
    (currentLoop c) (nextNoteTime c) (currentStep c) (timerID c) (isDogMode c)
    (xEffect c) (yEffect c) (zEffect c) (spreadEffect c) (voices c)
    (pendingWakes c) (lastTimer c).

Definition set_isPlaying (v : bool) (c : LoopChannel) : LoopChannel :=
  mkLoopChannel (bpm c) (presenceGain c) (gainNode c) (filterNode c)
    (rotationFilterNode c) (delayFeedback c) (reverbGain c) (flangerWet c) v
    (currentLoop c) (nextNoteTime c) (currentStep c) (timerID c) (isDogMode c)
    (xEffect c) (yEffect c) (zEffect c) (spreadEffect c) (voices c)
    (pendingWakes c) (lastTimer c).

Definition set_currentLoop (v : option LoopDefinition) (c : LoopChannel) : LoopChannel :=
  mkLoopChannel (bpm c) (presenceGain c) (gainNode c) (filterNode c)
    (rotationFilterNode c) (delayFeedback c) (reverbGain c) (flangerWet c)
    (isPlaying c) v (nextNoteTime c) (currentStep c) (timerID c) (isDogMode c)
    (xEffect c) (yEffect c) (zEffect c) (spreadEffect c) (voices c)
    (pendingWakes c) (lastTimer c).

Definition set_nextNoteTime (v : float) (c : LoopChannel) : LoopChannel :=
  mkLoopChannel (bpm c) (presenceGain c) (gainNode c) (filterNode c)
    (rotationFilterNode c) (delayFeedback c) (reverbGain c) (flangerWet c)
    (isPlaying c) (currentLoop c) v (currentStep c) (timerID c) (isDogMode c)
    (xEffect c) (yEffect c) (zEffect c) (spreadEffect c) (voices c)
    (pendingWakes c) (lastTimer c).

Definition set_currentStep (v : Z) (c : LoopChannel) : LoopChannel :=
  mkLoopChannel (bpm c) (presenceGain c) (gainNode c) (filterNode c)
    (rotationFilterNode c) (delayFeedback c) (reverbGain c) (flangerWet c)
    (isPlaying c) (currentLoop c) (nextNoteTime c) v (timerID c) (isDogMode c)
    (xEffect c) (yEffect c) (zEffect c) (spreadEffect c) (voices c)
    (pendingWakes c) (lastTimer c).

Definition set_timerID (v : option nat) (c : LoopChannel) : LoopChannel :=
  mkLoopChannel (bpm c) (presenceGain c) (gainNode c) (filterNode c)
    (rotationFilterNode c) (delayFeedback c) (reverbGain c) (flangerWet c)
    (isPlaying c) (currentLoop c) (nextNoteTime c) (currentStep c) v
    (isDogMode c) (xEffect c) (yEffect c) (zEffect c) (spreadEffect c)
    (voices c) (pendingWakes c) (lastTimer c).

Definition set_isDogMode (v : bool) (c : LoopChannel) : LoopChannel :=
  mkLoopChannel (bpm c) (presenceGain c) (gainNode c) (filterNode c)
    (rotationFilterNode c) (delayFeedback c) (reverbGain c) (flangerWet c)
    (isPlaying c) (currentLoop c) (nextNoteTime c) (currentStep c) (timerID c)
    v (xEffect c) (yEffect c) (zEffect c) (spreadEffect c) (voices c)
    (pendingWakes c) (lastTimer c).

Definition set_xEffect (v : EffectType) (c : LoopChannel) : LoopChannel :=
  mkLoopChannel (bpm c) (presenceGain c) (gainNode c) (filterNode c)
    (rotationFilterNode c) (delayFeedback c) (reverbGain c) (flangerWet c)
    (isPlaying c) (currentLoop c) (nextNoteTime c) (currentStep c) (timerID c)
    (isDogMode c) v (yEffect c) (zEffect c) (spreadEffect c) (voices c)
    (pendingWakes c) (lastTimer c).

Definition set_yEffect (v : EffectType) (c : LoopChannel) : LoopChannel :=
  mkLoopChannel (bpm c) (presenceGain c) (gainNode c) (filterNode c)
    (rotationFilterNode c) (delayFeedback c) (reverbGain c) (flangerWet c)
    (isPlaying c) (currentLoop c) (nextNoteTime c) (currentStep c) (timerID c)
    (isDogMode c) (xEffect c) v (zEffect c) (spreadEffect c) (voices c)
    (pendingWakes c) (lastTimer c).

Definition set_zEffect (v : EffectType) (c : LoopChannel) : LoopChannel :=
  mkLoopChannel (bpm c) (presenceGain c) (gainNode c) (filterNode c)
    (rotationFilterNode c) (delayFeedback c) (reverbGain c) (flangerWet c)
    (isPlaying c) (currentLoop c) (nextNoteTime c) (currentStep c) (timerID c)
    (isDogMode c) (xEffect c) (yEffect c) v (spreadEffect c) (voices c)
    (pendingWakes c) (lastTimer c).

Definition set_spreadEffect (v : EffectType) (c : LoopChannel) : LoopChannel :=
  mkLoopChannel (bpm c) (presenceGain c) (gainNode c) (filterNode c)
    (rotationFilterNode c) (delayFeedback c) (reverbGain c) (flangerWet c)
    (isPlaying c) (currentLoop c) (nextNoteTime c) (currentStep c) (timerID c)
    (isDogMode c) (xEffect c) (yEffect c) (zEffect c) v (voices c)
    (pendingWakes c) (lastTimer c).

Definition set_voices (v : list Voice) (c : LoopChannel) : LoopChannel :=
  mkLoopChannel (bpm c) (presenceGain c) (gainNode c) (filterNode c)
    (rotationFilterNode c) (delayFeedback c) (reverbGain c) (flangerWet c)
    (isPlaying c) (currentLoop c) (nextNoteTime c) (currentStep c) (timerID c)
    (isDogMode c) (xEffect c) (yEffect c) (zEffect c) (spreadEffect c) v
    (pendingWakes c) (lastTimer c).

Definition set_pendingWakes (v : list Timeout) (c : LoopChannel) : LoopChannel :=
  mkLoopChannel (bpm c) (presenceGain c) (gainNode c) (filterNode c)
    (rotationFilterNode c) (delayFeedback c) (reverbGain c) (flangerWet c)
    (isPlaying c) (currentLoop c) (nextNoteTime c) (currentStep c) (timerID c)
    (isDogMode c) (xEffect c) (yEffect c) (zEffect c) (spreadEffect c)
    (voices c) v (lastTimer c).

Definition set_lastTimer (v : nat) (c : LoopChannel) : LoopChannel :=
  mkLoopChannel (bpm c) (presenceGain c) (gainNode c) (filterNode c)
    (rotationFilterNode c) (delayFeedback c) (reverbGain c) (flangerWet c)
    (isPlaying c) (currentLoop c) (nextNoteTime c) (currentStep c) (timerID c)
    (isDogMode c) (xEffect c) (yEffect c) (zEffect c) (spreadEffect c)
    (voices c) (pendingWakes c) v.

Section LoopChannelMethods.

Context {impl : Implementation}.

Local Open Scope float_scope.

(** [constructor]: the initial parameter values and mappings. *)
Definition newLoopChannel : LoopChannel :=
  mkLoopChannel 128
    (mkParam 0 None) (mkParam 0.8 None)
    (mkBiquad lowpass (mkParam 20000 None) 1)
    (mkBiquad lowpass (mkParam 22000 None) 1)
    (mkParam 0 None) (mkParam 0 None) (mkParam 0 None)
    false None 0 0%Z None false NONE NONE NONE NONE [] [] 0%nat.

(** Every [a.connect(b)] of the constructor, in source order, followed by
    the two of [getInputNode]. *)
Definition connections : list (AudioNode * AudioNode) :=
  [ (MasterOutput, Destination);
    (PresenceGain, MasterOutput);
    (GainNode, PresenceGain);
    (RotationFilterNode, GainNode);
    (ReverbNode, ReverbGain);
    (ReverbGain, RotationFilterNode);
    (DelayNode, DelayFeedback);
    (DelayFeedback, DelayNode);
    (DelayNode, RotationFilterNode);
    (DelayNode, ReverbNode);
    (FilterNode, DelayNode);
    (FilterNode, ReverbNode);
    (FilterNode, RotationFilterNode);
    (FlangerLFO, FlangerLFOGain);
    (FlangerLFOGain, FlangerDelay);
    (FlangerDelay, FlangerFeedback);
    (FlangerFeedback, FlangerDelay);
    (FlangerDelay, FlangerWet);
    (FlangerWet, FilterNode);
    (InputGain, FilterNode);
    (InputGain, FlangerDelay) ].

(** [if (cond) this.method(...)] *)
Definition when (cond : bool) (method : LoopChannel -> LoopChannel)
    (c : LoopChannel) : LoopChannel :=
  if cond then method c else c.

(** [setPresence(isPresent)].  The targets are the literals 1 and 0, which
    the conversion accepts: [setTargetAtTime] returns. *)
Definition setPresence (t : float) (isPresent : bool) (c : LoopChannel)
    : LoopChannel :=
  if isDogMode c
  then set_presenceGain (approach (presenceGain c) 1 t 0.1) c
  else set_presenceGain
         (approach (presenceGain c) (if isPresent then 1 else 0) t 0.1) c.

(** *** Sound generation *)

Definition startVoice (g : Generator) (time : float) (out : AudioNode)
    (c : LoopChannel) : LoopChannel :=
  set_voices (voices c ++ [mkVoice g time out]) c.

(** The five loop generators end in [gain.connect(this.getInputNode(time))]. *)
Definition playKick (time : float) := startVoice Kick time InputGain.
Definition playSnare (time : float) := startVoice Snare time InputGain.
Definition playHiHat (time : float) := startVoice HiHat time InputGain.
Definition playSynthTone (time freq : float) :=
  startVoice (SynthTone freq) time InputGain.
Definition playAmbientPad (time freq : float) :=
  startVoice (AmbientPad freq) time InputGain.
Definition playPerc (time : float) := startVoice Perc time InputGain.

(** [playDistorted808] ends in [gain.connect(this.masterOutput)]. *)
Definition playDistorted808 (time freq : float) :=
  startVoice (Distorted808 freq) time MasterOutput.

(** *** Sequencer *)

(** [notes[i]] for an integral index; out of range is [undefined]. *)
Definition array_get (notes : list float) (i : Z) : float :=
  if (i <? 0)%Z then nan else nth (Z.to_nat i) notes nan.

(** [schedule(beat, time)]; [rnd] is what [Math.random()] returns if the
    percussion branch draws. *)
Definition schedule (beat : Z) (time : float) (rnd : float)
    (c : LoopChannel) : LoopChannel :=
  if isDogMode c then
    let step := Z.rem beat 16 in
    let c := when (step =? 0)%Z (playDistorted808 time 45) c in
    let c := when (step =? 3)%Z (playDistorted808 time 45) c in
    let c := when (step =? 7)%Z (playDistorted808 time 45) c in
    let c := when (step =? 10)%Z (playDistorted808 time 55) c in
    let c := when (step =? 12)%Z (playDistorted808 time 35) c in
    let c := when (step =? 14)%Z (playDistorted808 time 35) c in
    c
  else
    match currentLoop c with
    | None => c
    | Some l =>
      let id := loop_id l in
      let step := Z.rem beat 16 in
      if (id =? "drum_house")%string then
        let c := when (Z.rem step 4 =? 0)%Z (playKick time) c in
        let c := when (Z.rem step 8 =? 4)%Z (playSnare time) c in
        let c := when (negb (Z.rem step 2 =? 0)%Z) (playHiHat time) c in
        c
      else if (id =? "drum_break")%string then
        let c := when ((step =? 0)%Z || (step =? 10)%Z) (playKick time) c in
        let c := when ((step =? 4)%Z || (step =? 12)%Z) (playSnare time) c in
        let c := when (Z.rem step 2 =? 0)%Z (playHiHat time) c in
        c
      else if (id =? "synth_neon")%string then
        let notes := [220; 330; 440; 660] in
        when (Z.rem step 2 =? 0)%Z
          (playSynthTone time (array_get notes (Z.rem (Z.quot step 2) 4))) c
      else if (id =? "synth_bass")%string then
        let c := when ((step =? 0)%Z || (step =? 8)%Z) (playSynthTone time 55) c in
        let c := when ((step =? 3)%Z || (step =? 11)%Z) (playSynthTone time 110) c in
        c
      else if String.prefix "amb" id then
        when (step =? 0)%Z
          (playAmbientPad time
             (if (id =? "amb_space")%string then 110 else 164.8)) c
      else if String.prefix "perc" id then
        when (0.5 <? rnd) (playPerc time) c
      else c
    end.

Definition nextNote (c : LoopChannel) : LoopChannel :=
  let secondsPerBeat := 60 / bpm c in
  let secondsPer16th := secondsPerBeat * 0.25 in
  let c := set_nextNoteTime (nextNoteTime c + secondsPer16th) c in
  set_currentStep (currentStep c + 1)%Z c.

(** [window.setTimeout(this.scheduler.bind(this), delay)]: a fresh,
    non-zero identifier is returned and the timeout becomes pending. *)
Definition setTimeout (delay : float) (c : LoopChannel) : nat * LoopChannel :=
  let id := S (lastTimer c) in
  (id, set_pendingWakes (pendingWakes c ++ [mkTimeout id delay])
         (set_lastTimer id c)).

Definition clearTimeout (id : nat) (c : LoopChannel) : LoopChannel :=
  set_pendingWakes
    (filter (fun w => negb (Nat.eqb (timeoutId w) id)) (pendingWakes c)) c.

(** The [while] loop of [scheduler].  [now] is [ctx.currentTime], which
    does not move while the callback runs; [random beat] is the
    [Math.random()] drawn while step [beat] is scheduled.  The loop is
    unbounded in the source: [None] means that [fuel] iterations did not
    reach its exit. *)
Fixpoint scheduler_loop (fuel : nat) (now : float) (random : Z -> float)
    (c : LoopChannel) : option LoopChannel :=
  if nextNoteTime c <? now + 0.1 then
    match fuel with
    | O => None
    | S fuel' =>
      let c := schedule (currentStep c) (nextNoteTime c)
                 (random (currentStep c)) c in
      scheduler_loop fuel' now random (nextNote c)
    end
  else Some c.

Definition scheduler (fuel : nat) (now : float) (random : Z -> float)
    (c : LoopChannel) : option LoopChannel :=
  match scheduler_loop fuel now random c with
  | None => None
  | Some c =>
    if isPlaying c then
      let (id, c) := setTimeout 25 c in
      Some (set_timerID (Some id) c)
    else Some c
  end.

(** A pending timeout fires: it leaves the timer table and its callback
    runs.  A timeout that is not pending never fires. *)
Definition wake (fuel : nat) (now : float) (random : Z -> float) (id : nat)
    (c : LoopChannel) : option LoopChannel :=
  if existsb (fun w => Nat.eqb (timeoutId w) id) (pendingWakes c)
  then scheduler fuel now random (clearTimeout id c)
  else Some c.

(** *** API *)

Definition start (fuel : nat) (now : float) (random : Z -> float)
    (c : LoopChannel) : option LoopChannel :=
  if isPlaying c then Some c
  else
    let c := set_isPlaying true c in
    let c := set_nextNoteTime (now + 0.1) c in
    let c := set_currentStep 0%Z c in
    scheduler fuel now random c.

Definition stop (c : LoopChannel) : LoopChannel :=
  let c := set_isPlaying false c in
  match timerID c with
  | Some (S _ as id) => clearTimeout id c
  | _ => c
  end.

(** [setLoop(loopId: string | null)]; [null] and the empty string are the
    falsy arguments. *)
Definition setLoop (fuel : nat) (now : float) (random : Z -> float)
    (loopId : option string) (c : LoopChannel) : option LoopChannel :=
  match loopId with
  | None | Some EmptyString => Some (set_currentLoop None c)
  | Some loopId =>
    let c :=
      set_currentLoop
        (find (fun l => (loop_id l =? loopId)%string) AVAILABLE_LOOPS) c in
    match currentLoop c with
    | Some _ => if isPlaying c then Some c else start fuel now random c
    | None => Some c
    end
  end.

(** [filter.type = type; filter.frequency.setTargetAtTime(freq, t, 0.1)]
    followed, when [q] is given, by [filter.Q.value = q]: the type is
    assigned before the call that may throw, the resonance after it. *)
Definition retune (type : BiquadFilterType) (freq t : float) (q : option float)
    (f : BiquadFilterNode) : Completion BiquadFilterNode :=
  let f := mkBiquad type (frequency f) (Q f) in
  match setTargetAtTime (frequency f) freq t 0.1 with
  | Some p =>
    Normal (mkBiquad type p (match q with Some q => q | None => Q f end))
  | None => Throw f
  end.

(** A call [param.setTargetAtTime(target, t, 0.1)] on a parameter of the
    channel, [assign] putting the parameter back in its place. *)
Definition aim (p : AudioParam) (tgt t : float)
    (assign : AudioParam -> LoopChannel -> LoopChannel) (c : LoopChannel)
    : Completion LoopChannel :=
  match setTargetAtTime p tgt t 0.1 with
  | Some p => Normal (assign p c)
  | None => Throw c
  end.

(** The channel with a filter that was tuned put back in its place. *)
Definition on_filter (r : Completion BiquadFilterNode)
    (assign : BiquadFilterNode -> LoopChannel -> LoopChannel)
    (c : LoopChannel) : Completion LoopChannel :=
  match r with
  | Normal f => Normal (assign f c)
  | Throw f => Throw (assign f c)
  end.

(** [applyEffect(type, value, isMuted)] at [ctx.currentTime = t]. *)
Definition applyEffect (t : float) (type : EffectType) (value : float)
    (isMuted : bool) (c : LoopChannel) : Completion LoopChannel :=
  let v := Math_max 0 (Math_min 1 value) in
  let v := if EffectType_eqb type VOLUME && isMuted then 0 else v in
  match type with
  | VOLUME => aim (gainNode c) v t set_gainNode c
  | LPF =>
    let lpfFreq := 100 + Math_pow v 2 * 19900 in
    on_filter (retune lowpass lpfFreq t (Some 1) (filterNode c))
      set_filterNode c
  | HPF =>
    let hpfFreq := v * 10000 in
    on_filter (retune highpass hpfFreq t (Some 1) (filterNode c))
      set_filterNode c
  | REVERB => aim (reverbGain c) (v * 2) t set_reverbGain c
  | DELAY => aim (delayFeedback c) (v * 0.8) t set_delayFeedback c
  | FLANGER => aim (flangerWet c) v t set_flangerWet c
  | NONE => Normal c
  end.

(** The four axes of [update], in the order x, y, z and spread: its first
    four statements after the fist test. *)
Definition applyAxes (t : float) (x y spread z : float) (isFist : bool)
    (c : LoopChannel) : Completion LoopChannel :=
  andThen (applyEffect t (xEffect c) x isFist c) (fun c =>
  andThen (applyEffect t (yEffect c) y isFist c) (fun c =>
  andThen (applyEffect t (zEffect c) z isFist c) (fun c =>
  applyEffect t (spreadEffect c) spread isFist c))).

(** The rotation filter of [update]: the rest of its body. *)
Definition applyRotation (t : float) (rotation : float)
    (isRotActive isFist : bool) (c : LoopChannel) : Completion LoopChannel :=
  let rot := rotationFilterNode c in
  if isRotActive && negb isFist then
    if rotation <? -0.1 then
      let norm := (rotation + 1) / 0.9 in
      let freq := 40 + Math_pow norm 3 * 19960 in
      on_filter (retune lowpass freq t (Some 1) rot) set_rotationFilterNode c
    else if 0.1 <? rotation then
      let norm := (rotation - 0.1) / 0.9 in
      let freq := 10 + norm * 3990 in
      on_filter (retune highpass freq t (Some 1) rot) set_rotationFilterNode c
    else
      on_filter (retune lowpass 22000 t None rot) set_rotationFilterNode c
  else
    on_filter (retune lowpass 22000 t None rot) set_rotationFilterNode c.

(** [update(x, y, spread, z, rotation, isRotActive)]; [t] is
    [ctx.currentTime].  A statement that throws ends the call. *)
Definition update (t : float) (x y spread z rotation : float)
    (isRotActive : bool) (c : LoopChannel) : Completion LoopChannel :=
  let isFist := spread <? 0.15 in
  andThen (applyAxes t x y spread z isFist c)
    (applyRotation t rotation isRotActive isFist).

Inductive Axis : Type := AxisX | AxisY | AxisZ | AxisSpread.

(** [resetUnmappedEffects()].  The targets are the literals 0.8, 20000 and
    0, which the conversion accepts: every [setTargetAtTime] returns. *)
Definition resetUnmappedEffects (t : float) (c : LoopChannel) : LoopChannel :=
  let mapped := [xEffect c; yEffect c; zEffect c; spreadEffect c] in
  let c := when (negb (includes mapped VOLUME))
             (fun c => set_gainNode (approach (gainNode c) 0.8 t 0.5) c) c in
  let c := when (negb (includes mapped LPF) && negb (includes mapped HPF))
             (fun c =>
                set_filterNode
                  (mkBiquad lowpass
                     (approach (frequency (filterNode c)) 20000 t 0.5)
                     (Q (filterNode c))) c) c in
  let c := when (negb (includes mapped REVERB))
             (fun c => set_reverbGain (approach (reverbGain c) 0 t 0.5) c) c in
  let c := when (negb (includes mapped DELAY))
             (fun c => set_delayFeedback (approach (delayFeedback c) 0 t 0.5) c) c in
  let c := when (negb (includes mapped FLANGER))
             (fun c => set_flangerWet (approach (flangerWet c) 0 t 0.5) c) c in
  c.

Definition setMapping (t : float) (axis : Axis) (effect : EffectType)
    (c : LoopChannel) : LoopChannel :=
  let c := match axis with
           | AxisX => set_xEffect effect c
           | AxisY => set_yEffect effect c
           | AxisZ => set_zEffect effect c
           | AxisSpread => set_spreadEffect effect c
           end in
  resetUnmappedEffects t c.

End LoopChannelMethods.

(** ** [class SynthEngine] *)

Inductive Hand : Type := Left | Right.

Record SynthEngine : Type := mkSynthEngine {
  leftChannel : LoopChannel;
  rightChannel : LoopChannel;
  _isDogMode : bool
}.

Module Engine.

Section Methods.

Context {impl : Implementation}.

Local Open Scope float_scope.

Definition new : SynthEngine :=
  mkSynthEngine newLoopChannel newLoopChannel false.

Definition channel (hand : Hand) (e : SynthEngine) : LoopChannel :=
  match hand with Left => leftChannel e | Right => rightChannel e end.

Definition set_channel (hand : Hand) (c : LoopChannel) (e : SynthEngine)
    : SynthEngine :=
  match hand with
  | Left => mkSynthEngine c (rightChannel e) (_isDogMode e)
  | Right => mkSynthEngine (leftChannel e) c (_isDogMode e)
  end.

Definition start (fuel : nat) (now : float) (random : Z -> float)
    (e : SynthEngine) : option SynthEngine :=
  match start fuel now random (leftChannel e) with
  | None => None
  | Some l =>
    match start fuel now random (rightChannel e) with
    | None => None
    | Some r => Some (mkSynthEngine l r (_isDogMode e))
    end
  end.

Definition stop (e : SynthEngine) : SynthEngine :=
  mkSynthEngine (stop (leftChannel e)) (stop (rightChannel e)) (_isDogMode e).

Definition setBpm (bpm : float) (e : SynthEngine) : SynthEngine :=
  mkSynthEngine (set_bpm bpm (leftChannel e)) (set_bpm bpm (rightChannel e))
    (_isDogMode e).

Definition updateHand (t : float) (hand : Hand)
    (x y spread z rotation : float) (isRotActive : bool) (e : SynthEngine)
    : Completion SynthEngine :=
  match update t x y spread z rotation isRotActive (channel hand e) with
  | Normal c => Normal (set_channel hand c e)
  | Throw c => Throw (set_channel hand c e)
  end.

Definition updateMapping (t : float) (hand : Hand) (axis : Axis)
    (effect : EffectType) (e : SynthEngine) : SynthEngine :=
  set_channel hand (setMapping t axis effect (channel hand e)) e.

Definition setDogMode (t : float) (active : bool) (e : SynthEngine)
    : SynthEngine :=
  if Bool.eqb (_isDogMode e) active then e
  else
    let l := set_isDogMode active (leftChannel e) in
    let r := set_isDogMode active (rightChannel e) in
    if active
    then mkSynthEngine (setPresence t true l) (setPresence t true r) active
    else mkSynthEngine l r active.

End Methods.

End Engine.

(** ** [App.tsx]: tempo and gesture mapping *)

Record Landmark : Type := mkLandmark {
  lm_x : float;
  lm_y : float
}.

Record HandMetrics : Type := mkHandMetrics {
  spread : float;
  z : float;
  rotation : float
}.

Record HandConfig : Type := mkHandConfig {
  activeLoopId : option string;
  hand_xEffect : EffectType;
  hand_yEffect : EffectType;
  hand_zEffect : EffectType;
  hand_spreadEffect : EffectType;
  isRotationActive : bool;
  xValue : float;
  yValue : float;
  zValue : float;
  spreadValue : float;
  rotationValue : float
}.

(** The component: [synthRef.current] and the part of [appState] that the
    modelled handlers read or write. *)
Record App : Type := mkApp {
  synthRef : option SynthEngine;
  app_bpm : float;
  leftHand : HandConfig;
  rightHand : HandConfig
}.

Module AppLogic.

Local Open Scope float_scope.

(** [Math.PI] *)
Definition Math_PI : float := 3.141592653589793.

Definition handleBpmChange (newBpm : float) (a : App) : App :=
  let clamped := Math_max 40 (Math_min 300 newBpm) in
  mkApp (option_map (Engine.setBpm clamped) (synthRef a)) clamped
    (leftHand a) (rightHand a).

(** The tempo field of [DJDeck]:
    [onChange={(e) => onBpmChange(parseInt(e.target.value) || 128)}],
    [parsed] being what [parseInt] returned. *)
Definition onBpmInput (parsed : float) (a : App) : App :=
  handleBpmChange (or_default parsed 128) a.

(** [landmarks[i]]; [None] is [undefined], on which the property reads of
    the source throw. *)
Definition landmark (landmarks : list Landmark) (i : nat) : option Landmark :=
  nth_error landmarks i.

Definition bind {A B : Type} (m : option A) (k : A -> option B) : option B :=
  match m with Some a => k a | None => None end.

Notation "x <- m ;; k" := (bind m (fun x => k))
  (at level 61, m at next level, right associativity).

(** The body of [fingertips.forEach]. *)
Definition addTipDistance (landmarks : list Landmark) (wrist : Landmark)
    (totalDist : option float) (idx : nat) : option float :=
  totalDist <- totalDist ;;
  tip <- landmark landmarks idx ;;
  let tdx := lm_x tip - lm_x wrist in
  let tdy := lm_y tip - lm_y wrist in
  Some (totalDist + sqrt (tdx * tdx + tdy * tdy)).

(** [if (synthRef.current) synthRef.current.method(...)]: the engine after
    the call, [None] when the call throws. *)
Definition onSynth (method : SynthEngine -> Completion SynthEngine)
    (synth : option SynthEngine) : option (option SynthEngine) :=
  match synth with
  | None => Some None
  | Some e =>
    match method e with
    | Normal e' => Some (Some e')
    | Throw _ => None
    end
  end.

Section Metrics.

Context {impl : Implementation}.

(** [Math.atan2], which ECMAScript specifies only up to an
    implementation-approximated result. *)
Variable Math_atan2 : float -> float -> float.

Definition calculateHandMetrics (landmarks : list Landmark)
    (isRightHand : bool) : option HandMetrics :=
  wrist <- landmark landmarks 0 ;;
  middleMCP <- landmark landmarks 9 ;;
  let dx := lm_x wrist - lm_x middleMCP in
  let dy := lm_y wrist - lm_y middleMCP in
  let handScale := sqrt (dx * dx + dy * dy) in
  let fingertips := [4; 8; 12; 16; 20]%nat in
  totalDist <- fold_left (addTipDistance landmarks wrist) fingertips (Some 0) ;;
  let avgDist := totalDist / 5 in
  let ratio := avgDist / handScale in
  let minRatio := 0.8 in
  let maxRatio := 1.7 in
  let spread :=
    Math_max 0 (Math_min 1 ((ratio - minRatio) / (maxRatio - minRatio))) in
  let minScale := 0.05 in
  let maxScale := 0.3 in
  let z :=
    Math_max 0 (Math_min 1 ((handScale - minScale) / (maxScale - minScale))) in
  let rad :=
    Math_atan2 (lm_y middleMCP - lm_y wrist) (lm_x middleMCP - lm_x wrist) in
  let deg := rad * (180 / Math_PI) in
  let rotation :=
    if isRightHand then - (deg + 90) / 90 else (deg + 90) / 90 in
  let rotation := Math_max (-1) (Math_min 1 rotation) in
  Some (mkHandMetrics spread z rotation).

Definition set_handValues (x y z spread rotation : float) (h : HandConfig)
    : HandConfig :=
  mkHandConfig (activeLoopId h) (hand_xEffect h) (hand_yEffect h)
    (hand_zEffect h) (hand_spreadEffect h) (isRotationActive h)
    x y z spread rotation.

(** The body of [results.handedness.forEach] in [predictWebcam], for one
    detected hand with its [label] and [landmarks]; [t] is
    [ctx.currentTime].  [appState] is the state that the running callback
    closes over, [prev] the state that [setAppState] updates; [synthRef] is
    a ref, the same in both.  [None] when the body throws: on a missing
    landmark, or inside [updateHand]. *)
Definition trackHand (appState : App) (t : float) (label : Hand)
    (landmarks : list Landmark) (prev : App) : option App :=
  let isRightHand := match label with Right => true | Left => false end in
  indexTip <- landmark landmarks 8 ;;
  let x := Math_max 0 (Math_min 1 (lm_x indexTip)) in
  let y := Math_max 0 (Math_min 1 (1 - lm_y indexTip)) in
  m <- calculateHandMetrics landmarks isRightHand ;;
  let isActive :=
    if isRightHand then isRotationActive (rightHand appState)
    else isRotationActive (leftHand appState) in
  synth <- onSynth
             (Engine.updateHand t label x y (spread m) (z m) (rotation m)
                isActive)
             (synthRef prev) ;;
  match label with
  | Left =>
    Some (mkApp synth (app_bpm prev)
            (set_handValues x y (z m) (spread m) (rotation m) (leftHand prev))
            (rightHand prev))
  | Right =>
    Some (mkApp synth (app_bpm prev) (leftHand prev)
            (set_handValues x y (z m) (spread m) (rotation m) (rightHand prev)))
  end.

End Metrics.

End AppLogic.

(** ** Vocabulary of the properties *)

Section Vocabulary.

Local Open Scope float_scope.

(** The IEEE comparison of two numbers; [None] when one of them is NaN. *)
Definition fcmp (x y : float) : option comparison :=
  SFcompare (Prim2SF x) (Prim2SF y).

(** The guard of the scheduler's loop: the next step falls inside the
    look-ahead window of 0.1 s. *)
Definition due (now : float) (c : LoopChannel) : bool :=
  nextNoteTime c <? now + 0.1.

(** One turn of the scheduler's loop, and [k] turns in a row. *)
Definition advance (random : Z -> float) (c : LoopChannel) : LoopChannel :=
  nextNote
    (schedule (currentStep c) (nextNoteTime c) (random (currentStep c)) c).

Fixpoint dispatch (k : nat) (random : Z -> float) (c : LoopChannel)
    : LoopChannel :=
  match k with
  | O => c
  | S k' => dispatch k' random (advance random c)
  end.

(** The time of the [i]-th step ahead: [i] sixteenth notes after
    [nextNoteTime], added one by one as the loop does. *)
Fixpoint noteTime (c : LoopChannel) (i : nat) : float :=
  match i with
  | O => nextNoteTime c
  | S i' => noteTime c i' + 60 / bpm c * 0.25
  end.

(** The voices that [schedule] starts: those it leaves on a channel that
    had none. *)
Definition dispatched (beat : Z) (time rnd : float) (c : LoopChannel)
    : list Voice :=
  voices (schedule beat time rnd (set_voices [] c)).

(** The voices of steps [currentStep c + i], [i = from, ..., from + k - 1],
    in that order. *)
Fixpoint dispatchedFrom (from k : nat) (random : Z -> float)
    (c : LoopChannel) : list Voice :=
  match k with
  | O => []
  | S k' =>
    let beat := (currentStep c + Z.of_nat from)%Z in
    dispatched beat (noteTime c from) (random beat) c
      ++ dispatchedFrom (S from) k' random c
  end.

(** After its loop, [scheduler] leaves one new timeout of 25 ms when the
    channel is playing, and none otherwise. *)
Definition rearmed (c : LoopChannel) : LoopChannel :=
  if isPlaying c then
    set_timerID (Some (S (lastTimer c)))
      (set_pendingWakes (pendingWakes c ++ [mkTimeout (S (lastTimer c)) 25])
         (set_lastTimer (S (lastTimer c)) c))
  else c.

(** An integral tempo as a JavaScript number. *)
Definition tempo (n : Z) : float := of_uint63 (Uint63.of_Z n).

(** The timer discipline of a channel: at most one wake is pending, and
    then the channel is playing and [timerID] names that wake. *)
Definition one_wake (c : LoopChannel) : Prop :=
  pendingWakes c = [] \/
  (isPlaying c = true /\
   exists id delay, pendingWakes c = [mkTimeout (S id) delay]
                    /\ timerID c = Some (S id)).

End Vocabulary.

(** ** The channel as a state machine *)

(** What happens to a channel: the calls made on it by the application and
    the engine, and its timeouts firing. *)
Inductive Call : Type :=
  | CallStart (now : float)
  | CallStop
  | TimerFires (id : nat) (now : float)
  | CallSetLoop (loopId : option string) (now : float)
  | CallUpdate (t x y spread z rotation : float) (isRotActive : bool)
  | CallSetMapping (t : float) (axis : Axis) (effect : EffectType)
  | CallSetPresence (t : float) (isPresent : bool)
  | AssignBpm (bpm : float)
  | AssignDogMode (active : bool).

Section ChannelMachine.

Context {impl : Implementation}.

(** The channel after a call: [None] when the call does not return for
    want of fuel; a call of [update] that throws leaves the channel in the
    state that it has reached. *)
Definition perform (fuel : nat) (random : Z -> float) (call : Call)
    (c : LoopChannel) : option LoopChannel :=
  match call with
  | CallStart now => start fuel now random c
  | CallStop => Some (stop c)
  | TimerFires id now => wake fuel now random id c
  | CallSetLoop loopId now => setLoop fuel now random loopId c
  | CallUpdate t x y spread z rotation isRotActive =>
    Some (state (update t x y spread z rotation isRotActive c))
  | CallSetMapping t axis effect => Some (setMapping t axis effect c)
  | CallSetPresence t isPresent => Some (setPresence t isPresent c)
  | AssignBpm bpm => Some (set_bpm bpm c)
  | AssignDogMode active => Some (set_isDogMode active c)
  end.

(** The states a channel can be in, from its construction on. *)
Inductive reachable : LoopChannel -> Prop :=
  | reachable_new : reachable newLoopChannel
  | reachable_step : forall fuel random call c c',
      reachable c -> perform fuel random call c = Some c' -> reachable c'.

End ChannelMachine.

(** ** The trigger rules, as the specification tabulates them *)

Section TriggerRules.

Local Open Scope float_scope.

Definition hit (cond : bool) (g : Generator) : list Generator :=
  if cond then [g] else [].

Definition member (step : Z) (steps : list Z) : bool :=
  existsb (Z.eqb step) steps.

(** The generators that step [step] of the bar triggers under the loop
    called [id]; [rnd] is the uniform draw of the percussion loops, which
    hit on its upper half. *)
Definition trigger_rule (id : string) (step : Z) (rnd : float)
    : list Generator :=
  if (id =? "drum_house")%string then
    hit (step mod 4 =? 0)%Z Kick ++ hit (step mod 8 =? 4)%Z Snare
      ++ hit (Z.odd step) HiHat
  else if (id =? "drum_break")%string then
    hit (member step [0; 10]%Z) Kick ++ hit (member step [4; 12]%Z) Snare
      ++ hit (Z.even step) HiHat
  else if (id =? "synth_neon")%string then
    hit (Z.even step)
      (SynthTone (nth (Z.to_nat ((step / 2) mod 4)) [220; 330; 440; 660] nan))
  else if (id =? "synth_bass")%string then
    hit (member step [0; 8]%Z) (SynthTone 55)
      ++ hit (member step [3; 11]%Z) (SynthTone 110)
  else if (id =? "amb_space")%string then hit (step =? 0)%Z (AmbientPad 110)
  else if (id =? "amb_pads")%string then hit (step =? 0)%Z (AmbientPad 164.8)
  else if (id =? "perc_glitch")%string || (id =? "perc_shaker")%string then
    hit (0.5 <? rnd) Perc
  else [].


(** A generator as the voice it becomes at [time], connected to [out]. *)
Definition voiced (time : float) (out : AudioNode) (gs : list Generator)
    : list Voice :=
  map (fun g => mkVoice g time out) gs.

(** Audio flows from [a] to [b] along the connections of the graph. *)
Inductive flows : AudioNode -> AudioNode -> Prop :=
  | flows_edge : forall a b, In (a, b) connections -> flows a b
  | flows_path : forall a b c, In (a, b) connections -> flows b c -> flows a c.

(** The stages of the normal effect chain. *)
Definition effect_chain : list AudioNode :=
  [FilterNode; DelayNode; ReverbNode; RotationFilterNode; GainNode;
   PresenceGain].

End TriggerRules.

(** ** The mapping reset, as the specification words it *)

Section MappingReset.

Local Open Scope float_scope.

Definition mapped (c : LoopChannel) : list EffectType :=
  [xEffect c; yEffect c; zEffect c; spreadEffect c].





End MappingReset.

(** ** The gesture formulas, as the specification words them *)

Section GestureFormulas.

Context {impl : Implementation}.

Local Open Scope float_scope.

Variable Math_atan2 : float -> float -> float.

(** The landmark at index [i] of a complete frame. *)
Definition joint (landmarks : list Landmark) (i : nat) : Landmark :=
  nth i landmarks (mkLandmark nan nan).

Definition distance (p q : Landmark) : float :=
  sqrt ((lm_x p - lm_x q) * (lm_x p - lm_x q)
        + (lm_y p - lm_y q) * (lm_y p - lm_y q)).

(** Wrist to middle-finger base. *)
Definition handScale (landmarks : list Landmark) : float :=
  distance (joint landmarks 0) (joint landmarks 9).

(** Mean distance of the five fingertips from the wrist, summed from the
    thumb to the little finger. *)
Definition meanTipDistance (landmarks : list Landmark) : float :=
  let d i := distance (joint landmarks i) (joint landmarks 0) in
  (0 + d 4%nat + d 8%nat + d 12%nat + d 16%nat + d 20%nat) / 5.

(** Angle of the vector from the wrist to the middle-finger base, in
    degrees. *)
Definition angleDeg (landmarks : list Landmark) : float :=
  Math_atan2 (lm_y (joint landmarks 9) - lm_y (joint landmarks 0))
             (lm_x (joint landmarks 9) - lm_x (joint landmarks 0))
  * (180 / AppLogic.Math_PI).

Definition gesture_x (landmarks : list Landmark) : float :=
  clamp 0 1 (lm_x (joint landmarks 8)).

Definition gesture_y (landmarks : list Landmark) : float :=
  clamp 0 1 (1 - lm_y (joint landmarks 8)).

Definition gesture_spread (landmarks : list Landmark) : float :=
  clamp 0 1
    ((meanTipDistance landmarks / handScale landmarks - 0.8) / (1.7 - 0.8)).

Definition gesture_z (landmarks : list Landmark) : float :=
  clamp 0 1 ((handScale landmarks - 0.05) / (0.3 - 0.05)).

Definition rotation_of (isRightHand : bool) (deg : float) : float :=
  if isRightHand then clamp (-1) 1 (- (deg + 90) / 90)
  else clamp (-1) 1 ((deg + 90) / 90).

Definition gesture_rotation (label : Hand) (landmarks : list Landmark)
    : float :=
  rotation_of (match label with Right => true | Left => false end)
    (angleDeg landmarks).

Definition rotationActive (label : Hand) (a : App) : bool :=
  match label with
  | Right => isRotationActive (rightHand a)
  | Left => isRotationActive (leftHand a)
  end.

Definition handConfig (label : Hand) (a : App) : HandConfig :=
  match label with Right => rightHand a | Left => leftHand a end.

(** C8 as stated, for a threshold [eps]: a frame whose hand scale is below
    [eps] is skipped, nothing of it reaching the engine. *)
Definition skips_degenerate_frames (eps : float) : Prop :=
  forall t label landmarks a a',
    List.length landmarks = 21%nat ->
    (handScale landmarks <? eps) = true ->
    AppLogic.trackHand Math_atan2 a t label landmarks a = Some a' ->
    synthRef a' = synthRef a.

End GestureFormulas.

(** A degenerate frame: the wrist and the middle-finger base coincide at the
    centre of the image, every other landmark lies 0.2 above them. *)
Definition degenerate_frame : list Landmark :=
  map (fun i => if (Nat.eqb i 0 || Nat.eqb i 9)%bool
                then mkLandmark 0.5 0.5 else mkLandmark 0.5 0.3)
      (seq 0 21).

(** A frame in which all 21 landmarks coincide at the centre of the
    image. *)
Definition coincident_frame : list Landmark :=
  map (fun _ => mkLandmark 0.5 0.5) (seq 0 21).

(** A hand that points to the left of the image: the middle-finger base
    lies at the height of the wrist and 0.2 to its left, the fingertips
    further to the left. *)
Definition leftward_frame : list Landmark :=
  map (fun i =>
         match i with
         | 0 => mkLandmark 0.5 0.5
         | 9 => mkLandmark 0.3 0.5
         | 4 => mkLandmark 0.35 0.35
         | 8 => mkLandmark 0.15 0.4
         | 12 => mkLandmark 0.1 0.5
         | 16 => mkLandmark 0.15 0.6
         | 20 => mkLandmark 0.2 0.65
         | _ => mkLandmark 0.3 0.5
         end%nat%float)
      (seq 0 21).

(** The application right after its initialisation: the engine is
    constructed and the initial mappings of both hands are installed. *)
Definition initial_left : HandConfig :=
  mkHandConfig None LPF VOLUME NONE FLANGER false 0.5 0 0 0 0.

Definition initial_right : HandConfig :=
  mkHandConfig None DELAY REVERB NONE HPF false 0.5 0 0 0 0.

Definition install (t : float) (h : HandConfig) (c : LoopChannel) : LoopChannel :=
  setMapping t AxisSpread (hand_spreadEffect h)
    (setMapping t AxisZ (hand_zEffect h)
       (setMapping t AxisY (hand_yEffect h)
          (setMapping t AxisX (hand_xEffect h) c))).

Definition initial_engine : SynthEngine :=
  mkSynthEngine
    (install 0 initial_left (set_bpm 128 newLoopChannel))
    (install 0 initial_right (set_bpm 128 newLoopChannel))
    false.

Definition initial_app : App :=
  mkApp
    (Some (mkSynthEngine
             (install 0 initial_left (set_bpm 128 newLoopChannel))
             (install 0 initial_right (set_bpm 128 newLoopChannel))
             false))
    128 initial_left initial_right.

(** A freshly built channel on which the house beat has been selected
    without starting it. *)
Definition house_channel : LoopChannel :=
  set_currentLoop
    (find (fun l => (loop_id l =? "drum_house")%string) AVAILABLE_LOOPS)
    newLoopChannel.

(** ** Clearing the loop, as the specification words it *)

Section ClearingTheLoop.

Local Open Scope float_scope.

(** [loopId] is [null] or names no loop of the catalog. *)
Definition names_no_loop (loopId : option string) : Prop :=
  match loopId with
  | None => True
  | Some s => forall l, In l AVAILABLE_LOOPS -> loop_id l <> s
  end.


(** A channel started at time 0 while the override mode is active. *)
Definition playing_in_dog_mode : option LoopChannel :=
  start 1 0 (fun _ => 0) (set_isDogMode true newLoopChannel).

End ClearingTheLoop.

(** An open right hand held upright in front of the camera. *)
Definition open_hand_frame : list Landmark :=
  map (fun i =>
         match i with
         | 0 => mkLandmark 0.5 0.9
         | 4 => mkLandmark 0.3 0.6
         | 8 => mkLandmark 0.45 0.3
         | 9 => mkLandmark 0.5 0.6
         | 12 => mkLandmark 0.5 0.25
         | 16 => mkLandmark 0.55 0.3
         | 20 => mkLandmark 0.65 0.4
         | _ => mkLandmark 0.5 0.7
         end%nat%float)
      (seq 0 21).


(** The house channel once started at time 0: playing, first step due at
    0.1, first wake pending. *)
Definition started_house : LoopChannel :=
  rearmed
    (set_currentStep 0%Z
       (set_nextNoteTime (0 + 0.1)%float (set_isPlaying true house_channel))).


(** ** The writes of [applyEffect] and [update], parameter by parameter *)

Section Writes.

Context {impl : Implementation}.

Local Open Scope float_scope.

(** What a run of [applyEffect] or [update] has written when it ends, by
    returning or by throwing: for each automation the target it was last
    given, for each of the two filters the type and the Q it was last
    given.  [None] stands for a parameter that the run has not touched. *)
Record Writes : Type := mkWrites {
  w_gain : option SetTarget;
  w_filterType : option BiquadFilterType;
  w_filterFreq : option SetTarget;
  w_filterQ : option float;
  w_reverb : option SetTarget;
  w_delay : option SetTarget;
  w_flanger : option SetTarget;
  w_rotationType : option BiquadFilterType;
  w_rotationFreq : option SetTarget;
  w_rotationQ : option float
}.

Definition no_writes : Writes :=
  mkWrites None None None None None None None None None None.

Definition later {A : Type} (first second : option A) : option A :=
  match second with Some a => Some a | None => first end.

(** The writes of [first], then those of [second]. *)
Definition merge (first second : Writes) : Writes :=
  mkWrites
    (later (w_gain first) (w_gain second))
    (later (w_filterType first) (w_filterType second))
    (later (w_filterFreq first) (w_filterFreq second))
    (later (w_filterQ first) (w_filterQ second))
    (later (w_reverb first) (w_reverb second))
    (later (w_delay first) (w_delay second))
    (later (w_flanger first) (w_flanger second))
    (later (w_rotationType first) (w_rotationType second))
    (later (w_rotationFreq first) (w_rotationFreq second))
    (later (w_rotationQ first) (w_rotationQ second)).

Definition written {A : Type} (w : option A) (old : A) : A :=
  match w with Some a => a | None => old end.

Definition retargeted (w : option SetTarget) (p : AudioParam) : AudioParam :=
  mkParam (value p) (later (automation p) w).

Definition refiltered (type : option BiquadFilterType) (tgt : option SetTarget)
    (q : option float) (f : BiquadFilterNode) : BiquadFilterNode :=
  mkBiquad (written type (filterType f)) (retargeted tgt (frequency f))
    (written q (Q f)).

(** The channel with the writes carried out. *)
Definition apply_writes (w : Writes) (c : LoopChannel) : LoopChannel :=
  set_rotationFilterNode
    (refiltered (w_rotationType w) (w_rotationFreq w) (w_rotationQ w)
       (rotationFilterNode c))
    (set_flangerWet (retargeted (w_flanger w) (flangerWet c))
       (set_reverbGain (retargeted (w_reverb w) (reverbGain c))
          (set_delayFeedback (retargeted (w_delay w) (delayFeedback c))
             (set_filterNode
                (refiltered (w_filterType w) (w_filterFreq w) (w_filterQ w)
                   (filterNode c))
                (set_gainNode (retargeted (w_gain w) (gainNode c)) c))))).

Definition on_channel_writes (r : Completion Writes) (c : LoopChannel)
    : Completion LoopChannel :=
  match r with
  | Normal w => Normal (apply_writes w c)
  | Throw w => Throw (apply_writes w c)
  end.

Definition then_writes (first second : Completion Writes)
    : Completion Writes :=
  match first with
  | Normal w =>
    match second with
    | Normal w' => Normal (merge w w')
    | Throw w' => Throw (merge w w')
    end
  | Throw w => Throw w
  end.

(** One call of [setTargetAtTime]: [hit] is what is written when the call
    returns, [miss] what has been written when it throws. *)
Definition target_writes (tgt t : float) (hit : SetTarget -> Writes)
    (miss : Writes) : Completion Writes :=
  if accepts tgt then Normal (hit (mkSetTarget tgt t 0.1)) else Throw miss.

Definition effect_writes (t : float) (type : EffectType) (value : float)
    (isMuted : bool) : Completion Writes :=
  let v := Math_max 0 (Math_min 1 value) in
  let v := if EffectType_eqb type VOLUME && isMuted then 0 else v in
  match type with
  | VOLUME =>
    target_writes v t
      (fun s => mkWrites (Some s) None None None None None None None None None)
      no_writes
  | LPF =>
    target_writes (100 + Math_pow v 2 * 19900) t
      (fun s =>
         mkWrites None (Some lowpass) (Some s) (Some 1) None None None None
           None None)
      (mkWrites None (Some lowpass) None None None None None None None None)
  | HPF =>
    target_writes (v * 10000) t
      (fun s =>
         mkWrites None (Some highpass) (Some s) (Some 1) None None None None
           None None)
      (mkWrites None (Some highpass) None None None None None None None None)
  | REVERB =>
    target_writes (v * 2) t
      (fun s => mkWrites None None None None (Some s) None None None None None)
      no_writes
  | DELAY =>
    target_writes (v * 0.8) t
      (fun s => mkWrites None None None None None (Some s) None None None None)
      no_writes
  | FLANGER =>
    target_writes v t
      (fun s => mkWrites None None None None None None (Some s) None None None)
      no_writes
  | NONE => Normal no_writes
  end.

Definition rotation_writes (t rotation : float) (isRotActive isFist : bool)
    : Completion Writes :=
  let tuned type freq q :=
    target_writes freq t
      (fun s =>
         mkWrites None None None None None None None (Some type) (Some s) q)
      (mkWrites None None None None None None None (Some type) None None) in
  if isRotActive && negb isFist then
    if rotation <? -0.1 then
      tuned lowpass (40 + Math_pow ((rotation + 1) / 0.9) 3 * 19960) (Some 1)
    else if 0.1 <? rotation then
      tuned highpass (10 + (rotation - 0.1) / 0.9 * 3990) (Some 1)
    else tuned lowpass 22000 None
  else tuned lowpass 22000 None.

(** The writes of the four axes of [update] on a channel whose axes are
    mapped to [ex], [ey], [ez] and [es]. *)
Definition axes_writes (t : float) (x y spread z : float) (isFist : bool)
    (ex ey ez es : EffectType) : Completion Writes :=
  then_writes (effect_writes t ex x isFist)
    (then_writes (effect_writes t ey y isFist)
       (then_writes (effect_writes t ez z isFist)
          (effect_writes t es spread isFist))).

(** The writes of [update] on such a channel. *)
Definition update_writes (t : float) (x y spread z rotation : float)
    (isRotActive : bool) (ex ey ez es : EffectType) : Completion Writes :=
  let isFist := spread <? 0.15 in
  then_writes (axes_writes t x y spread z isFist ex ey ez es)
    (rotation_writes t rotation isRotActive isFist).

(** Two channels agree on everything that is not an effect parameter: the
    tempo, the presence gate, the loop, the step clock, the timers, the
    override flag, the mapping table and the voices. *)
Definition same_outside_effects (c c' : LoopChannel) : Prop :=
  bpm c' = bpm c /\ presenceGain c' = presenceGain c
  /\ isPlaying c' = isPlaying c /\ currentLoop c' = currentLoop c
  /\ nextNoteTime c' = nextNoteTime c /\ currentStep c' = currentStep c
  /\ timerID c' = timerID c /\ isDogMode c' = isDogMode c
  /\ mapped c' = mapped c /\ voices c' = voices c
  /\ pendingWakes c' = pendingWakes c /\ lastTimer c' = lastTimer c.

(** [resetUnmappedEffects] with its five tests decided beforehand. *)
Definition reset_with (t : float) (volume filter reverb delay flanger : bool)
    (c : LoopChannel) : LoopChannel :=
  let c := when volume
             (fun c => set_gainNode (approach (gainNode c) 0.8 t 0.5) c) c in
  let c := when filter
             (fun c =>
                set_filterNode
                  (mkBiquad lowpass
                     (approach (frequency (filterNode c)) 20000 t 0.5)
                     (Q (filterNode c))) c) c in
  let c := when reverb
             (fun c => set_reverbGain (approach (reverbGain c) 0 t 0.5) c) c in
  let c := when delay
             (fun c => set_delayFeedback (approach (delayFeedback c) 0 t 0.5) c) c in
  let c := when flanger
             (fun c => set_flangerWet (approach (flangerWet c) 0 t 0.5) c) c in
  c.

(** A voice goes where its generator is wired to: the distorted voice to
    [masterOutput], every other to the input of the effect chain. *)
Definition voice_routed (v : Voice) : Prop :=
  match generator v with
  | Distorted808 _ => output v = MasterOutput
  | _ => output v = InputGain
  end.

End Writes.

(** A right hand whose x axis drives the volume. *)
Definition volume_on_x : LoopChannel := setMapping 0 AxisX VOLUME newLoopChannel.

(** ** Further vocabulary of the sequencer *)

(** The channel is armed: while it plays, exactly one wake is pending, due
    25 ms after it was set and named by [timerID]; while it does not play,
    none is. *)
Definition armed (c : LoopChannel) : Prop :=
  if isPlaying c
  then exists id, pendingWakes c = [mkTimeout (S id) 25%float]
                  /\ timerID c = Some (S id)
  else pendingWakes c = [].

(** The active loop is none or an entry of the catalog. *)
Definition loop_from_catalog (c : LoopChannel) : Prop :=
  match currentLoop c with
  | None => True
  | Some l => In l AVAILABLE_LOOPS
  end.

(** ** The engine as a state machine *)

(** What the application does to the engine: the methods of [SynthEngine],
    the methods it calls on one of the two channels directly
    ([leftChannel.setLoop], [setMapping], [setPresence]), and the timeouts of
    the channels firing. *)
Inductive EngineCall : Type :=
  | EngineStart (now : float)
  | EngineStop
  | EngineSetBpm (bpm : float)
  | EngineUpdateHand (t : float) (hand : Hand)
      (x y spread z rotation : float) (isRotActive : bool)
  | EngineUpdateMapping (t : float) (hand : Hand) (axis : Axis)
      (effect : EffectType)
  | EngineSetDogMode (t : float) (active : bool)
  | ChannelSetLoop (hand : Hand) (loopId : option string) (now : float)
  | ChannelSetMapping (t : float) (hand : Hand) (axis : Axis)
      (effect : EffectType)
  | ChannelSetPresence (t : float) (hand : Hand) (isPresent : bool)
  | ChannelTimerFires (hand : Hand) (id : nat) (now : float).

Section EngineMachine.

Context {impl : Implementation}.

Definition on_channel (hand : Hand)
    (f : LoopChannel -> option LoopChannel) (e : SynthEngine)
    : option SynthEngine :=
  option_map (fun c => Engine.set_channel hand c e) (f (Engine.channel hand e)).

Definition engine_perform (fuel : nat) (random : Z -> float)
    (call : EngineCall) (e : SynthEngine) : option SynthEngine :=
  match call with
  | EngineStart now => Engine.start fuel now random e
  | EngineStop => Some (Engine.stop e)
  | EngineSetBpm bpm => Some (Engine.setBpm bpm e)
  | EngineUpdateHand t hand x y spread z rotation isRotActive =>
    Some (state (Engine.updateHand t hand x y spread z rotation isRotActive e))
  | EngineUpdateMapping t hand axis effect =>
    Some (Engine.updateMapping t hand axis effect e)
  | EngineSetDogMode t active => Some (Engine.setDogMode t active e)
  | ChannelSetLoop hand loopId now =>
    on_channel hand (setLoop fuel now random loopId) e
  | ChannelSetMapping t hand axis effect =>
    on_channel hand (fun c => Some (setMapping t axis effect c)) e
  | ChannelSetPresence t hand isPresent =>
    on_channel hand (fun c => Some (setPresence t isPresent c)) e
  | ChannelTimerFires hand id now =>
    on_channel hand (wake fuel now random id) e
  end.

Inductive engine_reachable : SynthEngine -> Prop :=
  | engine_reachable_new : engine_reachable Engine.new
  | engine_reachable_step : forall fuel random call e e',
      engine_reachable e -> engine_perform fuel random call e = Some e' ->
      engine_reachable e'.

(** The two channels and the engine agree on the override flag and on the
    tempo. *)
Definition engine_consistent (e : SynthEngine) : Prop :=
  isDogMode (leftChannel e) = _isDogMode e
  /\ isDogMode (rightChannel e) = _isDogMode e
  /\ bpm (leftChannel e) = bpm (rightChannel e).

End EngineMachine.

(** ** [App.tsx]: the handlers of the deck *)

Definition set_activeLoopId (v : option string) (h : HandConfig) : HandConfig :=
  mkHandConfig v (hand_xEffect h) (hand_yEffect h) (hand_zEffect h)
    (hand_spreadEffect h) (isRotationActive h) (xValue h) (yValue h)
    (zValue h) (spreadValue h) (rotationValue h).

Definition set_handEffect (axis : Axis) (effect : EffectType) (h : HandConfig)
    : HandConfig :=
  mkHandConfig (activeLoopId h)
    (match axis with AxisX => effect | _ => hand_xEffect h end)
    (match axis with AxisY => effect | _ => hand_yEffect h end)
    (match axis with AxisZ => effect | _ => hand_zEffect h end)
    (match axis with AxisSpread => effect | _ => hand_spreadEffect h end)
    (isRotationActive h) (xValue h) (yValue h) (zValue h) (spreadValue h)
    (rotationValue h).

Definition set_isRotationActive (v : bool) (h : HandConfig) : HandConfig :=
  mkHandConfig (activeLoopId h) (hand_xEffect h) (hand_yEffect h)
    (hand_zEffect h) (hand_spreadEffect h) v (xValue h) (yValue h)
    (zValue h) (spreadValue h) (rotationValue h).

(** [setAppState(prev => ({...prev, [handKey]: f(prev[handKey])}))] *)
Definition set_handConfig (hand : Hand) (f : HandConfig -> HandConfig)
    (a : App) : App :=
  match hand with
  | Left => mkApp (synthRef a) (app_bpm a) (f (leftHand a)) (rightHand a)
  | Right => mkApp (synthRef a) (app_bpm a) (leftHand a) (f (rightHand a))
  end.

Definition set_synthRef (v : option SynthEngine) (a : App) : App :=
  mkApp v (app_bpm a) (leftHand a) (rightHand a).

Module Handlers.

Definition EFFECT_OPTIONS : list EffectType :=
  [NONE; VOLUME; LPF; HPF; REVERB; DELAY; FLANGER].

(** [currentLoop === loopId] for [currentLoop : string | null]. *)
Definition same_loop (currentLoop : option string) (loopId : string) : bool :=
  match currentLoop with
  | Some s => (s =? loopId)%string
  | None => false
  end.

Definition handleSelectLoop (fuel : nat) (now : float) (random : Z -> float)
    (hand : Hand) (loopId : string) (a : App) : option App :=
  match synthRef a with
  | None => Some a
  | Some e =>
    let currentLoop := activeLoopId (handConfig hand a) in
    let newLoopId := if same_loop currentLoop loopId then None else Some loopId in
    match setLoop fuel now random newLoopId (Engine.channel hand e) with
    | None => None
    | Some c =>
      Some (set_handConfig hand (set_activeLoopId newLoopId)
              (set_synthRef (Some (Engine.set_channel hand c e)) a))
    end
  end.

Definition handleUpdateMapping (t : float) (hand : Hand) (axis : Axis)
    (effect : EffectType) (a : App) : App :=
  match synthRef a with
  | None => a
  | Some e =>
    set_handConfig hand (set_handEffect axis effect)
      (set_synthRef (Some (Engine.updateMapping t hand axis effect e)) a)
  end.

Definition handleToggleRotation (hand : Hand) (a : App) : App :=
  set_handConfig hand
    (fun h => set_isRotationActive (negb (isRotationActive h)) h) a.

(** [handleRandomize(hand)].  [randomLoop] and [x], [y], [z], [spread] are
    the entries that the five draws of [Math.random] select from
    [AVAILABLE_LOOPS] and from [EFFECT_OPTIONS]. *)
Definition handleRandomize (fuel : nat) (now : float) (random : Z -> float)
    (hand : Hand) (randomLoop : LoopDefinition) (x y z spread : EffectType)
    (a : App) : option App :=
  let synth :=
    match synthRef a with
    | None => Some None
    | Some e =>
      match setLoop fuel now random (Some (loop_id randomLoop))
              (Engine.channel hand e) with
      | None => None
      | Some c =>
        let e := Engine.set_channel hand c e in
        let e := Engine.updateMapping now hand AxisX x e in
        let e := Engine.updateMapping now hand AxisY y e in
        let e := Engine.updateMapping now hand AxisZ z e in
        let e := Engine.updateMapping now hand AxisSpread spread e in
        Some (Some e)
      end
    end in
  option_map
    (fun synth =>
       set_handConfig hand
         (fun h =>
            mkHandConfig (Some (loop_id randomLoop)) x y z spread
              (isRotationActive h) (xValue h) (yValue h) (zValue h)
              (spreadValue h) (rotationValue h))
         (set_synthRef synth a))
    synth.

End Handlers.

(** ** [services/easterEggs.ts] and the frame loop of [predictWebcam] *)

Record Category : Type := mkCategory {
  categoryName : string;
  score : float
}.

Record Detection : Type := mkDetection {
  categories : list Category
}.

(** [types.ts]: [DJState] *)
Inductive DJState : Type := IDLE | CONNECTING | LIVE | ERROR.

Module Tracking.

Local Open Scope float_scope.

Definition DOG_DETECTION_INTERVAL_FRAMES : Z := 30.
Definition DOG_MODE_COOLDOWN_MS : Z := 3000.

(** [checkForDog(result)]; [None] is a result without [detections]. *)
Definition checkForDog (detections : option (list Detection)) : bool :=
  match detections with
  | None => false
  | Some ds =>
    existsb
      (fun detection =>
         existsb
           (fun cat => (categoryName cat =? "dog")%string && (0.4 <? score cat))
           (categories detection))
      ds
  end.

(** The component: its state ([status] is [appState.status]), the refs of
    the frame loop (the frame counter and the expiry of the override mode in
    milliseconds of [Date.now()]), the [isDogMode] state shown by the
    interface, and the two closures that are waiting.  [starting] is the
    [appState] of the render whose [startCamera] was called.
    [predictWebcam] re-schedules itself by name, so the callback on the
    animation frame queue is always the one that [startCamera] called:
    [running] is the [appState] that this callback closes over, [None]
    while no callback is scheduled. *)
Record Tracker : Type := mkTracker {
  app : App;
  status : DJState;
  starting : option App;
  running : option App;
  frameCount : Z;
  dogModeExpiry : Z;
  isDogModeShown : bool
}.

(** What one video frame delivers: the object detections (read on detection
    frames only) and the detected hands, each with its label and its
    landmarks. *)
Record VideoFrame : Type := mkVideoFrame {
  detections : option (list Detection);
  hands : list (Hand * list Landmark)
}.

Definition hasLabel (label : Hand) (h : Hand * list Landmark) : bool :=
  match label, fst h with
  | Left, Left | Right, Right => true
  | _, _ => false
  end.

Section FrameLoop.

Context {impl : Implementation}.

Variable Math_atan2 : float -> float -> float.

(** [results.handedness.forEach(...)]: the hands in order. *)
Fixpoint trackHands (appState : App) (t : float)
    (hs : list (Hand * list Landmark)) (a : App) : option App :=
  match hs with
  | [] => Some a
  | (label, landmarks) :: hs' =>
    match AppLogic.trackHand Math_atan2 appState t label landmarks a with
    | None => None
    | Some a' => trackHands appState t hs' a'
    end
  end.

(** The body of [predictWebcam] once the models, the video and the canvas
    are ready.  [appState] is the state that the callback closes over, [t]
    is [ctx.currentTime]; [nowDetect] and [nowCheck] are the two readings of
    [Date.now()], the first taken when a dog is detected, the second when
    the mode is decided. *)
Definition predictWebcam (appState : App) (t : float) (nowDetect nowCheck : Z)
    (frame : VideoFrame) (s : Tracker) : option Tracker :=
  let expiry :=
    if (Z.rem (frameCount s) DOG_DETECTION_INTERVAL_FRAMES =? 0)%Z
    then if checkForDog (detections frame)
         then (nowDetect + DOG_MODE_COOLDOWN_MS)%Z
         else dogModeExpiry s
    else dogModeExpiry s in
  let count := (frameCount s + 1)%Z in
  let isDogActive := (nowCheck <? expiry)%Z in
  let a :=
    set_synthRef (option_map (Engine.setDogMode t isDogActive) (synthRef (app s)))
      (app s) in
  if isDogActive
  then
    Some (mkTracker a (status s) (starting s) (running s) count expiry
            isDogActive)
  else
    match trackHands appState t (hands frame) a with
    | None => None
    | Some a =>
      let leftPresent := existsb (hasLabel Left) (hands frame) in
      let rightPresent := existsb (hasLabel Right) (hands frame) in
      let a :=
        set_synthRef
          (option_map
             (fun e =>
                mkSynthEngine (setPresence t leftPresent (leftChannel e))
                  (setPresence t rightPresent (rightChannel e)) (_isDogMode e))
             (synthRef a)) a in
      Some (mkTracker a (status s) (starting s) (running s) count expiry
              isDogActive)
    end.

(** Frames in a row, each with its three clock readings. *)
Fixpoint run (appState : App) (frames : list (float * Z * Z * VideoFrame))
    (s : Tracker) : option Tracker :=
  match frames with
  | [] => Some s
  | (t, nowDetect, nowCheck, frame) :: rest =>
    match predictWebcam appState t nowDetect nowCheck frame s with
    | None => None
    | Some s' => run appState rest s'
    end
  end.

End FrameLoop.

End Tracking.

(** ** The application as a state machine *)

Section Application.

Context {impl : Implementation}.

(** The interface mirrors the engine: for each hand, the mapping table, the
    active loop and the tempo that the application shows are those of the
    hand's channel. *)
Definition mirrors (a : App) : Prop :=
  forall e,
    synthRef a = Some e ->
    forall hand,
      let c := Engine.channel hand e in
      let h := handConfig hand a in
      mapped c =
        [hand_xEffect h; hand_yEffect h; hand_zEffect h; hand_spreadEffect h]
      /\ option_map loop_id (currentLoop c) = activeLoopId h
      /\ bpm c = app_bpm a.

(** What happens to the mounted application: the start button is clicked
    ([startCamera] up to its first [await]); the camera starts
    ([startCamera] from [setAppState] with LIVE on, the first call of
    [predictWebcam] being the first frame) or fails to start (the [catch]
    block); a loop button of the deck is clicked, a mapping is chosen, a
    rotation filter is toggled, a hand is randomized, the tempo field is
    edited; the frame loop runs on a video frame; a timeout of a channel
    fires. *)
Inductive AppEvent : Type :=
  | StartClicked
  | CameraStarts (now : float)
  | CameraFails
  | LoopClicked (now : float) (hand : Hand) (l : LoopDefinition)
  | MappingChosen (t : float) (hand : Hand) (axis : Axis) (effect : EffectType)
  | RotationToggled (hand : Hand)
  | Randomized (now : float) (hand : Hand) (randomLoop : LoopDefinition)
      (x y z spread : EffectType)
  | TempoEdited (parsed : float)
  | FrameArrives (t : float) (nowDetect nowCheck : Z)
      (frame : Tracking.VideoFrame)
  | WakeFires (hand : Hand) (id : nat) (now : float).

Definition set_app (a : App) (s : Tracking.Tracker) : Tracking.Tracker :=
  Tracking.mkTracker a (Tracking.status s) (Tracking.starting s)
    (Tracking.running s) (Tracking.frameCount s) (Tracking.dogModeExpiry s)
    (Tracking.isDogModeShown s).

Definition app_perform (Math_atan2 : float -> float -> float) (fuel : nat)
    (random : Z -> float) (event : AppEvent) (s : Tracking.Tracker)
    : option Tracking.Tracker :=
  let a := Tracking.app s in
  match event with
  | StartClicked =>
    Some (Tracking.mkTracker a CONNECTING (Some a) (Tracking.running s)
            (Tracking.frameCount s) (Tracking.dogModeExpiry s)
            (Tracking.isDogModeShown s))
  | CameraStarts now =>
    option_map
      (fun synth =>
         Tracking.mkTracker (set_synthRef synth a) LIVE (Tracking.starting s)
           (Tracking.starting s) (Tracking.frameCount s)
           (Tracking.dogModeExpiry s) (Tracking.isDogModeShown s))
      match synthRef a with
      | None => Some None
      | Some e => option_map Some (Engine.start fuel now random e)
      end
  | CameraFails =>
    Some (Tracking.mkTracker a ERROR (Tracking.starting s)
            (Tracking.running s) (Tracking.frameCount s)
            (Tracking.dogModeExpiry s) (Tracking.isDogModeShown s))
  | LoopClicked now hand l =>
    option_map (fun a' => set_app a' s)
      (Handlers.handleSelectLoop fuel now random hand (loop_id l) a)
  | MappingChosen t hand axis effect =>
    Some (set_app (Handlers.handleUpdateMapping t hand axis effect a) s)
  | RotationToggled hand =>
    Some (set_app (Handlers.handleToggleRotation hand a) s)
  | Randomized now hand randomLoop x y z spread =>
    option_map (fun a' => set_app a' s)
      (Handlers.handleRandomize fuel now random hand randomLoop x y z spread a)
  | TempoEdited parsed => Some (set_app (AppLogic.onBpmInput parsed a) s)
  | FrameArrives t nowDetect nowCheck frame =>
    match Tracking.running s with
    | None => Some s
    | Some appState =>
      Tracking.predictWebcam Math_atan2 appState t nowDetect nowCheck frame s
    end
  | WakeFires hand id now =>
    match synthRef a with
    | None => Some s
    | Some e =>
      option_map (fun e' => set_app (set_synthRef (Some e') a) s)
        (on_channel hand (wake fuel now random id) e)
    end
  end.

(** The application once mounted, before the camera is started. *)
Definition initial_tracker : Tracking.Tracker :=
  Tracking.mkTracker initial_app IDLE None None 0 0 false.

(** What can happen when: the interface shows the start button while the
    status is IDLE and the deck while it is LIVE, with the loops of the
    catalog on its buttons; [startCamera] goes on while the status is
    CONNECTING. *)
Definition enabled (event : AppEvent) (s : Tracking.Tracker) : Prop :=
  match event with
  | StartClicked => Tracking.status s = IDLE
  | CameraStarts _ | CameraFails => Tracking.status s = CONNECTING
  | LoopClicked _ _ l => Tracking.status s = LIVE /\ In l AVAILABLE_LOOPS
  | Randomized _ _ randomLoop _ _ _ _ =>
    Tracking.status s = LIVE /\ In randomLoop AVAILABLE_LOOPS
  | MappingChosen _ _ _ _ | RotationToggled _ | TempoEdited _ =>
    Tracking.status s = LIVE
  | FrameArrives _ _ _ _ | WakeFires _ _ _ => True
  end.

Inductive app_reachable (Math_atan2 : float -> float -> float)
    : Tracking.Tracker -> Prop :=
  | app_reachable_mounted : app_reachable Math_atan2 initial_tracker
  | app_reachable_step : forall fuel random event s s',
      app_reachable Math_atan2 s -> enabled event s ->
      app_perform Math_atan2 fuel random event s = Some s' ->
      app_reachable Math_atan2 s'.

(** The state of the interface and the state of the engine fit together. *)
Definition in_step (s : Tracking.Tracker) : Prop :=
  mirrors (Tracking.app s)
  /\ exists e,
       synthRef (Tracking.app s) = Some e
       /\ engine_reachable e
       /\ _isDogMode e = Tracking.isDogModeShown s.

(** Two channels look the same from the interface: same mapping table, same
    active loop, same tempo. *)
Definition keeps_view (c c' : LoopChannel) : Prop :=
  mapped c' = mapped c /\ currentLoop c' = currentLoop c /\ bpm c' = bpm c.

(** The application without the refs of the frame loop. *)
Definition app_ok (a : App) : Prop :=
  mirrors a /\ exists e, synthRef a = Some e /\ engine_reachable e.

(** The interface's view of one hand. *)
Definition shows (hand : Hand) (e : SynthEngine) (a : App) : Prop :=
  let c := Engine.channel hand e in
  let h := handConfig hand a in
  mapped c =
    [hand_xEffect h; hand_yEffect h; hand_zEffect h; hand_spreadEffect h]
  /\ option_map loop_id (currentLoop c) = activeLoopId h
  /\ bpm c = app_bpm a.

(** The rotation filter lets everything pass: a low-pass whose cutoff is, or
    is on its way to, 22 kHz. *)
Definition rotation_bypassed (c : LoopChannel) : Prop :=
  filterType (rotationFilterNode c) = lowpass
  /\ value (frequency (rotationFilterNode c)) = 22000%float
  /\ match automation (frequency (rotationFilterNode c)) with
     | None => True
     | Some a => target a = 22000%float
     end.

(** Both rotation toggles are off. *)
Definition rotation_off (a : App) : Prop :=
  isRotationActive (leftHand a) = false
  /\ isRotationActive (rightHand a) = false.

(** The gate of a channel follows its hand: the last write to the presence
    gain aims at 1 when the hand is in the frame, at 0 when it is not. *)
Definition gate_follows (t : float) (present : bool) (c : LoopChannel) : Prop :=
  automation (presenceGain c)
  = Some (mkSetTarget (if present then 1 else 0)%float t 0.1%float).

(** The gate of a channel is open: the last write to the presence gain aims
    at 1. *)
Definition gate_open (c : LoopChannel) : Prop :=
  exists t, automation (presenceGain c)
            = Some (mkSetTarget 1%float t 0.1%float).

(** Both rotation filters are bypassed. *)
Definition engine_quiet (e : SynthEngine) : Prop :=
  rotation_bypassed (leftChannel e) /\ rotation_bypassed (rightChannel e).

Definition quiet (a : App) : Prop :=
  forall e, synthRef a = Some e -> engine_quiet e.

(** The rotation toggles do not reach the frame loop: while the status is
    not LIVE both toggles are off and no frame callback is scheduled; the
    state that the waiting [startCamera] closes over and the state that the
    running frame callback closes over have both toggles off; and both
    rotation filters are bypassed. *)
Definition toggles_unseen (s : Tracking.Tracker) : Prop :=
  (Tracking.status s <> LIVE ->
   rotation_off (Tracking.app s) /\ Tracking.running s = None)
  /\ (forall appState,
        Tracking.starting s = Some appState -> rotation_off appState)
  /\ (forall appState,
        Tracking.running s = Some appState -> rotation_off appState)
  /\ quiet (Tracking.app s).

(** The four mapping choices of a randomization. *)
Definition chooseMappings (now : float) (hand : Hand)
    (x y z spread : EffectType) (a : App) : App :=
  Handlers.handleUpdateMapping now hand AxisSpread spread
    (Handlers.handleUpdateMapping now hand AxisZ z
       (Handlers.handleUpdateMapping now hand AxisY y
          (Handlers.handleUpdateMapping now hand AxisX x a))).

(** The clock readings of a frame stay below [until], and [until] is not
    later than the cooldown after the frame's detection reading. *)
Definition before (until : Z) (f : float * Z * Z * Tracking.VideoFrame)
    : Prop :=
  match f with
  | (_, nowDetect, nowCheck, _) =>
    (nowCheck < until /\ until <= nowDetect + Tracking.DOG_MODE_COOLDOWN_MS)%Z
  end.

(** In override mode both gates are open. *)
Definition gates_held (e : SynthEngine) : Prop :=
  _isDogMode e = true ->
  gate_open (leftChannel e) /\ gate_open (rightChannel e).

End Application.

(** ** Instances *)

(** The correctly rounded power of a number, for a whole positive
    exponent. *)
Definition power (x : float) (n : positive) : float :=
  match Prim2SF x with
  | S754_finite s m e =>
    let p := Z.pow_pos (Zpos m) n in
    SF2Prim
      (binary_normalize prec emax
         (if s && Z.odd (Zpos n) then (- p)%Z else p) (e * Zpos n) false)
  | S754_zero s => SF2Prim (S754_zero (s && Z.odd (Zpos n)))
  | S754_infinity s => SF2Prim (S754_infinity (s && Z.odd (Zpos n)))
  | S754_nan => nan
  end.

(** The whole positive number that a float is, if it is one. *)
Definition whole (y : float) : option positive :=
  match Prim2SF y with
  | S754_finite false m e =>
    if (0 <=? e)%Z then Some (Pos.shiftl m (Z.to_N e))
    else if (Z.land (Zpos m) (Z.ones (- e)) =? 0)%Z
         then match Z.shiftr (Zpos m) (- e) with
              | Zpos p => Some p
              | _ => None
              end
         else None
  | _ => None
  end.

(** An implementation for the instances below: its [Math.pow] is correctly
    rounded at the whole positive exponents, of which the engine uses 2 and
    3; no instance calls it at another exponent. *)
Definition correctly_rounded : Implementation :=
  {| Math_pow x y := match whole y with Some n => power x n | None => nan end |}.

(** [Math.atan2] on the axes, where ECMAScript fixes its result: for a zero
    [y] the result is a zero or pi, with the sign of [y], and for a zero [x]
    and another [y] it is a right angle, with the sign of [y].  No instance
    below calls it off the axes. *)
Definition atan2_on_axes (y x : float) : float :=
  let negative (v : float) :=
    ((v <? 0) || ((v =? 0) && (1 / v <? 0)))%float in
  if is_nan y || is_nan x then nan
  else if (y =? 0)%float then
    if negative x
    then if negative y then (- AppLogic.Math_PI)%float else AppLogic.Math_PI
    else if negative y then (-0)%float else 0%float
  else if (x =? 0)%float then
    if (y <? 0)%float then (- (AppLogic.Math_PI / 2))%float
    else (AppLogic.Math_PI / 2)%float
  else nan.

(** The started house channel after its first wake, at audio time 0.2: the
    kick of step 0 and the hi-hat of step 1 are started. *)
Definition house_after_wake : LoopChannel :=
  Eval vm_compute in
    match wake 2 0.2 (fun _ => 0%float) 1 started_house with
    | Some c => c
    | None => started_house
    end.

(** A channel that was put in override mode, started at audio time 0 and
    woken at 0.05: the override voice of step 0 is started. *)
Definition override_after_wake : LoopChannel :=
  Eval vm_compute in
    match playing_in_dog_mode with
    | Some c =>
      match wake 2 0.05 (fun _ => 0%float) 1 c with
      | Some c' => c'
      | None => c
      end
    | None => newLoopChannel
    end.

(** A channel whose spread axis drives the high-pass, as the right hand's
    does at first. *)
Definition spread_on_highpass : LoopChannel :=
  setMapping 0 AxisSpread HPF newLoopChannel.

(** The application after the start button was clicked, after the camera
    then started at audio time 0, and after the left rotation toggle was
    then clicked. *)
Definition connecting_tracker : Tracking.Tracker :=
  Tracking.mkTracker initial_app CONNECTING (Some initial_app) None 0 0 false.

Definition live_tracker : Tracking.Tracker :=
  Eval vm_compute in
    match app_perform (impl := correctly_rounded) atan2_on_axes 1
            (fun _ => 0%float) (CameraStarts 0) connecting_tracker with
    | Some s => s
    | None => initial_tracker
    end.

Definition toggled_tracker : Tracking.Tracker :=
  Eval vm_compute in
    set_app (Handlers.handleToggleRotation Left (Tracking.app live_tracker))
      live_tracker.

(** A frame with a left hand of two landmarks only, on which the gesture
    mapper throws. *)
Definition broken_frame : Tracking.VideoFrame :=
  Tracking.mkVideoFrame None [(Left, [mkLandmark 0 0; mkLandmark 0 0])].

(** A frame that shows an open right hand and no left hand. *)
Definition right_hand_frame : Tracking.VideoFrame :=
  Tracking.mkVideoFrame None [(Right, open_hand_frame)].

(** The same application after a frame at audio time 0.5 that shows the
    open right hand only. *)
Definition after_right_hand : Tracking.Tracker :=
  Eval vm_compute in
    match Tracking.predictWebcam (impl := correctly_rounded) atan2_on_axes
            initial_app 0.5 1000 1000 right_hand_frame live_tracker with
    | Some s => s
    | None => live_tracker
    end.

(** A frame on which the detector reports a dog. *)
Definition dog_frame : Tracking.VideoFrame :=
  Tracking.mkVideoFrame (Some [mkDetection [mkCategory "dog" 0.9]]) [].

(** The application at its eighth frame, and in override mode until the
    clock reads 5000. *)
Definition eighth_frame : Tracking.Tracker :=
  Tracking.mkTracker initial_app LIVE None (Some initial_app) 7 0 false.

Definition overridden : Tracking.Tracker :=
  Tracking.mkTracker initial_app LIVE None (Some initial_app) 1 5000 true.

(** * Properties *)

(** ** Order facts on binary64 numbers *)

Section FloatOrder.

Local Open Scope float_scope.

Lemma pos_compare_cont_antisym (m1 m2 : positive) :
  PosDef.Pos.compare_cont Eq m2 m1 = CompOpp (PosDef.Pos.compare_cont Eq m1 m2).
Proof. exact (eq_sym (Pos.compare_cont_antisym m1 m2 Eq)). Qed.

Lemma pos_compare_cont_refl (m : positive) :
  PosDef.Pos.compare_cont Eq m m = Eq.
Proof. exact (Pos.compare_refl m). Qed.

Lemma SFcompare_antisym (s1 s2 : spec_float) :
  SFcompare s2 s1 = option_map CompOpp (SFcompare s1 s2).
Proof.
  destruct s1 as [[] | [] | | [] m1 e1], s2 as [[] | [] | | [] m2 e2];
    simpl; try reflexivity;
    rewrite (Z.compare_antisym e1 e2); destruct (e1 ?= e2)%Z;
    simpl; try reflexivity;
    rewrite (pos_compare_cont_antisym m1 m2), ?CompOpp_involutive;
    reflexivity.
Qed.

Lemma SFcompare_refl (s : spec_float) :
  s <> S754_nan -> SFcompare s s = Some Eq.
Proof.
  destruct s as [[] | [] | | [] m e]; simpl; intros H;
    try reflexivity; try congruence;
    rewrite Z.compare_refl, pos_compare_cont_refl; reflexivity.
Qed.

Lemma SFcompare_None (s1 s2 : spec_float) :
  SFcompare s1 s2 = None <-> s1 = S754_nan \/ s2 = S754_nan.
Proof.
  destruct s1 as [[] | [] | | [] m1 e1], s2 as [[] | [] | | [] m2 e2];
    simpl; split; intros H;
    try discriminate; try (destruct H; discriminate); auto.
Qed.

Lemma ltb_fcmp x y :
  (x <? y) = match fcmp x y with Some Lt => true | _ => false end.
Proof. rewrite FloatAxioms.ltb_spec. reflexivity. Qed.

Lemma leb_fcmp x y :
  (x <=? y) = match fcmp x y with Some (Lt | Eq) => true | _ => false end.
Proof. rewrite FloatAxioms.leb_spec. reflexivity. Qed.

Lemma is_nan_spec x : is_nan x = true <-> Prim2SF x = S754_nan.
Proof.
  unfold is_nan. rewrite FloatAxioms.eqb_spec. unfold SFeqb. split.
  - intros H. destruct (Prim2SF x) eqn:E; auto;
      rewrite SFcompare_refl in H by congruence; discriminate.
  - intros ->. reflexivity.
Qed.

Lemma fcmp_antisym x y : fcmp y x = option_map CompOpp (fcmp x y).
Proof. apply SFcompare_antisym. Qed.

Lemma fcmp_nan x y : fcmp x y = None <-> is_nan x = true \/ is_nan y = true.
Proof. unfold fcmp. rewrite SFcompare_None, !is_nan_spec. tauto. Qed.

Lemma fcmp_refl x : is_nan x = false -> fcmp x x = Some Eq.
Proof.
  intros H. apply SFcompare_refl. intros E. apply is_nan_spec in E. congruence.
Qed.

Lemma ltb_irrefl x : (x <? x) = false.
Proof.
  rewrite ltb_fcmp. destruct (is_nan x) eqn:E.
  - assert (H : fcmp x x = None) by (apply fcmp_nan; auto). now rewrite H.
  - now rewrite fcmp_refl.
Qed.

Lemma leb_refl a : is_nan a = false -> (a <=? a) = true.
Proof. intros H. now rewrite leb_fcmp, fcmp_refl. Qed.

Lemma leb_not_nan a b :
  (a <=? b) = true -> is_nan a = false /\ is_nan b = false.
Proof.
  rewrite leb_fcmp. destruct (fcmp a b) eqn:E; [|discriminate]. intros _.
  destruct (is_nan a) eqn:Ha, (is_nan b) eqn:Hb; auto;
    assert (fcmp a b = None) by (apply fcmp_nan; auto); congruence.
Qed.

Lemma leb_not_ltb a b : (a <=? b) = true -> (b <? a) = false.
Proof.
  rewrite leb_fcmp, ltb_fcmp, (fcmp_antisym a b).
  now destruct (fcmp a b) as [[]|].
Qed.

Lemma Math_min_cases a b :
  is_nan a = false -> is_nan b = false ->
  (Math_min a b = a /\ (a <=? b) = true) \/
  (Math_min a b = b /\ (b <=? a) = true).
Proof.
  intros Ha Hb. unfold Math_min. rewrite Ha, Hb. simpl.
  rewrite !ltb_fcmp, !leb_fcmp, (fcmp_antisym a b).
  destruct (fcmp a b) as [[]|] eqn:E; simpl; auto.
  - destruct (get_sign a); auto.
  - apply fcmp_nan in E. destruct E; congruence.
Qed.

Lemma Math_max_cases a b :
  is_nan a = false -> is_nan b = false ->
  (Math_max a b = a /\ (b <=? a) = true) \/
  (Math_max a b = b /\ (a <=? b) = true).
Proof.
  intros Ha Hb. unfold Math_max. rewrite Ha, Hb. simpl.
  rewrite !ltb_fcmp, !leb_fcmp, (fcmp_antisym a b).
  destruct (fcmp a b) as [[]|] eqn:E; simpl; auto.
  - destruct (get_sign a); auto.
  - apply fcmp_nan in E. destruct E; congruence.
Qed.

(** A clamp between two ordered bounds lands between them, unless its
    argument is NaN, which it returns. *)
Lemma clamp_between lo hi v :
  (lo <=? hi) = true -> is_nan v = false ->
  between lo hi (clamp lo hi v) = true.
Proof.
  intros Hlh Hv. destruct (leb_not_nan _ _ Hlh) as [Hlo Hhi].
  unfold clamp, between.
  destruct (Math_min_cases hi v Hhi Hv) as [[-> H1] | [-> H1]];
  [ destruct (Math_max_cases lo hi Hlo Hhi) as [[-> H2] | [-> H2]]
  | destruct (Math_max_cases lo v Hlo Hv) as [[-> H2] | [-> H2]] ];
  rewrite ?Hlh, ?H1, ?H2, ?leb_refl; auto.
Qed.

Lemma clamp_nan lo hi v : is_nan v = true -> clamp lo hi v = nan.
Proof.
  intros H. unfold clamp, Math_min. rewrite H, orb_true_r.
  unfold Math_max. simpl. now rewrite orb_true_r.
Qed.

Lemma between_nan lo hi : between lo hi nan = false.
Proof.
  unfold between. rewrite leb_fcmp.
  assert (H : fcmp lo nan = None) by (apply fcmp_nan; auto).
  now rewrite H.
Qed.

Lemma clamp_range lo hi v :
  (lo <=? hi) = true ->
  between lo hi (clamp lo hi v) = negb (is_nan v).
Proof.
  intros H. destruct (is_nan v) eqn:E; simpl.
  - rewrite clamp_nan by assumption. apply between_nan.
  - now apply clamp_between.
Qed.

End FloatOrder.
(** ** Rounding: what [+] and [*] return *)

Section FloatRounding.

Local Open Scope Z_scope.

Lemma digits2_bounds p :
  2 ^ (Zpos (digits2_pos p) - 1) <= Zpos p < 2 ^ Zpos (digits2_pos p).
Proof.
  induction p as [p IH | p IH |]; cbn [digits2_pos].
  - rewrite Pos2Z.inj_succ, Z.pow_succ_r by lia.
    replace (Z.succ (Zpos (digits2_pos p)) - 1) with (Z.succ (Zpos (digits2_pos p) - 1)) by lia.
    rewrite Z.pow_succ_r by lia. lia.
  - rewrite Pos2Z.inj_succ, Z.pow_succ_r by lia.
    replace (Z.succ (Zpos (digits2_pos p)) - 1) with (Z.succ (Zpos (digits2_pos p) - 1)) by lia.
    rewrite Z.pow_succ_r by lia. lia.
  - cbn. lia.
Qed.

(** A number below [2 ^ k] has at most [k] digits. *)
Lemma digits2_le p k : Zpos p < 2 ^ k -> Zpos (digits2_pos p) <= k.
Proof.
  intros H. destruct (digits2_bounds p) as [Hlo _].
  destruct (Z.le_gt_cases (Zpos (digits2_pos p)) k) as [| Hgt]; [assumption |].
  assert (2 ^ k <= 2 ^ (Zpos (digits2_pos p) - 1))
    by (apply Z.pow_le_mono_r; lia).
  lia.
Qed.

Lemma Zdigits2_le m k : 0 <= k -> 0 <= m < 2 ^ k -> Zdigits2 m <= k.
Proof.
  intros Hk [H0 H]. destruct m as [| p | p]; cbn [Zdigits2]; [lia | | lia].
  now apply digits2_le.
Qed.

Lemma shr_1_m r : 0 <= shr_m r -> shr_m (shr_1 r) = shr_m r / 2.
Proof.
  destruct r as [m r s]. cbn [shr_m]. intros H.
  destruct m as [| [p | p |] | p]; cbn [shr_1 shr_m].
  - reflexivity.
  - apply Z.div_unique with (r := 1); lia.
  - apply Z.div_unique with (r := 0); lia.
  - reflexivity.
  - lia.
Qed.

Lemma iter_shr_1_m p : forall r,
  0 <= shr_m r -> shr_m (SpecFloat.iter_pos shr_1 p r) = shr_m r / 2 ^ Zpos p.
Proof.
  induction p as [p IH | p IH |]; intros r H; cbn [SpecFloat.iter_pos].
  - assert (H1 : 0 <= shr_m (shr_1 r))
      by (rewrite shr_1_m by assumption; apply Z.div_pos; lia).
    assert (H2 : 0 <= shr_m (SpecFloat.iter_pos shr_1 p (shr_1 r)))
      by (rewrite IH by assumption; apply Z.div_pos; lia).
    rewrite IH, IH, shr_1_m by assumption.
    rewrite !Z.div_div by lia.
    f_equal. replace (Zpos p~1) with (1 + Zpos p + Zpos p) by lia.
    rewrite !Z.pow_add_r by lia. change (2 ^ 1) with 2. ring.
  - assert (H2 : 0 <= shr_m (SpecFloat.iter_pos shr_1 p r))
      by (rewrite IH by assumption; apply Z.div_pos; lia).
    rewrite IH, IH by assumption.
    rewrite !Z.div_div by lia.
    f_equal. replace (Zpos p~0) with (Zpos p + Zpos p) by lia.
    rewrite !Z.pow_add_r by lia. ring.
  - rewrite shr_1_m by assumption. reflexivity.
Qed.

Lemma shr_record_of_loc_m m l : shr_m (shr_record_of_loc m l) = m.
Proof. destruct l as [| []]; reflexivity. Qed.

(** [shr_fexp] brings a mantissa to the exponent that its size asks for,
    dropping the digits below it. *)
Lemma shr_fexp_spec m e l :
  0 <= m ->
  let e' := Z.max e (fexp prec emax (Zdigits2 m + e)) in
  shr_m (fst (shr_fexp prec emax m e l)) = m / 2 ^ (e' - e)
  /\ snd (shr_fexp prec emax m e l) = e'.
Proof.
  intros Hm e'. unfold shr_fexp, shr.
  destruct (fexp prec emax (Zdigits2 m + e) - e) as [| n | n] eqn:E;
    cbn [fst snd].
  - replace (e' - e) with 0 by lia. rewrite shr_record_of_loc_m, Z.div_1_r.
    split; [reflexivity | lia].
  - rewrite iter_shr_1_m by (now rewrite shr_record_of_loc_m).
    rewrite shr_record_of_loc_m.
    replace (e' - e) with (Zpos n) by lia. split; [reflexivity | lia].
  - replace (e' - e) with 0 by lia. rewrite shr_record_of_loc_m, Z.div_1_r.
    split; [reflexivity | lia].
Qed.

Lemma round_nearest_even_bounds m l :
  m <= round_nearest_even m l <= m + 1.
Proof.
  destruct l as [| []]; cbn [round_nearest_even]; try lia.
  destruct (Z.even m); lia.
Qed.

Lemma fexp_ge e : e - 53 <= fexp prec emax e /\ -1074 <= fexp prec emax e.
Proof. unfold fexp, emin, prec, emax. lia. Qed.

Lemma fexp_mono a b : a <= b -> fexp prec emax a <= fexp prec emax b.
Proof. unfold fexp. lia. Qed.


(** Rounding a positive number [mx * 2 ^ ex]: the exponent [e] of the
    result is the one that the size of [mx] asks for, or one above, and its
    mantissa [m] is the exact one up to the digits dropped. *)
Lemma binary_round_aux_spec s mx ex lx :
  0 < mx ->
  let e' := Z.max ex (fexp prec emax (Zdigits2 mx + ex)) in
  exists m e,
    binary_round_aux prec emax s mx ex lx = rounded s m e
    /\ 0 <= m
    /\ e' <= e <= e' + 1
    /\ mx - 2 ^ (e' - ex) - 2 ^ (e - ex) < m * 2 ^ (e - ex)
    /\ m * 2 ^ (e - ex) <= mx + 2 ^ (e' - ex).
Proof.
  intros Hmx e'. unfold binary_round_aux.
  destruct (shr_fexp_spec mx ex lx (Z.lt_le_incl _ _ Hmx)) as [Hm1 He1].
  fold e' in Hm1, He1.
  destruct (shr_fexp prec emax mx ex lx) as [mrs1 e1]. cbn [fst snd] in *.
  subst e1.
  set (mr := round_nearest_even (shr_m mrs1) (loc_of_shr_record mrs1)).
  assert (Hn : 0 <= e' - ex) by lia.
  assert (Hp : 0 < 2 ^ (e' - ex)) by (apply Z.pow_pos_nonneg; lia).
  assert (Hm1' : 0 <= shr_m mrs1) by (rewrite Hm1; apply Z.div_pos; lia).
  assert (Hr : shr_m mrs1 <= mr <= shr_m mrs1 + 1)
    by apply round_nearest_even_bounds.
  destruct (shr_fexp_spec mr e' loc_Exact ltac:(lia)) as [Hm2 He2].
  destruct (shr_fexp prec emax mr e' loc_Exact) as [mrs2 e2].
  cbn [fst snd] in *. rewrite <- He2 in Hm2.
  assert (Hd : Zdigits2 mx + ex - 53 <= e')
    by (pose proof (fexp_ge (Zdigits2 mx + ex)); lia).
  assert (Hsmall : shr_m mrs1 < 2 ^ 53).
  { destruct mx as [| p | p]; try lia. cbn [Zdigits2] in Hd.
    destruct (digits2_bounds p) as [_ Hhi].
    assert (2 ^ Zpos (digits2_pos p) <= 2 ^ (53 + (e' - ex)))
      by (apply Z.pow_le_mono_r; lia).
    rewrite Z.pow_add_r in H by lia.
    rewrite Hm1. apply Z.div_lt_upper_bound; lia. }
  assert (Hdr : Zdigits2 mr <= 54).
  { apply Zdigits2_le; [lia |].
    change (2 ^ 54) with (2 * 2 ^ 53). lia. }
  assert (He' : -1074 <= e')
    by (pose proof (fexp_ge (Zdigits2 mx + ex)); lia).
  assert (He2' : e' <= e2 <= e' + 1).
  { rewrite He2. pose proof (fexp_mono (Zdigits2 mr + e') (54 + e') ltac:(lia)).
    unfold fexp, emin, prec, emax in *. lia. }
  assert (Hq : 0 < 2 ^ (e2 - e')) by (apply Z.pow_pos_nonneg; lia).
  exists (shr_m mrs2), e2. split; [reflexivity |].
  split; [rewrite Hm2; apply Z.div_pos; lia |].
  split; [exact He2' |].
  replace (e2 - ex) with ((e2 - e') + (e' - ex)) by lia.
  rewrite Z.pow_add_r by lia.
  pose proof (Z.mod_pos_bound mx (2 ^ (e' - ex)) Hp) as Hmod1.
  pose proof (Z.div_mod mx (2 ^ (e' - ex)) ltac:(lia)) as Hdm1.
  pose proof (Z.mod_pos_bound mr (2 ^ (e2 - e')) Hq) as Hmod2.
  pose proof (Z.div_mod mr (2 ^ (e2 - e')) ltac:(lia)) as Hdm2.
  rewrite <- Hm1 in Hdm1. rewrite <- Hm2 in Hdm2.
  split; nia.
Qed.

Lemma iter_xO m d : Zpos (Pos.iter xO m d) = Zpos m * 2 ^ Zpos d.
Proof.
  induction d as [| d IH] using Pos.peano_ind.
  - cbn [Pos.iter]. change (2 ^ 1) with 2. lia.
  - rewrite Pos.iter_succ, Pos2Z.inj_xO, IH, Pos2Z.inj_succ, Z.pow_succ_r
      by lia. ring.
Qed.

Lemma digits2_iter_xO m d :
  Zpos (digits2_pos (Pos.iter xO m d)) = Zpos (digits2_pos m) + Zpos d.
Proof.
  induction d as [| d IH] using Pos.peano_ind.
  - cbn [Pos.iter digits2_pos]. lia.
  - rewrite Pos.iter_succ. cbn [digits2_pos]. lia.
Qed.

(** [shl_align] writes a number with a smaller exponent. *)
Lemma shl_align_spec m e e' :
  let r := shl_align m e e' in
  snd r = Z.min e e'
  /\ Zpos (fst r) = Zpos m * 2 ^ (e - snd r)
  /\ Zpos (digits2_pos (fst r)) + snd r = Zpos (digits2_pos m) + e.
Proof.
  unfold shl_align. destruct (e' - e) as [| d | d] eqn:E; cbn [fst snd].
  - rewrite Z.sub_diag. cbn. lia.
  - rewrite Z.sub_diag. cbn. lia.
  - rewrite iter_xO, digits2_iter_xO.
    replace (e - e') with (Zpos d) by lia. lia.
Qed.


Lemma scaled_shift m e e' :
  -1074 <= e' <= e -> scaled (m * 2 ^ (e - e')) e' = scaled m e.
Proof.
  intros H. unfold scaled. rewrite <- Z.mul_assoc, <- Z.pow_add_r by lia.
  do 2 f_equal. lia.
Qed.

(** [binary_round] of a positive number [m * 2 ^ e]. *)
Lemma binary_round_spec s m e :
  -1074 <= e ->
  let e' := fexp prec emax (Zpos (digits2_pos m) + e) in
  exists m' e'',
    binary_round prec emax s m e = rounded s m' e''
    /\ 0 <= m'
    /\ e' <= e'' <= e' + 1
    /\ scaled (Zpos m) e - scaled 1 e' - scaled 1 e'' < scaled m' e''
    /\ scaled m' e'' <= scaled (Zpos m) e + scaled 1 e'.
Proof.
  intros He e'. unfold binary_round. fold e'.
  destruct (shl_align_spec m e e') as (Hz & Hm & Hd).
  destruct (shl_align m e e') as [mz ez]. cbn [fst snd] in *.
  assert (He' : -1074 <= e') by apply fexp_ge.
  destruct (binary_round_aux_spec s (Zpos mz) ez loc_Exact ltac:(lia))
    as (m' & e'' & Hr & Hm' & Hex & Hlo & Hhi).
  cbn [Zdigits2] in Hex, Hlo, Hhi. rewrite Hd in Hex, Hlo, Hhi.
  fold e' in Hex, Hlo, Hhi.
  replace (Z.max ez e') with e' in Hex, Hlo, Hhi by lia.
  exists m', e''. split; [exact Hr |]. split; [exact Hm' |].
  split; [exact Hex |].
  assert (Hs : forall a b, ez <= b -> scaled (a * 2 ^ (b - ez)) ez = scaled a b)
    by (intros; apply scaled_shift; lia).
  rewrite <- (Hs (Zpos m) e), <- (Hs 1 e'), <- (Hs 1 e''), <- (Hs m' e'')
    by lia.
  rewrite <- Hm, !Z.mul_1_l. unfold scaled.
  assert (0 < 2 ^ (ez + 1074)) by (apply Z.pow_pos_nonneg; lia).
  split; nia.
Qed.


Lemma valid_finite x s m e :
  Prim2SF x = S754_finite s m e ->
  -1074 <= e <= 971
  /\ Zpos (digits2_pos m) <= 53
  /\ (-1074 < e -> Zpos (digits2_pos m) = 53).
Proof.
  intros H. pose proof (Prim2SF_valid x) as Hv. rewrite H in Hv.
  cbn [valid_binary] in Hv. unfold bounded, canonical_mantissa in Hv.
  apply andb_true_iff in Hv as [Hc Hb].
  apply Z.eqb_eq in Hc. apply Z.leb_le in Hb.
  unfold fexp, emin, prec, emax in *. lia.
Qed.


Lemma valid_mantissa x s m e :
  Prim2SF x = S754_finite s m e -> Zpos m < 2 ^ 53.
Proof.
  intros H. destruct (valid_finite x s m e H) as (_ & Hd & _).
  destruct (digits2_bounds m) as [_ Hhi].
  assert (2 ^ Zpos (digits2_pos m) <= 2 ^ 53)
    by (apply Z.pow_le_mono_r; lia).
  lia.
Qed.




Lemma scaled_1 e : scaled 1 e = 2 ^ (e + 1074).
Proof. unfold scaled. lia. Qed.

(** A number below [2 ^ (k + e)] when its mantissa is below [2 ^ k]. *)
Lemma scaled_lt m e k :
  -1074 <= e -> 0 <= k -> 0 <= m < 2 ^ k -> scaled m e < 2 ^ (k + e + 1074).
Proof.
  intros He Hk Hm. unfold scaled.
  replace (k + e + 1074) with (k + (e + 1074)) by lia.
  rewrite (Z.pow_add_r 2 k (e + 1074)) by lia.
  assert (0 < 2 ^ (e + 1074)) by (apply Z.pow_pos_nonneg; lia). nia.
Qed.

(** The sum of two positive numbers. *)
Lemma SFadd_pos mx ex my ey :
  -1074 <= ex -> -1074 <= ey ->
  let exact := scaled (Zpos mx) ex + scaled (Zpos my) ey in
  exists m e,
    SFadd prec emax (S754_finite false mx ex) (S754_finite false my ey)
    = rounded false m e
    /\ 0 <= m
    /\ forall K,
         exact < 2 ^ (K + 1074) ->
         e <= fexp prec emax K + 1
         /\ exact - 3 * scaled 1 (fexp prec emax K) < scaled m e.
Proof.
  intros Hex Hey exact. unfold SFadd. cbn [cond_Zopp].
  set (ez := Z.min ex ey).
  destruct (shl_align_spec mx ex ez) as (Hxe & Hxm & _).
  destruct (shl_align_spec my ey ez) as (Hye & Hym & _).
  destruct (shl_align mx ex ez) as [a ea].
  destruct (shl_align my ey ez) as [b eb]. cbn [fst snd] in *.
  assert (ea = ez) by lia. assert (eb = ez) by lia. subst ea eb.
  change (Zpos a + Zpos b) with (Zpos (a + b)). cbn [binary_normalize].
  assert (Hsum : scaled (Zpos (a + b)) ez = exact).
  { unfold exact. rewrite Pos2Z.inj_add, Hxm, Hym. unfold scaled.
    rewrite Z.mul_add_distr_r, <- !Z.mul_assoc, <- !Z.pow_add_r by lia.
    do 2 f_equal; f_equal; lia. }
  destruct (binary_round_spec false (a + b) ez ltac:(lia))
    as (m & e & Hr & Hm & He & Hlo & _).
  exists m, e. split; [exact Hr |]. split; [exact Hm |].
  intros K HK. rewrite Hsum in Hlo.
  set (d := Zpos (digits2_pos (a + b))) in *.
  assert (Hd : d + ez <= K).
  { destruct (digits2_bounds (a + b)) as [Hlow _]. fold d in Hlow.
    assert (Hd0 : 0 < d) by (unfold d; lia).
    assert (H2 : 2 ^ (d - 1 + (ez + 1074)) <= exact).
    { rewrite <- Hsum. unfold scaled. rewrite Z.pow_add_r by lia.
      apply Z.mul_le_mono_nonneg_r; [apply Z.pow_nonneg; lia | exact Hlow]. }
    destruct (Z.le_gt_cases (d + ez) K) as [| Hgt]; [assumption |].
    assert (2 ^ (K + 1074) <= 2 ^ (d - 1 + (ez + 1074)))
      by (apply Z.pow_le_mono_r; lia).
    lia. }
  pose proof (fexp_mono _ _ Hd) as Hf.
  pose proof (fexp_ge (d + ez)) as [_ Hf0].
  split; [lia |].
  rewrite !scaled_1 in *.
  assert (2 ^ (fexp prec emax (d + ez) + 1074) <= 2 ^ (fexp prec emax K + 1074))
    by (apply Z.pow_le_mono_r; lia).
  assert (2 ^ (e + 1074) <= 2 * 2 ^ (fexp prec emax K + 1074)).
  { rewrite <- Z.pow_succ_r by lia. apply Z.pow_le_mono_r; lia. }
  lia.
Qed.

(** The product of two numbers: its exponent. *)
Lemma SFmul_finite sx mx ex sy my ey :
  exists m e,
    SFmul prec emax (S754_finite sx mx ex) (S754_finite sy my ey)
    = rounded (xorb sx sy) m e
    /\ 0 <= m
    /\ e <= Z.max (ex + ey)
              (fexp prec emax
                 (Zpos (digits2_pos mx) + Zpos (digits2_pos my) + (ex + ey)))
            + 1.
Proof.
  cbn [SFmul].
  destruct (binary_round_aux_spec (xorb sx sy) (Zpos (mx * my)) (ex + ey)
              loc_Exact ltac:(lia)) as (m & e & Hr & Hm & He & _).
  exists m, e. split; [exact Hr |]. split; [exact Hm |].
  assert (Hd : Zdigits2 (Zpos (mx * my))
               <= Zpos (digits2_pos mx) + Zpos (digits2_pos my)).
  { cbn [Zdigits2]. apply digits2_le. rewrite Z.pow_add_r by lia.
    destruct (digits2_bounds mx) as [_ Hx].
    destruct (digits2_bounds my) as [_ Hy].
    rewrite Pos2Z.inj_mul. nia. }
  pose proof (fexp_mono (Zdigits2 (Zpos (mx * my)) + (ex + ey))
                (Zpos (digits2_pos mx) + Zpos (digits2_pos my) + (ex + ey))
                ltac:(lia)).
  lia.
Qed.





Lemma SFleb_exponent x m e m' e' :
  SFleb x (S754_finite false m' e') = true ->
  x = S754_finite false m e -> e <= e'.
Proof.
  intros H ->. unfold SFleb in H. cbn [SFcompare] in H.
  destruct (Z.compare_spec e e'); [lia | lia | discriminate].
Qed.




End FloatRounding.

(** ** Which targets [setTargetAtTime] accepts *)

Section Acceptance.

Local Open Scope float_scope.

(** A zero or a finite number with an exponent below 75 is accepted. *)
Lemma accepts_rounded x s m e :
  Prim2SF x = rounded s m e -> (0 <= m)%Z -> (e < 75)%Z -> accepts x = true.
Proof.
  intros H Hm He. unfold accepts. rewrite ltb_spec, abs_spec, H.
  replace (Prim2SF 0x1.ffffffp+127)
    with (S754_finite false 9007198986305536 75) by reflexivity.
  generalize 9007198986305536%positive. intros limit.
  destruct m as [| p | p]; [reflexivity | | lia].
  unfold rounded.
  replace (e <=? emax - prec)%Z with true
    by (symmetry; apply Z.leb_le; unfold emax, prec; lia).
  unfold SFltb. cbn [SFabs SFcompare].
  destruct (Z.compare_spec e 75); [lia | reflexivity | lia].
Qed.

Lemma accepts_zero x s : Prim2SF x = S754_zero s -> accepts x = true.
Proof. intros H. apply (accepts_rounded x s 0 0); [exact H | lia | lia]. Qed.

Lemma accepts_finite x s m e :
  Prim2SF x = S754_finite s m e -> (e < 75)%Z -> accepts x = true.
Proof.
  intros H He. apply (accepts_rounded x s (Zpos m) e); [| lia | exact He].
  rewrite H. unfold rounded.
  replace (e <=? emax - prec)%Z with true
    by (symmetry; apply Z.leb_le; unfold emax, prec; lia).
  reflexivity.
Qed.

(** A number of the unit interval is a zero or a positive number with an
    exponent of at most -52. *)
Lemma unit_interval v :
  between 0 1 v = true ->
  (exists s, Prim2SF v = S754_zero s)
  \/ (exists m e, Prim2SF v = S754_finite false m e /\ (e <= -52)%Z).
Proof.
  unfold between. intros H. apply andb_true_iff in H as [H0 H1].
  rewrite leb_spec in H0, H1.
  replace (Prim2SF 0) with (S754_zero false) in H0 by reflexivity.
  replace (Prim2SF 1) with (S754_finite false 4503599627370496 (-52)) in H1
    by reflexivity.
  destruct (Prim2SF v) as [s | s | | s m e] eqn:E.
  - left. now exists s.
  - destruct s; discriminate.
  - discriminate.
  - destruct s; [discriminate |]. right. exists m, e. split; [reflexivity |].
    exact (SFleb_exponent _ m e _ _ H1 eq_refl).
Qed.

Lemma accepts_unit v : between 0 1 v = true -> accepts v = true.
Proof.
  intros H. destruct (unit_interval v H) as [[s E] | (m & e & E & He)].
  - exact (accepts_zero v s E).
  - apply (accepts_finite v false m e E). lia.
Qed.

(** The product of a number of the unit interval and a positive constant
    is a zero or a positive number whose exponent is at most two above the
    constant's. *)
Lemma unit_product v c mc ec :
  between 0 1 v = true -> Prim2SF c = S754_finite false mc ec ->
  (ec <= 900)%Z ->
  (exists s, Prim2SF (v * c) = S754_zero s)
  \/ (exists m e,
        Prim2SF (v * c) = S754_finite false m e /\ (e <= ec + 2)%Z).
Proof.
  intros Hv Hc Hec. rewrite mul_spec, Hc. unfold SF64mul.
  destruct (valid_finite c _ _ _ Hc) as (Hec' & Hdc & _).
  destruct (unit_interval v Hv) as [[s E] | (m & e & E & He)].
  - rewrite E. left. now exists (xorb s false).
  - destruct (valid_finite v _ _ _ E) as (He' & Hd & _). rewrite E.
    destruct (SFmul_finite false m e false mc ec) as (m' & e' & -> & Hm' & Hb).
    cbn [xorb].
    assert (He2 : (e' <= ec + 2)%Z).
    { pose proof (fexp_mono
                    (Zpos (digits2_pos m) + Zpos (digits2_pos mc) + (e + ec))
                    (ec + 54) ltac:(lia)) as Hf.
      unfold fexp, emin, prec, emax in *. lia. }
    destruct m' as [| p | p]; [left; now exists false | | lia].
    right. exists p, e'. unfold rounded.
    replace (e' <=? emax - prec)%Z with true
      by (symmetry; apply Z.leb_le; unfold emax, prec; lia).
    split; [reflexivity | exact He2].
Qed.

Lemma accepts_unit_product v c mc ec :
  between 0 1 v = true -> Prim2SF c = S754_finite false mc ec ->
  (ec <= 70)%Z -> accepts (v * c) = true.
Proof.
  intros Hv Hc Hec.
  destruct (unit_product v c mc ec Hv Hc ltac:(lia))
    as [[s E] | (m & e & E & He)].
  - exact (accepts_zero _ s E).
  - apply (accepts_finite _ false m e E). lia.
Qed.

(** A positive constant plus such a product. *)
Lemma accepts_offset_product a ma ea v c mc ec :
  Prim2SF a = S754_finite false ma ea ->
  between 0 1 v = true -> Prim2SF c = S754_finite false mc ec ->
  (ea <= 70)%Z -> (ec <= 70)%Z -> accepts (a + v * c) = true.
Proof.
  intros Ha Hv Hc Hea Hec.
  destruct (valid_finite a _ _ _ Ha) as (Hea' & _ & _).
  pose proof (valid_mantissa a _ _ _ Ha) as Hma.
  destruct (unit_product v c mc ec Hv Hc ltac:(lia))
    as [[s E] | (m & e & E & He)].
  - apply (accepts_finite _ false ma ea); [| lia].
    rewrite add_spec, Ha, E. reflexivity.
  - destruct (valid_finite _ _ _ _ E) as (He' & _ & _).
    pose proof (valid_mantissa _ _ _ _ E) as Hm.
    destruct (SFadd_pos ma ea m e ltac:(lia) ltac:(lia))
      as (m' & e' & Hr & Hm' & Hb).
    apply (accepts_rounded _ false m' e'); [| exact Hm' |].
    + rewrite add_spec, Ha, E. exact Hr.
    + destruct (Hb (Z.max ea e + 54)%Z) as [Hb1 _].
      * pose proof (scaled_lt (Zpos ma) ea 53 ltac:(lia) ltac:(lia) ltac:(lia)).
        pose proof (scaled_lt (Zpos m) e 53 ltac:(lia) ltac:(lia) ltac:(lia)).
        assert (2 ^ (53 + ea + 1074) <= 2 ^ (Z.max ea e + 53 + 1074))%Z
          by (apply Z.pow_le_mono_r; lia).
        assert (2 ^ (53 + e + 1074) <= 2 ^ (Z.max ea e + 53 + 1074))%Z
          by (apply Z.pow_le_mono_r; lia).
        replace (Z.max ea e + 54 + 1074)%Z
          with (Z.succ (Z.max ea e + 53 + 1074)) by lia.
        rewrite Z.pow_succ_r by lia. lia.
      * unfold fexp, emin, prec, emax in Hb1. lia.
Qed.

End Acceptance.

(** ** The writes of [applyEffect] and [update] *)

Section UpdateWrites.

Context {impl : Implementation}.

Local Open Scope float_scope.

Ltac open_channel c :=
  destruct c as [? ? [? ?] [? [? ?] ?] [? [? ?] ?] [? ?] [? ?] [? ?]
                 ? ? ? ? ? ? ? ? ? ? ? ? ?].

Lemma applyEffect_eq t e v m c :
  applyEffect t e v m c = on_channel_writes (effect_writes t e v m) c.
Proof.
  open_channel c; destruct e; unfold applyEffect, effect_writes, target_writes,
    aim, retune, on_filter, setTargetAtTime, on_channel_writes;
    cbn [EffectType_eqb andb gainNode filterNode reverbGain delayFeedback
         flangerWet frequency Q filterType];
    try reflexivity;
    match goal with
    | |- context [accepts ?x] => destruct (accepts x)
    end; reflexivity.
Qed.

Lemma later_assoc {A : Type} (a b c : option A) :
  later (later a b) c = later a (later b c).
Proof. destruct c; reflexivity. Qed.

Lemma written_later {A : Type} (a b : option A) (old : A) :
  written (later a b) old = written b (written a old).
Proof. destruct b; reflexivity. Qed.

Lemma apply_merge w w' c :
  apply_writes (merge w w') c = apply_writes w' (apply_writes w c).
Proof.
  open_channel c. destruct w, w'.
  unfold apply_writes, merge, refiltered, retargeted.
  cbn -[later written]. rewrite !later_assoc, !written_later. reflexivity.
Qed.

Lemma andThen_writes r c k k' :
  (forall w, k (apply_writes w c) = on_channel_writes k' (apply_writes w c)) ->
  andThen (on_channel_writes r c) k = on_channel_writes (then_writes r k') c.
Proof.
  intros H. destruct r as [w | w]; cbn [on_channel_writes andThen then_writes];
    [| reflexivity].
  rewrite H. destruct k'; cbn [on_channel_writes]; now rewrite apply_merge.
Qed.

Lemma applyAxes_eq t x y spread z fist c :
  applyAxes t x y spread z fist c
  = on_channel_writes
      (axes_writes t x y spread z fist (xEffect c) (yEffect c) (zEffect c)
         (spreadEffect c)) c.
Proof.
  unfold applyAxes, axes_writes.
  rewrite applyEffect_eq. apply andThen_writes. intros w1.
  rewrite applyEffect_eq.
  replace (yEffect (apply_writes w1 c)) with (yEffect c) by reflexivity.
  apply andThen_writes. intros w2.
  rewrite applyEffect_eq.
  replace (zEffect (apply_writes w2 (apply_writes w1 c))) with (zEffect c)
    by reflexivity.
  apply andThen_writes. intros w3.
  rewrite applyEffect_eq. reflexivity.
Qed.

Lemma applyRotation_eq t rotation a fist c :
  applyRotation t rotation a fist c
  = on_channel_writes (rotation_writes t rotation a fist) c.
Proof.
  unfold applyRotation, rotation_writes, target_writes, retune, on_filter,
    setTargetAtTime. cbv zeta.
  open_channel c.
  cbn [rotationFilterNode frequency Q filterType].
  destruct (a && negb fist); [destruct (rotation <? -0.1);
    [| destruct (0.1 <? rotation)] |];
    match goal with
    | |- context [accepts ?x] => destruct (accepts x)
    end; reflexivity.
Qed.

Lemma update_eq t x y spread z rotation a c :
  update t x y spread z rotation a c
  = on_channel_writes
      (update_writes t x y spread z rotation a (xEffect c) (yEffect c)
         (zEffect c) (spreadEffect c)) c.
Proof.
  unfold update, update_writes. cbv zeta.
  rewrite applyAxes_eq. apply andThen_writes. intros w.
  apply applyRotation_eq.
Qed.

Lemma state_on_channel r c :
  state (on_channel_writes r c) = apply_writes (state r) c.
Proof. destruct r; reflexivity. Qed.

Lemma returns_on_channel r c : returns (on_channel_writes r c) = returns r.
Proof. destruct r; reflexivity. Qed.

(** What [update] leaves behind is the channel with some writes carried
    out. *)
Lemma update_state t x y spread z rotation a c :
  state (update t x y spread z rotation a c)
  = apply_writes
      (state (update_writes t x y spread z rotation a (xEffect c) (yEffect c)
                (zEffect c) (spreadEffect c))) c.
Proof. rewrite update_eq. apply state_on_channel. Qed.

Lemma apply_writes_outside w c : same_outside_effects c (apply_writes w c).
Proof. unfold same_outside_effects, mapped. repeat split. Qed.

Lemma later_twice {A : Type} (a b : option A) : later (later a b) b = later a b.
Proof. destruct b; reflexivity. Qed.

Lemma written_twice {A : Type} (w : option A) old :
  written w (written w old) = written w old.
Proof. destruct w; reflexivity. Qed.

Lemma apply_writes_twice w c :
  apply_writes w (apply_writes w c) = apply_writes w c.
Proof.
  open_channel c. destruct w. unfold apply_writes, refiltered, retargeted.
  cbn -[later written]. rewrite !later_twice, !written_twice. reflexivity.
Qed.

End UpdateWrites.

(** ** Effect routing: [applyEffect] and [update] *)

Section EffectRouting.

Context {impl : Implementation}.

Local Open Scope float_scope.

Lemma EffectType_eqb_sym a b : EffectType_eqb a b = EffectType_eqb b a.
Proof. destruct a, b; reflexivity. Qed.

(** While muted, an application that returns has written the gain target 0
    if it is the one of VOLUME, and no gain target otherwise. *)
Lemma effect_writes_muted_gain t e v w :
  effect_writes t e v true = Normal w ->
  w_gain w =
    if EffectType_eqb e VOLUME then Some (mkSetTarget 0 t 0.1) else None.
Proof.
  destruct e; unfold effect_writes, target_writes;
    cbn [EffectType_eqb andb];
    try match goal with
        | |- context [accepts ?x] => destruct (accepts x)
        end;
    intros H; try discriminate H; injection H as <-; reflexivity.
Qed.

Lemma rotation_writes_gain t rotation a fist :
  w_gain (state (rotation_writes t rotation a fist)) = None.
Proof.
  unfold rotation_writes, target_writes.
  destruct (a && negb fist); [destruct (rotation <? -0.1);
    [| destruct (0.1 <? rotation)] |];
    match goal with
    | |- context [accepts ?x] => destruct (accepts x)
    end; reflexivity.
Qed.

Lemma update_fist_silences t x y spread z rotation isRotActive c :
  (spread <? 0.15) = true ->
  includes [xEffect c; yEffect c; zEffect c; spreadEffect c] VOLUME = true ->
  returns (update t x y spread z rotation isRotActive c) = true ->
  automation (gainNode (state (update t x y spread z rotation isRotActive c)))
    = Some (mkSetTarget 0 t 0.1).
Proof.
  intros Hfist Hmapped. rewrite update_eq, returns_on_channel, state_on_channel.
  unfold update_writes, axes_writes. rewrite Hfist.
  pose proof (rotation_writes_gain t rotation isRotActive true) as H5.
  pose proof (effect_writes_muted_gain t (xEffect c) x) as H1.
  pose proof (effect_writes_muted_gain t (yEffect c) y) as H2.
  pose proof (effect_writes_muted_gain t (zEffect c) z) as H3.
  pose proof (effect_writes_muted_gain t (spreadEffect c) spread) as H4.
  destruct (effect_writes t (xEffect c) x true) as [w1 | w1];
    [| discriminate].
  destruct (effect_writes t (yEffect c) y true) as [w2 | w2];
    [| discriminate].
  destruct (effect_writes t (zEffect c) z true) as [w3 | w3];
    [| discriminate].
  destruct (effect_writes t (spreadEffect c) spread true) as [w4 | w4];
    [| discriminate].
  destruct (rotation_writes t rotation isRotActive true) as [w5 | w5];
    [| discriminate].
  intros _. cbn [then_writes state] in *.
  specialize (H1 _ eq_refl). specialize (H2 _ eq_refl).
  specialize (H3 _ eq_refl). specialize (H4 _ eq_refl).
  unfold apply_writes.
  cbn [gainNode set_rotationFilterNode set_flangerWet set_reverbGain
       set_delayFeedback set_filterNode set_gainNode retargeted automation
       merge w_gain].
  rewrite H1, H2, H3, H4, H5.
  unfold includes in Hmapped. cbn [existsb] in Hmapped.
  rewrite orb_false_r, !(EffectType_eqb_sym VOLUME) in Hmapped.
  destruct (EffectType_eqb (xEffect c) VOLUME),
           (EffectType_eqb (yEffect c) VOLUME),
           (EffectType_eqb (zEffect c) VOLUME),
           (EffectType_eqb (spreadEffect c) VOLUME);
    try discriminate Hmapped; reflexivity.
Qed.

(** A NaN is not accepted, and neither is what the engine computes from
    one without [Math.pow]. *)
Lemma nan_targets v :
  is_nan v = true ->
  accepts (clamp 0 1 v) = false
  /\ accepts (clamp 0 1 v * 10000) = false
  /\ accepts (clamp 0 1 v * 2) = false
  /\ accepts (clamp 0 1 v * 0.8) = false.
Proof.
  intros H. rewrite (clamp_nan 0 1 v H). repeat split; reflexivity.
Qed.

(** C1.  For an argument that is a number, [applyEffect] clamps it to
    [[0,1]] and returns having scheduled, with a time constant of 0.1 s: for
    VOLUME the gain target 0 when muted and v otherwise; for LPF a low-pass
    with cutoff target 100 + v^2 * 19900, [v^2] being what [Math.pow]
    returns, taken to lie in [[0,1]]; for HPF a high-pass with cutoff target
    v * 10000; for REVERB the wet send target v * 2; for DELAY the feedback
    target v * 0.8; for FLANGER the wet target v; NONE leaves the channel as
    it is.  For an argument that is NaN the clamped value is NaN: VOLUME,
    REVERB, DELAY and FLANGER then throw with the channel as it was (VOLUME
    unless muted, where the target is 0 again), and HPF throws with the
    filter switched to high-pass and its cutoff as it was.  In an [update]
    that returns, a spread below 0.15 mutes all four applications, so that
    the gain target is 0 as soon as some axis is mapped to VOLUME, whatever
    the values of the axes. *)
Theorem applyEffect_targets :
  forall (t value : float) (isMuted : bool) (c : LoopChannel),
    let v := clamp 0 1 value in
    (is_nan value = false ->
     between 0 1 v = true
     /\ applyEffect t VOLUME value isMuted c =
          Normal
            (set_gainNode
               (approach (gainNode c) (if isMuted then 0 else v) t 0.1) c)
     /\ (between 0 1 (Math_pow v 2) = true ->
         applyEffect t LPF value isMuted c =
           Normal
             (set_filterNode
                (mkBiquad lowpass
                   (approach (frequency (filterNode c))
                      (100 + Math_pow v 2 * 19900) t 0.1) 1) c))
     /\ applyEffect t HPF value isMuted c =
          Normal
            (set_filterNode
               (mkBiquad highpass
                  (approach (frequency (filterNode c)) (v * 10000) t 0.1) 1)
               c)
     /\ applyEffect t REVERB value isMuted c =
          Normal (set_reverbGain (approach (reverbGain c) (v * 2) t 0.1) c)
     /\ applyEffect t DELAY value isMuted c =
          Normal
            (set_delayFeedback (approach (delayFeedback c) (v * 0.8) t 0.1) c)
     /\ applyEffect t FLANGER value isMuted c =
          Normal (set_flangerWet (approach (flangerWet c) v t 0.1) c)
     /\ applyEffect t NONE value isMuted c = Normal c)
    /\ (is_nan value = true ->
        is_nan v = true
        /\ applyEffect t VOLUME value true c =
             Normal (set_gainNode (approach (gainNode c) 0 t 0.1) c)
        /\ applyEffect t VOLUME value false c = Throw c
        /\ applyEffect t HPF value isMuted c =
             Throw
               (set_filterNode
                  (mkBiquad highpass (frequency (filterNode c))
                     (Q (filterNode c))) c)
        /\ applyEffect t REVERB value isMuted c = Throw c
        /\ applyEffect t DELAY value isMuted c = Throw c
        /\ applyEffect t FLANGER value isMuted c = Throw c
        /\ applyEffect t NONE value isMuted c = Normal c)
    /\ forall x y spread z rotation isRotActive,
         (spread <? 0.15) = true ->
         includes [xEffect c; yEffect c; zEffect c; spreadEffect c] VOLUME
           = true ->
         returns (update t x y spread z rotation isRotActive c) = true ->
         automation
           (gainNode (state (update t x y spread z rotation isRotActive c)))
           = Some (mkSetTarget 0 t 0.1).
Proof.
  intros t value isMuted c v. repeat apply conj.
  - intros Hnan.
    assert (Hv : between 0 1 v = true)
      by (unfold v; rewrite clamp_range by reflexivity; now rewrite Hnan).
    pose proof (accepts_unit v Hv) as Hself.
    assert (H10000 : accepts (v * 10000) = true)
      by (eapply accepts_unit_product;
          [exact Hv | vm_compute; reflexivity | lia]).
    assert (H2 : accepts (v * 2) = true)
      by (eapply accepts_unit_product;
          [exact Hv | vm_compute; reflexivity | lia]).
    assert (H08 : accepts (v * 0.8) = true)
      by (eapply accepts_unit_product;
          [exact Hv | vm_compute; reflexivity | lia]).
    unfold applyEffect, aim, retune, on_filter, setTargetAtTime.
    cbn [EffectType_eqb andb frequency Q]. fold (clamp 0 1 value). fold v.
    rewrite Hself, H10000, H2, H08.
    split; [exact Hv |].
    split; [destruct isMuted; [reflexivity | now rewrite Hself] |].
    split; [| repeat split; reflexivity].
    intros Hpow.
    assert (Hlpf : accepts (100 + Math_pow v 2 * 19900) = true)
      by (eapply accepts_offset_product;
          [vm_compute; reflexivity | exact Hpow | vm_compute; reflexivity
          | lia | lia]).
    now rewrite Hlpf.
  - intros Hnan. destruct (nan_targets value Hnan) as (H1 & H2 & H3 & H4).
    fold v in H1, H2, H3, H4.
    unfold applyEffect, aim, retune, on_filter, setTargetAtTime.
    cbn [EffectType_eqb andb frequency Q]. fold (clamp 0 1 value). fold v.
    rewrite H1, H2, H3, H4.
    split; [unfold v; now rewrite clamp_nan |].
    repeat split; reflexivity.
  - intros x y s z r a Hs Hm Hr.
    exact (update_fist_silences t x y s z r a c Hs Hm Hr).
Qed.

End EffectRouting.

(** ** The rotation filter *)

Section RotationFilter.

Context {impl : Implementation}.

Local Open Scope float_scope.

(** Above a positive number is not below a negative one. *)
Lemma SFltb_signs m1 e1 m2 e2 x :
  SFltb (S754_finite false m1 e1) x = true ->
  SFltb x (S754_finite true m2 e2) = false.
Proof.
  unfold SFltb.
  destruct x as [[] | [] | | [] m e]; cbn [SFcompare];
    try reflexivity; discriminate.
Qed.

(** Above the dead zone is not below it. *)
Lemma above_deadzone_not_below r :
  (0.1 <? r) = true -> (r <? -0.1) = false.
Proof.
  rewrite !FloatAxioms.ltb_spec.
  replace (Prim2SF 0.1) with (S754_finite false 7205759403792794 (-56))
    by (vm_compute; reflexivity).
  replace (Prim2SF (-0.1)) with (S754_finite true 7205759403792794 (-56))
    by (vm_compute; reflexivity).
  apply SFltb_signs.
Qed.

(** The four axes do not write to the rotation filter. *)
Lemma effect_writes_rotation t e v m :
  let w := state (effect_writes t e v m) in
  w_rotationType w = None /\ w_rotationFreq w = None /\ w_rotationQ w = None.
Proof.
  destruct e; unfold effect_writes, target_writes; cbv zeta;
    try match goal with
        | |- context [accepts ?x] => destruct (accepts x)
        end; repeat split; reflexivity.
Qed.

Lemma then_writes_rotation r r' :
  (let w := state r in
   w_rotationType w = None /\ w_rotationFreq w = None
   /\ w_rotationQ w = None) ->
  (let w := state r' in
   w_rotationType w = None /\ w_rotationFreq w = None
   /\ w_rotationQ w = None) ->
  let w := state (then_writes r r') in
  w_rotationType w = None /\ w_rotationFreq w = None /\ w_rotationQ w = None.
Proof.
  cbv zeta. intros (H1 & H2 & H3) (H4 & H5 & H6).
  destruct r as [w | w], r' as [w' | w']; cbn [then_writes state merge
    w_rotationType w_rotationFreq w_rotationQ] in *;
    rewrite ?H1, ?H2, ?H3, ?H4, ?H5, ?H6; repeat split; reflexivity.
Qed.

Lemma axes_writes_rotation t x y spread z fist ex ey ez es :
  let w := state (axes_writes t x y spread z fist ex ey ez es) in
  w_rotationType w = None /\ w_rotationFreq w = None /\ w_rotationQ w = None.
Proof.
  unfold axes_writes.
  repeat apply then_writes_rotation; apply effect_writes_rotation.
Qed.

Lemma applyAxes_rotation t x y spread z fist c :
  rotationFilterNode (state (applyAxes t x y spread z fist c))
  = rotationFilterNode c.
Proof.
  rewrite applyAxes_eq, state_on_channel.
  destruct (axes_writes_rotation t x y spread z fist (xEffect c) (yEffect c)
              (zEffect c) (spreadEffect c)) as (H1 & H2 & H3).
  unfold apply_writes. cbn [rotationFilterNode set_rotationFilterNode].
  rewrite H1, H2, H3.
  destruct (rotationFilterNode c) as [? [? ?] ?]. reflexivity.
Qed.

(** The rotation filter after [update], and whether [update] returns. *)
Lemma update_rotationFilter t x y spread z rotation isRotActive c :
  let fist := spread <? 0.15 in
  let axes := applyAxes t x y spread z fist c in
  let result := update t x y spread z rotation isRotActive c in
  let rot := rotationFilterNode c in
  let tuned type freq q :=
    if accepts freq
    then mkBiquad type (approach (frequency rot) freq t 0.1) q
    else mkBiquad type (frequency rot) (Q rot) in
  let tune type freq q :=
    returns result = accepts freq
    /\ rotationFilterNode (state result) = tuned type freq q in
  if returns axes then
    if isRotActive && negb fist then
      if rotation <? -0.1 then
        tune lowpass (40 + Math_pow ((rotation + 1) / 0.9) 3 * 19960) 1
      else if 0.1 <? rotation then
        tune highpass (10 + (rotation - 0.1) / 0.9 * 3990) 1
      else tune lowpass 22000 (Q rot)
    else tune lowpass 22000 (Q rot)
  else returns result = false /\ rotationFilterNode (state result) = rot.
Proof.
  cbv zeta. unfold update.
  pose proof (applyAxes_rotation t x y spread z (spread <? 0.15) c) as Hrot.
  destruct (applyAxes t x y spread z (spread <? 0.15) c) as [c' | c'];
    cbn [andThen returns state] in *; [| split; [reflexivity | exact Hrot]].
  rewrite <- Hrot.
  unfold applyRotation, retune, on_filter, setTargetAtTime. cbv zeta.
  cbn [frequency Q].
  destruct (isRotActive && negb (spread <? 0.15));
    [destruct (rotation <? -0.1); [| destruct (0.1 <? rotation)] |];
    match goal with
    | |- context [accepts ?x] => destruct (accepts x)
    end; split; reflexivity.
Qed.

(** C2.  In an [update] whose four axis applications return: when the
    rotation filter is inactive or the hand is a fist (spread below 0.15)
    the rotation filter is set to a low-pass with cutoff target 22000 Hz;
    otherwise it is, for a rotation below -0.1, a low-pass with cutoff
    target 40 + n^3 * 19960 where n = (rotation + 1) / 0.9 and [n^3] is what
    [Math.pow] returns; for a rotation above 0.1, a high-pass with cutoff
    target 10 + n * 3990 where n = (rotation - 0.1) / 0.9; and in the dead
    zone [-0.1, 0.1] a low-pass with cutoff target 22000 Hz.  A cutoff that
    [setTargetAtTime] does not accept makes [update] throw with the filter
    switched to the type and its cutoff and Q as they were.  In an [update]
    one of whose axis applications throws, the rotation filter stays as it
    was. *)
Theorem update_rotation_filter :
  forall (t x y spread z rotation : float) (isRotActive : bool)
         (c : LoopChannel),
    let isFist := spread <? 0.15 in
    let result := update t x y spread z rotation isRotActive c in
    let rot := rotationFilterNode c in
    let rot' := rotationFilterNode (state result) in
    let bypass :=
      mkBiquad lowpass (approach (frequency rot) 22000 t 0.1) (Q rot) in
    let tuned type freq :=
      if accepts freq
      then mkBiquad type (approach (frequency rot) freq t 0.1) 1
      else mkBiquad type (frequency rot) (Q rot) in
    (returns (applyAxes t x y spread z isFist c) = true ->
     (isRotActive = false \/ isFist = true ->
      returns result = true /\ rot' = bypass)
     /\ (isRotActive = true -> isFist = false ->
         ((rotation <? -0.1) = true ->
          let n := (rotation + 1) / 0.9 in
          let freq := 40 + Math_pow n 3 * 19960 in
          returns result = accepts freq /\ rot' = tuned lowpass freq)
         /\ ((0.1 <? rotation) = true ->
             let n := (rotation - 0.1) / 0.9 in
             let freq := 10 + n * 3990 in
             returns result = accepts freq /\ rot' = tuned highpass freq)
         /\ (between (-0.1) 0.1 rotation = true ->
             returns result = true /\ rot' = bypass)))
    /\ (returns (applyAxes t x y spread z isFist c) = false ->
        returns result = false /\ rot' = rot).
Proof.
  intros t x y spread z rotation isRotActive c isFist result rot rot' bypass
    tuned.
  pose proof (update_rotationFilter t x y spread z rotation isRotActive c)
    as H. cbv zeta in H. fold isFist result rot rot' in H.
  assert (H22 : accepts 22000 = true) by reflexivity.
  split.
  - intros Haxes. rewrite Haxes in H. split.
    + intros Hoff.
      assert (E : isRotActive && negb isFist = false)
        by (destruct Hoff as [-> | ->]; [reflexivity | apply andb_false_r]).
      rewrite E, H22 in H. exact H.
    + intros Hon Hopen. rewrite Hon, Hopen in H. cbn [andb negb] in H.
      split; [| split].
      * intros Hlow. rewrite Hlow in H. exact H.
      * intros Hhigh. rewrite (above_deadzone_not_below _ Hhigh), Hhigh in H.
        exact H.
      * intros Hdead. unfold between in Hdead.
        apply andb_true_iff in Hdead as [Hlo Hhi].
        rewrite (leb_not_ltb _ _ Hlo), (leb_not_ltb _ _ Hhi), H22 in H.
        exact H.
  - intros Haxes. rewrite Haxes in H. exact H.
Qed.

End RotationFilter.

(** ** The sequencer *)

Section Sequencer.

Context {impl : Implementation}.

Local Open Scope float_scope.

Ltac split_ifs :=
  repeat match goal with
         | |- context [if ?b then _ else _] => destruct b
         end.

(** [schedule] starts voices and does nothing else. *)
Lemma schedule_appends beat time rnd c :
  schedule beat time rnd c =
    set_voices (voices c ++ dispatched beat time rnd c) c.
Proof.
  destruct c as [b pg gn fn rn df rg fw ip cl nt cs ti dm xe ye ze se vs pw lt].
  unfold dispatched, schedule, when, playDistorted808, playKick, playSnare,
    playHiHat, playSynthTone, playAmbientPad, playPerc, startVoice.
  cbn [isDogMode currentLoop set_voices voices].
  destruct dm.
  - split_ifs; cbn; rewrite <- ?app_assoc, ?app_nil_r; reflexivity.
  - destruct cl as [l |]; [| cbn; now rewrite app_nil_r].
    split_ifs; cbn; rewrite <- ?app_assoc, ?app_nil_r; reflexivity.
Qed.

(** What a step triggers depends on the override flag and on the active
    loop only. *)
Lemma dispatched_depends beat time rnd c c' :
  isDogMode c' = isDogMode c -> currentLoop c' = currentLoop c ->
  dispatched beat time rnd c' = dispatched beat time rnd c.
Proof.
  destruct c as [b pg gn fn rn df rg fw ip cl nt cs ti dm xe ye ze se vs pw lt].
  destruct c' as [b' pg' gn' fn' rn' df' rg' fw' ip' cl' nt' cs' ti' dm' xe' ye' ze' se' vs' pw' lt'].
  cbn [isDogMode currentLoop]. intros -> ->.
  unfold dispatched, schedule, when, playDistorted808, playKick, playSnare,
    playHiHat, playSynthTone, playAmbientPad, playPerc, startVoice.
  cbn [isDogMode currentLoop set_voices voices].
  destruct dm.
  - split_ifs; reflexivity.
  - destruct cl as [l |]; [| reflexivity].
    split_ifs; reflexivity.
Qed.

Lemma advance_eq random c :
  advance random c =
    set_currentStep (currentStep c + 1)%Z
      (set_nextNoteTime (noteTime c 1)
         (set_voices
            (voices c ++ dispatched (currentStep c) (nextNoteTime c)
                           (random (currentStep c)) c) c)).
Proof. unfold advance. rewrite schedule_appends. reflexivity. Qed.

Lemma noteTime_advance random c i :
  noteTime (advance random c) i = noteTime c (S i).
Proof.
  rewrite advance_eq. induction i as [| i IH]; [reflexivity |].
  cbn [noteTime]. cbn [noteTime] in IH. rewrite IH. reflexivity.
Qed.

Lemma dispatchedFrom_advance random c k :
  forall from,
    dispatchedFrom from k random (advance random c) =
    dispatchedFrom (S from) k random c.
Proof.
  induction k as [| k IH]; intros from; [reflexivity |].
  cbn [dispatchedFrom]. rewrite IH, noteTime_advance.
  replace (currentStep (advance random c) + Z.of_nat from)%Z
    with (currentStep c + Z.of_nat (S from))%Z
    by (rewrite advance_eq; cbn [currentStep set_currentStep]; lia).
  f_equal. apply dispatched_depends; rewrite advance_eq; reflexivity.
Qed.

(** [k] turns of the loop: [k] steps later in time and in the bar, with the
    voices of these steps appended in order, and nothing else touched. *)
Lemma dispatch_eq random k :
  forall c,
    dispatch k random c =
      set_currentStep (currentStep c + Z.of_nat k)%Z
        (set_nextNoteTime (noteTime c k)
           (set_voices (voices c ++ dispatchedFrom 0 k random c) c)).
Proof.
  induction k as [| k IH]; intros c.
  - destruct c. cbn. now rewrite Z.add_0_r, app_nil_r.
  - cbn [dispatch]. rewrite IH, noteTime_advance, dispatchedFrom_advance.
    cbn [dispatchedFrom]. rewrite Z.add_0_r.
    rewrite advance_eq. cbn. rewrite <- app_assoc.
    replace (currentStep c + 1 + Z.of_nat k)%Z
      with (currentStep c + Z.pos (Pos.of_succ_nat k))%Z by lia.
    reflexivity.
Qed.

(** The loop runs as long as the next step is due and stops at the first
    step that is not: if that is the [k]-th step ahead, [k] turns of fuel
    are enough. *)
Lemma scheduler_loop_runs now random k :
  forall fuel c,
    (forall i, (i < k)%nat -> (noteTime c i <? now + 0.1) = true) ->
    (noteTime c k <? now + 0.1) = false ->
    (k <= fuel)%nat ->
    scheduler_loop fuel now random c = Some (dispatch k random c).
Proof.
  induction k as [| k IH]; intros fuel c Hdue Hstop Hfuel.
  - cbn [noteTime] in Hstop. destruct fuel; cbn; now rewrite Hstop.
  - destruct fuel as [| fuel]; [lia |].
    cbn [scheduler_loop dispatch].
    assert (H0 : (nextNoteTime c <? now + 0.1) = true)
      by (apply (Hdue 0%nat); lia).
    rewrite H0.
    apply IH.
    + intros i Hi. fold (advance random c). rewrite noteTime_advance.
      apply Hdue. lia.
    + fold (advance random c). now rewrite noteTime_advance.
    + lia.
Qed.


Lemma scheduler_loop_result fuel now random :
  forall c c',
    scheduler_loop fuel now random c = Some c' ->
    exists k, c' = dispatch k random c.
Proof.
  induction fuel as [| fuel IH]; intros c c'; cbn [scheduler_loop].
  - destruct (nextNoteTime c <? now + 0.1); [discriminate |].
    intros [= <-]. now exists 0%nat.
  - destruct (nextNoteTime c <? now + 0.1).
    + intros H. destruct (IH _ _ H) as [k ->]. now exists (S k).
    + intros [= <-]. now exists 0%nat.
Qed.

Lemma scheduler_eq fuel now random c :
  scheduler fuel now random c =
    option_map rearmed (scheduler_loop fuel now random c).
Proof.
  unfold scheduler, rearmed, setTimeout.
  destruct (scheduler_loop fuel now random c) as [l |]; [| reflexivity].
  cbn [option_map]. now destruct (isPlaying l).
Qed.

Lemma start_stopped fuel now random c :
  isPlaying c = false ->
  start fuel now random c =
    Some (rearmed
            (set_currentStep 0%Z
               (set_nextNoteTime (now + 0.1) (set_isPlaying true c)))).
Proof.
  intros H. unfold start. rewrite H, scheduler_eq.
  rewrite (scheduler_loop_runs now random 0%nat); [reflexivity | | | lia].
  - intros i Hi. lia.
  - cbn. apply ltb_irrefl.
Qed.

Lemma stop_cancels c :
  one_wake c -> isPlaying (stop c) = false /\ pendingWakes (stop c) = [].
Proof.
  intros [H | (_ & id & delay & Hp & Ht)]; unfold stop, clearTimeout; cbn;
    split; try (destruct (timerID c) as [[| n] |]; reflexivity).
  - destruct (timerID c) as [[| n] |]; cbn; rewrite H; reflexivity.
  - rewrite Ht. cbn. rewrite Hp. cbn. now rewrite Nat.eqb_refl.
Qed.




(** *** At most one pending wake *)

Lemma rearmed_one_wake c : pendingWakes c = [] -> one_wake (rearmed c).
Proof.
  intros H. unfold rearmed, one_wake. destruct (isPlaying c) eqn:E.
  - right. cbn. rewrite H. split; [exact E |].
    now exists (lastTimer c), 25.
  - now left.
Qed.

Lemma scheduler_one_wake fuel now random c c' :
  pendingWakes c = [] -> scheduler fuel now random c = Some c' -> one_wake c'.
Proof.
  intros Hp. rewrite scheduler_eq.
  destruct (scheduler_loop fuel now random c) as [l |] eqn:E; [| discriminate].
  intros [= <-]. apply rearmed_one_wake.
  destruct (scheduler_loop_result _ _ _ _ _ E) as [k ->].
  rewrite dispatch_eq. exact Hp.
Qed.

Lemma start_one_wake fuel now random c c' :
  one_wake c -> start fuel now random c = Some c' -> one_wake c'.
Proof.
  intros Hc. destruct (isPlaying c) eqn:E.
  - unfold start. rewrite E. now intros [= <-].
  - rewrite start_stopped by exact E. intros [= <-].
    apply rearmed_one_wake. cbn.
    destruct Hc as [H | (H & _)]; [exact H | congruence].
Qed.

Lemma one_wake_frame c c' :
  isPlaying c' = isPlaying c -> pendingWakes c' = pendingWakes c ->
  timerID c' = timerID c -> one_wake c -> one_wake c'.
Proof. unfold one_wake. intros -> -> ->. exact (fun H => H). Qed.

Lemma update_one_wake t x y spread z rotation a c :
  one_wake c -> one_wake (state (update t x y spread z rotation a c)).
Proof.
  intros H. rewrite update_state.
  eapply one_wake_frame; [.. | exact H]; reflexivity.
Qed.

Lemma setMapping_one_wake t axis effect c :
  one_wake c -> one_wake (setMapping t axis effect c).
Proof.
  apply one_wake_frame;
    unfold setMapping, resetUnmappedEffects, when;
    destruct axis; cbv zeta; split_ifs; reflexivity.
Qed.

(** Every state that a channel reaches has at most one pending wake. *)
Lemma reachable_one_wake c : reachable c -> one_wake c.
Proof.
  induction 1 as [| fuel random call c c' _ IH Hstep]; [now left |].
  destruct call; cbn [perform] in Hstep.
  - eapply start_one_wake; eassumption.
  - injection Hstep as <-. left. now apply stop_cancels.
  - unfold wake in Hstep.
    destruct (existsb _ (pendingWakes c)) eqn:E;
      [| injection Hstep as <-; exact IH].
    eapply scheduler_one_wake; [| exact Hstep].
    destruct IH as [Hp | (_ & i & d & Hp & _)].
    + rewrite Hp in E. discriminate.
    + rewrite Hp in E. cbn in E. rewrite orb_false_r in E.
      unfold clearTimeout. cbn. rewrite Hp. cbn. now rewrite E.
  - unfold setLoop in Hstep.
    destruct loopId as [[| a s] |];
      try (injection Hstep as <-; exact IH).
    cbn [currentLoop set_currentLoop isPlaying] in Hstep.
    destruct (find _ AVAILABLE_LOOPS);
      [| injection Hstep as <-; exact IH].
    destruct (isPlaying c) eqn:E; [injection Hstep as <-; exact IH |].
    eapply start_one_wake; [| exact Hstep]. exact IH.
  - injection Hstep as <-. now apply update_one_wake.
  - injection Hstep as <-. now apply setMapping_one_wake.
  - injection Hstep as <-. unfold setPresence.
    destruct (isDogMode c); exact IH.
  - injection Hstep as <-. exact IH.
  - injection Hstep as <-. exact IH.
Qed.


(** *** The look-ahead loop ends *)






(** A step that is due and that one more sixteenth note does not move
    stays due: the look-ahead loop uses up every fuel. *)
Lemma scheduler_loop_stuck now random fuel :
  forall c,
    (nextNoteTime c <? now + 0.1) = true ->
    nextNoteTime c + 60 / bpm c * 0.25 = nextNoteTime c ->
    scheduler_loop fuel now random c = None.
Proof.
  induction fuel as [| fuel IH]; intros c Hdue Hfix;
    cbn [scheduler_loop]; rewrite Hdue; [reflexivity |].
  fold (advance random c).
  apply IH; rewrite advance_eq;
    cbn [bpm nextNoteTime noteTime set_currentStep set_nextNoteTime
         set_voices]; rewrite Hfix; assumption.
Qed.

End Sequencer.

(** ** Trigger rules *)

Section Patterns.

Local Open Scope float_scope.

(** A step index counted up from zero falls on one of the sixteen steps
    of the bar, and JavaScript's [%] agrees with [mod] there. *)
Lemma bar_step beat :
  (0 <= beat)%Z ->
  Z.rem beat 16 = (beat mod 16)%Z /\
  In (beat mod 16)%Z [0; 1; 2; 3; 4; 5; 6; 7; 8; 9; 10; 11; 12; 13; 14; 15]%Z.
Proof.
  intros H. split; [apply Z.rem_mod_nonneg; lia |].
  assert (Hs : (0 <= beat mod 16 < 16)%Z) by (apply Z.mod_pos_bound; lia).
  cbn [In]. lia.
Qed.

Lemma dispatched_by_rule beat time rnd c l :
  isDogMode c = false -> currentLoop c = Some l -> In l AVAILABLE_LOOPS ->
  (0 <= beat)%Z ->
  dispatched beat time rnd c =
    voiced time InputGain (trigger_rule (loop_id l) (beat mod 16) rnd).
Proof.
  intros Hdog Hloop Hl Hbeat.
  destruct (bar_step beat Hbeat) as [Hrem Hin].
  destruct c as [b pg gn fn rn df rg fw ip cl nt cs ti dm xe ye ze se vs pw lt].
  cbn [isDogMode currentLoop] in Hdog, Hloop. subst dm cl.
  unfold dispatched, schedule.
  cbn [isDogMode currentLoop set_voices]. rewrite Hrem.
  set (s := (beat mod 16)%Z) in *. clearbody s.
  unfold AVAILABLE_LOOPS in Hl. cbn [In] in Hl.
  repeat (destruct Hl as [<- | Hl]; [| try contradiction]);
    cbn [In] in Hin;
    repeat (destruct Hin as [<- | Hin]; [| try contradiction]);
    try reflexivity;
    (vm_compute; destruct (0.5 <? rnd); reflexivity).
Qed.



(** C4.  Outside the override mode, a step of the bar triggers exactly
    the generators of the active loop's rule: kick, snare and hi-hat of
    [drum_house] and [drum_break], the arpeggio of [synth_neon], the two
    bass notes of [synth_bass], the pad of [amb_space] and [amb_pads] on
    step 0, the percussion hit of the [perc] loops on the upper half of the
    draw; and nothing at all without an active loop. *)
Theorem schedule_follows_loop_rule :
  forall (c : LoopChannel) (beat : Z) (time rnd : float),
    isDogMode c = false -> (0 <= beat)%Z ->
    (currentLoop c = None -> schedule beat time rnd c = c)
    /\ (forall l, In l AVAILABLE_LOOPS -> currentLoop c = Some l ->
         schedule beat time rnd c =
           set_voices
             (voices c
                ++ voiced time InputGain
                     (trigger_rule (loop_id l) (beat mod 16) rnd)) c).
Proof.
  intros c beat time rnd Hdog Hbeat. split.
  - intros Hnone. unfold schedule. now rewrite Hdog, Hnone.
  - intros l Hl Hloop. rewrite schedule_appends.
    now rewrite (dispatched_by_rule beat time rnd c l).
Qed.

Lemma schedule_follows_loop_rule_witness :
  schedule 4 0.5 0 house_channel =
    set_voices [mkVoice Kick 0.5 InputGain; mkVoice Snare 0.5 InputGain]
      house_channel.
Proof.
  refine (proj2 (schedule_follows_loop_rule house_channel 4 0.5 0 _ _)
            (mkLoop "drum_house" "House Beat" DRUMS 128) _ _).
  - reflexivity.
  - lia.
  - simpl. auto.
  - reflexivity.
Defined.

(** *** The override voice and the graph *)





(** The voices of the loops, in contrast, enter at [InputGain] and run
    through every stage of the chain. *)
Lemma loop_voices_traverse_chain n : In n effect_chain -> flows InputGain n.
Proof.
  assert (F : flows InputGain FilterNode)
    by (apply flows_edge; cbn; auto 25).
  assert (R : flows FilterNode RotationFilterNode)
    by (apply flows_edge; cbn; auto 25).
  assert (T : forall a b c', flows a b -> flows b c' -> flows a c').
  { intros a b c' Hab. induction Hab as [a b He | a b m He _ IH]; intros Hbc.
    - now apply flows_path with b.
    - apply flows_path with b; auto. }
  assert (G : flows RotationFilterNode GainNode)
    by (apply flows_edge; cbn; auto 25).
  assert (P : flows GainNode PresenceGain)
    by (apply flows_edge; cbn; auto 25).
  unfold effect_chain. cbn [In].
  intros [<- | [<- | [<- | [<- | [<- | [<- | []]]]]]].
  - exact F.
  - apply T with FilterNode; [exact F | apply flows_edge; cbn; auto 25].
  - apply T with FilterNode; [exact F | apply flows_edge; cbn; auto 25].
  - apply T with FilterNode; assumption.
  - apply T with FilterNode; [exact F |].
    apply T with RotationFilterNode; assumption.
  - apply T with FilterNode; [exact F |].
    apply T with RotationFilterNode; [exact R |].
    apply T with GainNode; assumption.
Qed.


End Patterns.

(** ** The mapping reset *)

Section MappingResetFacts.

Local Open Scope float_scope.

Ltac split_ifs :=
  repeat match goal with
         | |- context [if ?b then _ else _] => destruct b
         end.

Lemma resetUnmappedEffects_mapped t c :
  mapped (resetUnmappedEffects t c) = mapped c.
Proof. unfold resetUnmappedEffects, when. cbv zeta. split_ifs; reflexivity. Qed.


Lemma setMapping_assigns t axis effect c :
  mapped (setMapping t axis effect c) =
    match axis with
    | AxisX => [effect; yEffect c; zEffect c; spreadEffect c]
    | AxisY => [xEffect c; effect; zEffect c; spreadEffect c]
    | AxisZ => [xEffect c; yEffect c; effect; spreadEffect c]
    | AxisSpread => [xEffect c; yEffect c; zEffect c; effect]
    end.
Proof.
  unfold setMapping. rewrite resetUnmappedEffects_mapped.
  destruct axis; reflexivity.
Qed.



End MappingResetFacts.

(** ** The gesture mapper *)

(** ** The gesture mapper *)

Section GestureMapper.

Context {impl : Implementation}.

Local Open Scope float_scope.

Variable Math_atan2 : float -> float -> float.

Ltac complete_frame landmarks H :=
  do 21 (destruct landmarks as [| ? landmarks]; [discriminate H |]);
  destruct landmarks; [| discriminate H].

Lemma calculateHandMetrics_formulas landmarks isRightHand :
  List.length landmarks = 21%nat ->
  AppLogic.calculateHandMetrics Math_atan2 landmarks isRightHand =
    Some (mkHandMetrics (gesture_spread landmarks) (gesture_z landmarks)
            (rotation_of isRightHand (angleDeg Math_atan2 landmarks))).
Proof.
  intros H. complete_frame landmarks H.
  destruct isRightHand; reflexivity.
Qed.

(** What the handler of a frame does with a complete frame: the five
    values go to [updateHand], and to the state when that call returns. *)
Lemma trackHand_formulas appState t label landmarks prev :
  List.length landmarks = 21%nat ->
  AppLogic.trackHand Math_atan2 appState t label landmarks prev =
    let x := gesture_x landmarks in
    let y := gesture_y landmarks in
    let spread := gesture_spread landmarks in
    let z := gesture_z landmarks in
    let rotation := gesture_rotation Math_atan2 label landmarks in
    let values := AppLogic.set_handValues x y z spread rotation in
    match AppLogic.onSynth
            (Engine.updateHand t label x y spread z rotation
               (rotationActive label appState)) (synthRef prev) with
    | Some synth =>
      Some (match label with
            | Left =>
              mkApp synth (app_bpm prev) (values (leftHand prev))
                (rightHand prev)
            | Right =>
              mkApp synth (app_bpm prev) (leftHand prev)
                (values (rightHand prev))
            end)
    | None => None
    end.
Proof.
  intros H. unfold AppLogic.trackHand.
  rewrite calculateHandMetrics_formulas by exact H.
  complete_frame landmarks H.
  destruct label; reflexivity.
Qed.

(** The rotation on the frame of the hand that points to the left, given
    the angle that [Math.atan2] returns for that direction. *)
Lemma leftward_rotation label :
  Math_atan2 0 (-0.2) = AppLogic.Math_PI ->
  gesture_rotation Math_atan2 label leftward_frame =
    match label with Right => -1 | Left => 1 end.
Proof.
  intros H. unfold gesture_rotation, angleDeg.
  replace (lm_y (joint leftward_frame 9) - lm_y (joint leftward_frame 0))
    with 0 by (vm_compute; reflexivity).
  replace (lm_x (joint leftward_frame 9) - lm_x (joint leftward_frame 0))
    with (-0.2) by (vm_compute; reflexivity).
  rewrite H. destruct label; vm_compute; reflexivity.
Qed.

End GestureMapper.

(** C7.  For every complete hand frame the gesture mapper returns
    x = clamp(indexTip.x, 0, 1) and y = clamp(1 - indexTip.y, 0, 1);
    spread = clamp((mean fingertip distance from the wrist / handScale - 0.8)
    / (1.7 - 0.8), 0, 1), handScale being the distance from the wrist to the
    middle-finger base; z = clamp((handScale - 0.05) / (0.3 - 0.05), 0, 1);
    and rotation = clamp(-(angleDeg + 90) / 90, -1, 1) for the right hand,
    clamp((angleDeg + 90) / 90, -1, 1) for the left hand; these five values
    are what [updateHand] is called with.  At the angles that the source
    names for pinky-down (0 degrees for the right hand, -180 for the left)
    the formula gives -1, at those it names for thumb-down (-180 for the
    right hand, 0 for the left) it gives +1.  But on the frame of a hand
    that points to the left with the middle-finger base at the height of
    the wrist, [Math.atan2] returns pi, the angle is 180 degrees and not
    -180, and the rotation is -1 for the right hand and +1 for the left:
    the opposite ends. *)
Theorem gesture_mapping :
  forall {impl : Implementation} (Math_atan2 : float -> float -> float)
         (appState : App) (t : float) (label : Hand)
         (landmarks : list Landmark) (prev : App),
    List.length landmarks = 21%nat ->
    let isRightHand := match label with Right => true | Left => false end in
    let x := gesture_x landmarks in
    let y := gesture_y landmarks in
    let spread := gesture_spread landmarks in
    let z := gesture_z landmarks in
    let rotation := rotation_of isRightHand (angleDeg Math_atan2 landmarks) in
    AppLogic.calculateHandMetrics Math_atan2 landmarks isRightHand =
      Some (mkHandMetrics spread z rotation)
    /\ (forall e,
          synthRef prev = Some e ->
          match Engine.updateHand t label x y spread z rotation
                  (rotationActive label appState) e with
          | Normal e' =>
            exists a',
              AppLogic.trackHand Math_atan2 appState t label landmarks prev
              = Some a'
              /\ synthRef a' = Some e'
              /\ handConfig label a' =
                   AppLogic.set_handValues x y z spread rotation
                     (handConfig label prev)
          | Throw _ =>
            AppLogic.trackHand Math_atan2 appState t label landmarks prev
            = None
          end)
    /\ rotation_of true 0 = (-1)%float
    /\ rotation_of true (-180) = 1%float
    /\ rotation_of false (-180) = (-1)%float
    /\ rotation_of false 0 = 1%float
    /\ (Math_atan2 0%float (-0.2)%float = AppLogic.Math_PI ->
        AppLogic.calculateHandMetrics Math_atan2 leftward_frame true =
          Some (mkHandMetrics (gesture_spread leftward_frame)
                  (gesture_z leftward_frame) (-1)%float)
        /\ AppLogic.calculateHandMetrics Math_atan2 leftward_frame false =
             Some (mkHandMetrics (gesture_spread leftward_frame)
                     (gesture_z leftward_frame) 1%float)).
Proof.
  intros impl Math_atan2 appState t label landmarks prev H. cbv zeta.
  split; [now apply calculateHandMetrics_formulas |].
  split.
  - intros e He. rewrite trackHand_formulas by exact H. cbv zeta.
    unfold gesture_rotation. rewrite He. cbn [AppLogic.onSynth].
    destruct (Engine.updateHand _ _ _ _ _ _ _ _ e) as [e' | e'];
      [| reflexivity].
    eexists. split; [reflexivity |]. destruct label; split; reflexivity.
  - do 4 (split; [vm_compute; reflexivity |]). intros Hpi.
    rewrite !calculateHandMetrics_formulas by reflexivity.
    pose proof (leftward_rotation Math_atan2 Right Hpi) as Hr.
    pose proof (leftward_rotation Math_atan2 Left Hpi) as Hl.
    unfold gesture_rotation in Hr, Hl. rewrite Hr, Hl. split; reflexivity.
Qed.

(** ** Degenerate frames *)

Section DegenerateFrames.

Local Open Scope float_scope.

(** On the degenerate frame the hand scale is 0, the division by it yields
    infinity, and the mapper still returns a spread and a z. *)
Lemma degenerate_frame_values :
  handScale degenerate_frame = 0
  /\ meanTipDistance degenerate_frame / handScale degenerate_frame = infinity
  /\ gesture_spread degenerate_frame = 1
  /\ gesture_z degenerate_frame = 0.
Proof. repeat split; vm_compute; reflexivity. Qed.

(** On the frame whose landmarks all coincide the division is 0 / 0. *)
Lemma coincident_frame_values :
  handScale coincident_frame = 0
  /\ is_nan (meanTipDistance coincident_frame / handScale coincident_frame)
     = true
  /\ is_nan (gesture_spread coincident_frame) = true
  /\ gesture_z coincident_frame = 0.
Proof. repeat split; vm_compute; reflexivity. Qed.

(** C8 as stated fails: whatever the threshold, the [Math.pow] and the
    [Math.atan2], the frame whose hand scale is 0 is tracked like any
    other.  The right channel has its spread axis on the high-pass, and
    after that frame the cutoff of its filter is headed for the 10000 Hz
    of the spread 1 that the division by zero produced. *)
Lemma no_guard_on_hand_scale :
  ~ exists (impl : Implementation) (Math_atan2 : float -> float -> float)
           (eps : float),
      (0 <? eps) = true /\ skips_degenerate_frames Math_atan2 eps.
Proof.
  intros (impl & atan2 & eps & Hpos & Hskip).
  destruct (AppLogic.trackHand atan2 initial_app 0 Right degenerate_frame
              initial_app)
    as [a' |] eqn:E; [| vm_compute in E; discriminate E].
  assert (Hscale : (handScale degenerate_frame <? eps) = true).
  { replace (handScale degenerate_frame) with 0
      by (vm_compute; reflexivity).
    exact Hpos. }
  specialize (Hskip 0 Right degenerate_frame initial_app a' eq_refl Hscale E).
  vm_compute in E. injection E as <-.
  apply (f_equal
           (option_map
              (fun e =>
                 automation (frequency (filterNode (rightChannel e))))))
    in Hskip.
  vm_compute in Hskip. discriminate Hskip.
Qed.

End DegenerateFrames.

(** C8, amended.  The mapper has no guard on the hand scale: on every
    complete hand frame, however small its hand scale, spread and z are
    computed from the hand scale by the formulas of the mapper, division
    included, and [updateHand] is called with them; the engine keeps what
    the call has done, and the frame's handler returns when the call does
    and throws when the call throws.  On the frame whose hand scale is 0
    and whose fingertips lie apart from the wrist the spread is 1 and the
    z is 0; on the frame whose landmarks all coincide the spread is NaN. *)
Theorem every_frame_is_tracked :
  forall {impl : Implementation} (Math_atan2 : float -> float -> float)
         (appState : App) (t : float) (label : Hand)
         (landmarks : list Landmark) (prev : App) (e : SynthEngine),
    List.length landmarks = 21%nat ->
    synthRef prev = Some e ->
    let isRightHand := match label with Right => true | Left => false end in
    let spread :=
      clamp 0 1
        ((meanTipDistance landmarks / handScale landmarks - 0.8)
         / (1.7 - 0.8))%float in
    let z :=
      clamp 0 1 ((handScale landmarks - 0.05) / (0.3 - 0.05))%float in
    let rotation := gesture_rotation Math_atan2 label landmarks in
    AppLogic.calculateHandMetrics Math_atan2 landmarks isRightHand =
      Some (mkHandMetrics spread z rotation)
    /\ match Engine.updateHand t label (gesture_x landmarks)
               (gesture_y landmarks) spread z rotation
               (rotationActive label appState) e with
       | Normal e' =>
         exists a',
           AppLogic.trackHand Math_atan2 appState t label landmarks prev
           = Some a'
           /\ synthRef a' = Some e'
       | Throw _ =>
         AppLogic.trackHand Math_atan2 appState t label landmarks prev = None
       end.
Proof.
  intros impl Math_atan2 appState t label landmarks prev e H He. cbv zeta.
  split; [destruct label; now apply calculateHandMetrics_formulas |].
  rewrite trackHand_formulas by exact H. cbv zeta.
  rewrite He. cbn [AppLogic.onSynth].
  change (clamp 0 1
            ((meanTipDistance landmarks / handScale landmarks - 0.8)
             / (1.7 - 0.8))%float)
    with (gesture_spread landmarks).
  change (clamp 0 1 ((handScale landmarks - 0.05) / (0.3 - 0.05))%float)
    with (gesture_z landmarks).
  destruct (Engine.updateHand _ _ _ _ _ _ _ _ e) as [e' | e'];
    [| reflexivity].
  eexists. split; [reflexivity |]. destruct label; reflexivity.
Qed.

(** ** Tempo *)

Section Tempo.

Local Open Scope float_scope.



End Tempo.

(** ** Clearing the loop *)

Section Clearing.

Local Open Scope float_scope.

Lemma unknown_loop_not_found s :
  names_no_loop (Some s) ->
  find (fun l => (loop_id l =? s)%string) AVAILABLE_LOOPS = None.
Proof.
  intros H. destruct (find _ AVAILABLE_LOOPS) as [l |] eqn:E; [| reflexivity].
  apply find_some in E as [Hin Heq]. apply String.eqb_eq in Heq.
  now apply H in Hin.
Qed.

Lemma setLoop_clears fuel now random loopId c :
  names_no_loop loopId ->
  setLoop fuel now random loopId c = Some (set_currentLoop None c).
Proof.
  intros H. unfold setLoop. destruct loopId as [[| ch s] |]; try reflexivity.
  rewrite unknown_loop_not_found by exact H. reflexivity.
Qed.




Lemma rearmed_voices c : voices (rearmed c) = voices c.
Proof. unfold rearmed. now destruct (isPlaying c). Qed.



End Clearing.




(** ** Worked instances *)



(** The first steps of the started house channel, looked at from time 0.2:
    step 0 at 0.1 (kick) and step 1 at 0.2171875 (hi-hat) are due, step 2 at
    0.334375 is not. *)
Example two_steps_ahead :
  option_map (fun c => (voices c, currentStep c, nextNoteTime c))
    (scheduler 2 0.2 (fun _ => 0%float) started_house)
  = Some ([mkVoice Kick 0.1 InputGain; mkVoice HiHat 0.2171875 InputGain],
          2%Z, 0.334375%float).
Proof. vm_compute. reflexivity. Qed.

(** At 128 beats per minute a sixteenth note lasts 0.1171875 s. *)
Example sixteenth_at_128 : (60 / tempo 128 * 0.25 = 0.1171875)%float.
Proof. vm_compute. reflexivity. Qed.

(** An x axis on LPF at 0.5 sends the cutoff to 5075 Hz. *)
Example lpf_at_half :
  automation
    (frequency
       (filterNode
          (state
             (applyEffect (impl := correctly_rounded) 0 LPF 0.5 false
                newLoopChannel))))
  = Some (mkSetTarget 5075 0 0.1).
Proof. vm_compute. reflexivity. Qed.

(** The house beat over one bar: kick on 0, 4, 8, 12; snare on 4, 12;
    hi-hat on every odd step. *)
Example house_bar :
  map (fun s => trigger_rule "drum_house" s 0) [0; 1; 2; 3; 4; 5; 6; 7]%Z
  = [[Kick]; [HiHat]; []; [HiHat]; [Kick; Snare]; [HiHat]; []; [HiHat]]
  /\ map (fun s => trigger_rule "drum_house" s 0) [8; 9; 10; 11; 12; 13; 14; 15]%Z
     = [[Kick]; [HiHat]; []; [HiHat]; [Kick; Snare]; [HiHat]; []; [HiHat]].
Proof. split; vm_compute; reflexivity. Qed.


(** * Further properties of the engine *)

(** ** What [update] writes *)

(** * Further properties of the engine *)

(** ** What [update] writes *)

Section UpdateFrame.

Context {impl : Implementation}.

Local Open Scope float_scope.

(** X1.  A gesture sample writes effect parameters and nothing else: after
    [update], whether it returns or throws, the tempo, the presence gate,
    the active loop, the step clock, the timers, the override flag, the
    mapping table and the voices of the channel are what they were. *)
Theorem update_writes_effects_only :
  forall (t x y spread z rotation : float) (isRotActive : bool)
         (c : LoopChannel),
    same_outside_effects c
      (state (update t x y spread z rotation isRotActive c)).
Proof.
  intros. rewrite update_state. apply apply_writes_outside.
Qed.

(** X2.  Applying the same gesture sample twice is the same as applying it
    once: every write of [update] sets a target, none accumulates; and a
    sample on which [update] throws makes it throw again, at the same
    statement. *)
Theorem update_idempotent :
  forall (t x y spread z rotation : float) (isRotActive : bool)
         (c : LoopChannel),
    update t x y spread z rotation isRotActive
      (state (update t x y spread z rotation isRotActive c))
    = update t x y spread z rotation isRotActive c.
Proof.
  intros t x y s z r a c.
  rewrite (update_eq t x y s z r a c), state_on_channel, update_eq.
  replace (xEffect (apply_writes _ c)) with (xEffect c) by reflexivity.
  replace (yEffect (apply_writes _ c)) with (yEffect c) by reflexivity.
  replace (zEffect (apply_writes _ c)) with (zEffect c) by reflexivity.
  replace (spreadEffect (apply_writes _ c)) with (spreadEffect c)
    by reflexivity.
  destruct (update_writes t x y s z r a (xEffect c) (yEffect c) (zEffect c)
              (spreadEffect c)) as [w | w];
    cbn [state on_channel_writes]; now rewrite apply_writes_twice.
Qed.

(** X3.  The value of an axis that is mapped to NONE has no influence: for
    the x, y and z axes the result of [update] is the same whatever value the
    unmapped axis carries.  (The spread is different: it also decides the
    fist.) *)
Theorem unmapped_axis_is_ignored :
  forall (t x y spread z rotation x' y' z' : float) (isRotActive : bool)
         (c : LoopChannel),
    (xEffect c = NONE ->
     update t x y spread z rotation isRotActive c
     = update t x' y spread z rotation isRotActive c)
    /\ (yEffect c = NONE ->
        update t x y spread z rotation isRotActive c
        = update t x y' spread z rotation isRotActive c)
    /\ (zEffect c = NONE ->
        update t x y spread z rotation isRotActive c
        = update t x y spread z' rotation isRotActive c).
Proof.
  intros. repeat split; intros H; rewrite !update_eq; rewrite H;
    reflexivity.
Qed.

(** What [updateHand] leaves behind: the engine with the hand's channel
    updated as far as [update] got. *)
Lemma updateHand_state t hand x y spread z rotation a e :
  state (Engine.updateHand t hand x y spread z rotation a e)
  = Engine.set_channel hand
      (state (update t x y spread z rotation a (Engine.channel hand e))) e.
Proof.
  unfold Engine.updateHand.
  destruct (update t x y spread z rotation a (Engine.channel hand e));
    reflexivity.
Qed.

End UpdateFrame.

(** The spread is not ignored even when unmapped: on a channel whose x axis
    drives the volume, closing the hand silences it. *)
Lemma unmapped_spread_still_mutes :
  let gain_after spread :=
    automation
      (gainNode
         (state
            (update (impl := correctly_rounded) 0 0.75 0 spread 0 0 false
               volume_on_x))) in
  spreadEffect volume_on_x = NONE
  /\ gain_after 0.5%float = Some (mkSetTarget 0.75 0 0.1)
  /\ gain_after 0.1%float = Some (mkSetTarget 0 0 0.1).
Proof. repeat split; vm_compute; reflexivity. Qed.

(** ** More on the mapping reset *)

Section ResetAgain.

Local Open Scope float_scope.

Lemma resetUnmappedEffects_eq t c :
  resetUnmappedEffects t c =
    reset_with t
      (negb (includes (mapped c) VOLUME))
      (negb (includes (mapped c) LPF) && negb (includes (mapped c) HPF))
      (negb (includes (mapped c) REVERB))
      (negb (includes (mapped c) DELAY))
      (negb (includes (mapped c) FLANGER)) c.
Proof. reflexivity. Qed.

Lemma reset_with_mapped t bv bf br bd bl c :
  mapped (reset_with t bv bf br bd bl c) = mapped c.
Proof. destruct bv, bf, br, bd, bl; reflexivity. Qed.

Lemma reset_with_twice t bv bf br bd bl c :
  reset_with t bv bf br bd bl (reset_with t bv bf br bd bl c)
  = reset_with t bv bf br bd bl c.
Proof. destruct c, bv, bf, br, bd, bl; reflexivity. Qed.

Lemma resetUnmappedEffects_twice t c :
  resetUnmappedEffects t (resetUnmappedEffects t c) = resetUnmappedEffects t c.
Proof.
  rewrite (resetUnmappedEffects_eq t c).
  rewrite resetUnmappedEffects_eq, reset_with_mapped.
  apply reset_with_twice.
Qed.

Lemma assign_after_reset axis effect c :
  mapped c =
    match axis with
    | AxisX => [effect; yEffect c; zEffect c; spreadEffect c]
    | AxisY => [xEffect c; effect; zEffect c; spreadEffect c]
    | AxisZ => [xEffect c; yEffect c; effect; spreadEffect c]
    | AxisSpread => [xEffect c; yEffect c; zEffect c; effect]
    end ->
  match axis with
  | AxisX => set_xEffect effect c
  | AxisY => set_yEffect effect c
  | AxisZ => set_zEffect effect c
  | AxisSpread => set_spreadEffect effect c
  end = c.
Proof.
  destruct c, axis; unfold mapped; cbn; intros [= ]; subst; reflexivity.
Qed.

(** X4.  Repeating a mapping assignment changes nothing: [setMapping] with
    the same axis and effect, called twice at the same audio time, leaves the
    channel as the first call left it. *)
Theorem setMapping_idempotent :
  forall (t : float) (axis : Axis) (effect : EffectType) (c : LoopChannel),
    setMapping t axis effect (setMapping t axis effect c)
    = setMapping t axis effect c.
Proof.
  intros t axis effect c.
  unfold setMapping at 1.
  rewrite (assign_after_reset axis effect (setMapping t axis effect c)).
  - unfold setMapping. apply resetUnmappedEffects_twice.
  - assert (H := setMapping_assigns t axis effect c).
    unfold mapped in *.
    destruct axis; injection H as Hx Hy Hz Hs;
      rewrite ?Hx, ?Hy, ?Hz, ?Hs; reflexivity.
Qed.

End ResetAgain.

(** ** More on the sequencer *)

(** ** More on the sequencer *)

Section SequencerInvariants.

Context {impl : Implementation}.

Local Open Scope float_scope.

Ltac split_ifs :=
  repeat match goal with
         | |- context [if ?b then _ else _] => destruct b
         end.

(** Every voice that [schedule] starts carries the time it was given and is
    wired as its generator demands. *)
Lemma dispatched_voices beat time rnd c :
  Forall (fun v => voiceTime v = time /\ voice_routed v)
    (dispatched beat time rnd c).
Proof.
  destruct c as [b pg gn fn rn df rg fw ip cl nt cs ti dm xe ye ze se vs pw lt].
  unfold dispatched, schedule, when, playDistorted808, playKick, playSnare,
    playHiHat, playSynthTone, playAmbientPad, playPerc, startVoice.
  cbn [isDogMode currentLoop set_voices voices].
  destruct dm.
  - split_ifs; cbn; repeat constructor.
  - destruct cl as [l |]; [| constructor].
    split_ifs; cbn; repeat constructor.
Qed.

Lemma dispatchedFrom_voices now random c k :
  forall from,
    (forall i, (from <= i < from + k)%nat ->
               (noteTime c i <? now + 0.1) = true) ->
    Forall (fun v => (voiceTime v <? now + 0.1) = true /\ voice_routed v)
      (dispatchedFrom from k random c).
Proof.
  induction k as [| k IH]; intros from Hdue; [constructor |].
  cbn [dispatchedFrom]. apply Forall_app. split.
  - eapply Forall_impl; [| apply dispatched_voices].
    cbn. intros v [-> Hr]. split; [apply Hdue; lia | exact Hr].
  - apply IH. intros i Hi. apply Hdue. lia.
Qed.

(** The loop stops at the first step that is not due, all steps before it
    having been due. *)
Lemma scheduler_loop_exit fuel now random :
  forall c c',
    scheduler_loop fuel now random c = Some c' ->
    exists k,
      c' = dispatch k random c
      /\ (forall i, (i < k)%nat -> (noteTime c i <? now + 0.1) = true)
      /\ (noteTime c k <? now + 0.1) = false.
Proof.
  induction fuel as [| fuel IH]; intros c c'; cbn [scheduler_loop].
  - destruct (nextNoteTime c <? now + 0.1) eqn:E; [discriminate |].
    intros [= <-]. exists 0%nat. repeat split; [intros i Hi; lia | exact E].
  - destruct (nextNoteTime c <? now + 0.1) eqn:E.
    + intros H. destruct (IH _ _ H) as (k & -> & Hdue & Hstop).
      fold (advance random c) in *. exists (S k). repeat split.
      * intros [| i] Hi; [exact E |].
        rewrite <- noteTime_advance with (random := random). apply Hdue. lia.
      * now rewrite <- noteTime_advance with (random := random).
    + intros [= <-]. exists 0%nat. repeat split; [intros i Hi; lia | exact E].
Qed.

Lemma rearmed_clock c :
  nextNoteTime (rearmed c) = nextNoteTime c
  /\ currentStep (rearmed c) = currentStep c.
Proof. unfold rearmed. now destruct (isPlaying c). Qed.

(** X5.  The look-ahead bound.  Whenever a run of [scheduler] at audio time
    [now] returns, the voices it started come after those the channel had,
    each of them starts before [now + 0.1] and is wired as its generator
    demands, the step clock has not gone back, and the step left on the clock
    is not due: nothing due is left behind and nothing is scheduled beyond
    the window. *)
Theorem scheduler_dispatches_due_only :
  forall (fuel : nat) (now : float) (random : Z -> float) (c c' : LoopChannel),
    scheduler fuel now random c = Some c' ->
    (exists started,
        voices c' = voices c ++ started
        /\ Forall (fun v => (voiceTime v <? now + 0.1) = true /\ voice_routed v)
             started)
    /\ (nextNoteTime c' <? now + 0.1) = false
    /\ (currentStep c <= currentStep c')%Z.
Proof.
  intros fuel now random c c'. rewrite scheduler_eq.
  destruct (scheduler_loop fuel now random c) as [l |] eqn:E; [| discriminate].
  intros [= <-].
  destruct (scheduler_loop_exit _ _ _ _ _ E) as (k & -> & Hdue & Hstop).
  destruct (rearmed_clock (dispatch k random c)) as [-> ->].
  rewrite rearmed_voices, dispatch_eq.
  cbn [voices nextNoteTime currentStep set_currentStep set_nextNoteTime
       set_voices].
  split; [| split; [exact Hstop | lia]].
  eexists. split; [reflexivity |].
  apply dispatchedFrom_voices. intros i Hi. apply Hdue. lia.
Qed.

Lemma scheduler_dispatches_due_only_witness :
  exists c',
    scheduler 2 0.2 (fun _ => 0) started_house = Some c'
    /\ (exists started,
          voices c' = voices started_house ++ started
          /\ Forall
               (fun v => (voiceTime v <? 0.2 + 0.1) = true /\ voice_routed v)
               started)
    /\ (nextNoteTime c' <? 0.2 + 0.1) = false
    /\ (currentStep started_house <= currentStep c')%Z.
Proof.
  eexists. split; [vm_compute; reflexivity |].
  apply (scheduler_dispatches_due_only 2 0.2 (fun _ => 0) started_house).
  vm_compute. reflexivity.
Defined.


(** *** The calls, case by case *)

Lemma start_cases fuel now random c c' :
  start fuel now random c = Some c' ->
  c' = c \/
  (isPlaying c = false /\
   c' = rearmed (set_currentStep 0%Z
                   (set_nextNoteTime (now + 0.1) (set_isPlaying true c)))).
Proof.
  destruct (isPlaying c) eqn:E.
  - unfold start. rewrite E. intros [= <-]. now left.
  - rewrite start_stopped by exact E. intros [= <-]. now right.
Qed.

Lemma wake_cases fuel now random id c c' :
  wake fuel now random id c = Some c' ->
  c' = c \/
  (existsb (fun w => Nat.eqb (timeoutId w) id) (pendingWakes c) = true /\
   exists k, c' = rearmed (dispatch k random (clearTimeout id c))).
Proof.
  unfold wake.
  destruct (existsb _ (pendingWakes c)) eqn:E; [| intros [= <-]; now left].
  rewrite scheduler_eq.
  destruct (scheduler_loop fuel now random (clearTimeout id c))
    as [l |] eqn:El; [| discriminate].
  intros [= <-]. right. split; [reflexivity |].
  destruct (scheduler_loop_result _ _ _ _ _ El) as [k ->]. now exists k.
Qed.

Lemma setLoop_cases fuel now random loopId c c' :
  setLoop fuel now random loopId c = Some c' ->
  exists l,
    match l with Some x => In x AVAILABLE_LOOPS | None => True end /\
    (c' = set_currentLoop l c \/
     (isPlaying c = false /\
      c' = rearmed (set_currentStep 0%Z
                      (set_nextNoteTime (now + 0.1)
                         (set_isPlaying true (set_currentLoop l c)))))).
Proof.
  unfold setLoop. destruct loopId as [[| a s] |];
    try (intros [= <-]; exists None; split; [exact I | now left]).
  cbn [currentLoop set_currentLoop isPlaying].
  destruct (find _ AVAILABLE_LOOPS) as [l |] eqn:E;
    [| intros [= <-]; exists None; split; [exact I | now left]].
  intros H. exists (Some l). split; [now apply find_some in E |].
  destruct (isPlaying c) eqn:Ep; [injection H as <-; now left |].
  apply start_cases in H as [-> | [_ ->]]; [now left | right; now split].
Qed.

Lemma setMapping_eq t axis effect c :
  exists bv bf br bd bl,
    setMapping t axis effect c =
      reset_with t bv bf br bd bl
        (match axis with
         | AxisX => set_xEffect effect c
         | AxisY => set_yEffect effect c
         | AxisZ => set_zEffect effect c
         | AxisSpread => set_spreadEffect effect c
         end).
Proof.
  unfold setMapping. rewrite resetUnmappedEffects_eq. now do 5 eexists.
Qed.

(** The sequencer fields after each call that is not a sequencer call. *)
Lemma effect_calls_keep_sequencer fuel random call c c' :
  match call with
  | CallUpdate _ _ _ _ _ _ _ | CallSetMapping _ _ _ | CallSetPresence _ _
  | AssignBpm _ | AssignDogMode _ => True
  | _ => False
  end ->
  perform fuel random call c = Some c' ->
  isPlaying c' = isPlaying c /\ pendingWakes c' = pendingWakes c
  /\ timerID c' = timerID c /\ voices c' = voices c
  /\ currentLoop c' = currentLoop c.
Proof.
  destruct call; try contradiction; intros _; cbn [perform]; intros [= <-].
  - rewrite update_state. repeat split; reflexivity.
  - destruct (setMapping_eq t axis effect c) as (bv & bf & br & bd & bl & ->).
    destruct axis, bv, bf, br, bd, bl; repeat split; reflexivity.
  - unfold setPresence. destruct (isDogMode c); repeat split; reflexivity.
  - repeat split; reflexivity.
  - repeat split; reflexivity.
Qed.

Lemma rearmed_armed c : pendingWakes c = [] -> armed (rearmed c).
Proof.
  intros H. unfold rearmed, armed. destruct (isPlaying c) eqn:E.
  - cbn [isPlaying pendingWakes timerID set_timerID set_pendingWakes
         set_lastTimer].
    rewrite E, H. now exists (lastTimer c).
  - rewrite E. exact H.
Qed.

Lemma armed_frame c c' :
  isPlaying c' = isPlaying c -> pendingWakes c' = pendingWakes c ->
  timerID c' = timerID c -> armed c -> armed c'.
Proof. unfold armed. intros -> -> ->. exact (fun H => H). Qed.

Lemma armed_stopped c : armed c -> isPlaying c = false -> pendingWakes c = [].
Proof. unfold armed. intros H E. rewrite E in H. exact H. Qed.

(** X6.  A channel is playing exactly when a wake is pending.  In every
    state that the calls of the application and the timeouts lead to, a
    playing channel has exactly one pending timeout, of 25 ms, which is the
    one [timerID] names, and a channel that is not playing has none: the
    sequencer neither stalls while playing nor keeps waking after [stop]. *)
Theorem reachable_armed :
  forall c : LoopChannel, reachable c -> armed c.
Proof.
  induction 1 as [| fuel random call c c' _ IH Hstep]; [reflexivity |].
  destruct call;
    try (match type of Hstep with
         | perform _ _ ?call _ = _ =>
           destruct (effect_calls_keep_sequencer fuel random call c c' I Hstep)
             as (Hp & Hw & Ht & _)
         end;
         apply (armed_frame c c' Hp Hw Ht IH));
    cbn [perform] in Hstep.
  - apply start_cases in Hstep as [-> | [Hs ->]]; [exact IH |].
    apply rearmed_armed. cbn. now apply armed_stopped.
  - injection Hstep as <-. unfold armed, stop. cbn [isPlaying timerID set_isPlaying].
    unfold armed in IH.
    destruct (isPlaying c).
    + destruct IH as (id & Hp & Ht). rewrite Ht. cbn. rewrite Hp. cbn.
      now rewrite Nat.eqb_refl.
    + destruct (timerID c) as [[| n] |]; cbn; rewrite ?IH; reflexivity.
  - apply wake_cases in Hstep as [-> | (Hin & k & ->)]; [exact IH |].
    apply rearmed_armed. rewrite dispatch_eq. cbn.
    unfold armed in IH. destruct (isPlaying c).
    + destruct IH as (i & Hp & _). rewrite Hp in *. cbn in Hin |- *.
      rewrite orb_false_r in Hin. now rewrite Hin.
    + rewrite IH in Hin. discriminate.
  - apply setLoop_cases in Hstep as (l & _ & [-> | [Hs ->]]); [exact IH |].
    apply rearmed_armed. cbn. now apply armed_stopped.
Qed.



Lemma dispatchedFrom_routed random c k :
  forall from, Forall voice_routed (dispatchedFrom from k random c).
Proof.
  induction k as [| k IH]; intros from; [constructor |].
  cbn [dispatchedFrom]. apply Forall_app. split; [| apply IH].
  eapply Forall_impl; [| apply dispatched_voices]. cbn. now intros v [_ H].
Qed.

(** X7.  Every voice is wired as its generator demands, at all times: in
    every reachable state of a channel the distorted override voices are
    the ones connected to [masterOutput], and all voices of the loops are
    connected to the input of the effect chain.  The override never leaks
    into the effects, and no loop voice escapes the presence gate. *)
Theorem reachable_voices_routed :
  forall c : LoopChannel, reachable c -> Forall voice_routed (voices c).
Proof.
  induction 1 as [| fuel random call c c' _ IH Hstep]; [constructor |].
  destruct call;
    try (match type of Hstep with
         | perform _ _ ?call _ = _ =>
           destruct (effect_calls_keep_sequencer fuel random call c c' I Hstep)
             as (_ & _ & _ & Hv & _)
         end;
         now rewrite Hv);
    cbn [perform] in Hstep.
  - apply start_cases in Hstep as [-> | [_ ->]]; [exact IH |].
    now rewrite rearmed_voices.
  - injection Hstep as <-. unfold stop. cbn [timerID set_isPlaying].
    destruct (timerID c) as [[| n] |]; exact IH.
  - apply wake_cases in Hstep as [-> | (_ & k & ->)]; [exact IH |].
    rewrite rearmed_voices, dispatch_eq. cbn. apply Forall_app.
    split; [exact IH | apply dispatchedFrom_routed].
  - apply setLoop_cases in Hstep as (l & _ & [-> | [_ ->]]); [exact IH |].
    now rewrite rearmed_voices.
Qed.


Lemma rearmed_loop c : currentLoop (rearmed c) = currentLoop c.
Proof. unfold rearmed. now destruct (isPlaying c). Qed.

(** X8.  The active loop is always none or an entry of the catalog:
    whatever identifiers [setLoop] is called with, a reachable channel never
    holds a loop definition of its own making. *)
Theorem reachable_loop_from_catalog :
  forall c : LoopChannel, reachable c -> loop_from_catalog c.
Proof.
  unfold loop_from_catalog.
  induction 1 as [| fuel random call c c' _ IH Hstep]; [exact I |].
  destruct call;
    try (match type of Hstep with
         | perform _ _ ?call _ = _ =>
           destruct (effect_calls_keep_sequencer fuel random call c c' I Hstep)
             as (_ & _ & _ & _ & Hl)
         end;
         now rewrite Hl);
    cbn [perform] in Hstep.
  - apply start_cases in Hstep as [-> | [_ ->]]; [exact IH |].
    now rewrite rearmed_loop.
  - injection Hstep as <-. unfold stop. cbn [timerID set_isPlaying].
    destruct (timerID c) as [[| n] |]; exact IH.
  - apply wake_cases in Hstep as [-> | (_ & k & ->)]; [exact IH |].
    rewrite rearmed_loop, dispatch_eq. exact IH.
  - apply setLoop_cases in Hstep as (l & Hl & [-> | [_ ->]]);
      rewrite ?rearmed_loop; exact Hl.
Qed.


(** The identifiers of the catalog are pairwise distinct: looking a loop up
    by its identifier returns that loop. *)
Lemma find_by_id l :
  In l AVAILABLE_LOOPS ->
  find (fun l' => (loop_id l' =? loop_id l)%string) AVAILABLE_LOOPS = Some l.
Proof.
  unfold AVAILABLE_LOOPS. cbn [In]. intros H.
  repeat (destruct H as [<- | H]; [reflexivity |]). contradiction.
Qed.

Lemma setLoop_found l fuel now random c c' :
  In l AVAILABLE_LOOPS ->
  setLoop fuel now random (Some (loop_id l)) c = Some c' ->
  currentLoop c' = Some l.
Proof.
  intros Hl. unfold setLoop.
  assert (Hfind := find_by_id l Hl).
  destruct (loop_id l) as [| a s] eqn:Hid.
  - exfalso. unfold AVAILABLE_LOOPS in Hl. cbn [In] in Hl.
    repeat (destruct Hl as [<- | Hl]; [discriminate Hid |]). contradiction.
  - rewrite Hfind. cbn [currentLoop set_currentLoop isPlaying].
    destruct (isPlaying c) eqn:E; [now intros [= <-] |].
    rewrite start_stopped by exact E. intros [= <-]. now rewrite rearmed_loop.
Qed.

(** X9.  Selecting a loop of the catalog.  [setLoop] with the identifier of
    a catalog entry makes that entry the active loop.  On a playing channel
    nothing else changes: the bar goes on where it was.  On a stopped channel
    the sequencer is started: playing, first step at [now + 0.1], step
    index 0, first wake pending. *)
Theorem setLoop_selects :
  forall (l : LoopDefinition) (fuel : nat) (now : float) (random : Z -> float)
         (c : LoopChannel),
    In l AVAILABLE_LOOPS ->
    setLoop fuel now random (Some (loop_id l)) c =
      Some (if isPlaying c
            then set_currentLoop (Some l) c
            else rearmed
                   (set_currentStep 0%Z
                      (set_nextNoteTime (now + 0.1)
                         (set_isPlaying true (set_currentLoop (Some l) c))))).
Proof.
  intros l fuel now random c Hl. unfold setLoop.
  assert (Hfind := find_by_id l Hl).
  destruct (loop_id l) as [| a s] eqn:Hid.
  - exfalso. unfold AVAILABLE_LOOPS in Hl. cbn [In] in Hl.
    repeat (destruct Hl as [<- | Hl]; [discriminate Hid |]). contradiction.
  - rewrite Hfind. cbn [currentLoop set_currentLoop isPlaying].
    destruct (isPlaying c) eqn:E; [reflexivity |].
    now rewrite start_stopped.
Qed.

Lemma setLoop_selects_witness :
  setLoop 0 0 (fun _ => 0) (Some "synth_bass"%string) started_house =
    Some (set_currentLoop (Some (mkLoop "synth_bass" "Wobble Bass" SYNTH 128))
            started_house).
Proof.
  refine (setLoop_selects (mkLoop "synth_bass" "Wobble Bass" SYNTH 128) 0 0
            (fun _ => 0) started_house _).
  cbn. auto.
Defined.

Lemma filter_twice {A : Type} (f : A -> bool) (l : list A) :
  filter f (filter f l) = filter f l.
Proof.
  induction l as [| a l IH]; [reflexivity |]. cbn.
  destruct (f a) eqn:E; cbn; rewrite ?E, IH; reflexivity.
Qed.

(** X10.  [stop] is idempotent: stopping a stopped channel changes nothing,
    whatever [timerID] it still carries. *)
Theorem stop_idempotent :
  forall c : LoopChannel, stop (stop c) = stop c.
Proof.
  intros c. destruct c as [b pg gn fn rn df rg fw ip cl nt cs ti dm xe ye ze se vs pw lt].
  unfold stop, clearTimeout. cbn.
  destruct ti as [[| n] |]; cbn; try reflexivity.
  now rewrite filter_twice.
Qed.

End SequencerInvariants.


(** ** The engine *)

Section EngineInvariants.

Context {impl : Implementation}.

Local Open Scope float_scope.

(** No call but the two assignments changes the tempo or the override flag
    of a channel. *)
Lemma perform_keeps_tempo_and_mode fuel random call c c' :
  match call with AssignBpm _ | AssignDogMode _ => False | _ => True end ->
  perform fuel random call c = Some c' ->
  bpm c' = bpm c /\ isDogMode c' = isDogMode c.
Proof.
  destruct call; try contradiction; intros _; cbn [perform]; intros Hstep.
  - apply start_cases in Hstep as [-> | [_ ->]]; [now split |].
    unfold rearmed; cbn; split; reflexivity.
  - injection Hstep as <-. unfold stop. cbn [timerID set_isPlaying].
    destruct (timerID c) as [[| n] |]; split; reflexivity.
  - apply wake_cases in Hstep as [-> | (_ & k & ->)]; [now split |].
    rewrite dispatch_eq. unfold rearmed. cbn [isPlaying set_currentStep
      set_nextNoteTime set_voices]. 
    destruct (isPlaying (clearTimeout id c)); split; reflexivity.
  - apply setLoop_cases in Hstep as (l & _ & [-> | [_ ->]]); [now split |].
    unfold rearmed; cbn; split; reflexivity.
  - injection Hstep as <-. rewrite update_state. split; reflexivity.
  - injection Hstep as <-.
    destruct (setMapping_eq t axis effect c) as (bv & bf & br & bd & bl & ->).
    destruct axis, bv, bf, br, bd, bl; split; reflexivity.
  - injection Hstep as <-. unfold setPresence.
    destruct (isDogMode c) eqn:E; split; cbn; rewrite ?E; reflexivity.
Qed.

Lemma on_channel_cases hand f e e' :
  on_channel hand f e = Some e' ->
  exists c,
    f (Engine.channel hand e) = Some c /\ e' = Engine.set_channel hand c e.
Proof.
  unfold on_channel. destruct (f (Engine.channel hand e)) as [c |];
    [| discriminate].
  intros [= <-]. now exists c.
Qed.

Lemma set_channel_consistent hand c e :
  engine_consistent e ->
  bpm c = bpm (Engine.channel hand e) ->
  isDogMode c = isDogMode (Engine.channel hand e) ->
  engine_consistent (Engine.set_channel hand c e).
Proof.
  unfold engine_consistent. intros (Hl & Hr & Hb) Hbpm Hdog.
  destruct hand; cbn in *; repeat split; congruence.
Qed.

Lemma channel_call_consistent fuel random call hand c e :
  match call with AssignBpm _ | AssignDogMode _ => False | _ => True end ->
  engine_consistent e ->
  perform fuel random call (Engine.channel hand e) = Some c ->
  engine_consistent (Engine.set_channel hand c e).
Proof.
  intros Hcall He Hstep.
  destruct (perform_keeps_tempo_and_mode fuel random call _ _ Hcall Hstep).
  now apply set_channel_consistent.
Qed.

Lemma engine_step_consistent fuel random call e e' :
  engine_consistent e -> engine_perform fuel random call e = Some e' ->
  engine_consistent e'.
Proof.
  intros Hc0 Hstep.
  destruct call as [now | | b | t hand x y sp zv rot act | t hand axis effect
                    | t active | hand loopId now | t hand axis effect
                    | t hand isPresent | hand id now];
    cbn [engine_perform] in Hstep.
  - unfold Engine.start in Hstep.
    destruct (start fuel now random (leftChannel e)) as [l |] eqn:El;
      [| discriminate].
    destruct (start fuel now random (rightChannel e)) as [r |] eqn:Er;
      [| discriminate].
    injection Hstep as <-.
    destruct (perform_keeps_tempo_and_mode fuel random (CallStart now)
                _ _ I El) as [Hlb Hld].
    destruct (perform_keeps_tempo_and_mode fuel random (CallStart now)
                _ _ I Er) as [Hrb Hrd].
    destruct Hc0 as (Hl & Hr & Hb). repeat split; cbn; congruence.
  - injection Hstep as <-.
    destruct (perform_keeps_tempo_and_mode 0 random CallStop
                (leftChannel e) _ I eq_refl) as [Hlb Hld].
    destruct (perform_keeps_tempo_and_mode 0 random CallStop
                (rightChannel e) _ I eq_refl) as [Hrb Hrd].
    destruct Hc0 as (Hl & Hr & Hb). repeat split; cbn; congruence.
  - injection Hstep as <-. destruct Hc0 as (Hl & Hr & Hb).
    repeat split; cbn; assumption.
  - injection Hstep as <-. rewrite updateHand_state.
    apply (channel_call_consistent 0 random (CallUpdate t x y sp zv rot act));
      [exact I | exact Hc0 | reflexivity].
  - injection Hstep as <-.
    apply (channel_call_consistent 0 random (CallSetMapping t axis effect));
      [exact I | exact Hc0 | reflexivity].
  - injection Hstep as <-. unfold Engine.setDogMode.
    destruct (Bool.eqb (_isDogMode e) active); [exact Hc0 |].
    destruct Hc0 as (Hl & Hr & Hb).
    destruct active; unfold setPresence; cbn; repeat split; assumption.
  - apply on_channel_cases in Hstep as (c & Hc & ->).
    now apply (channel_call_consistent fuel random (CallSetLoop loopId now)).
  - apply on_channel_cases in Hstep as (c & Hc & ->).
    now apply (channel_call_consistent fuel random
                 (CallSetMapping t axis effect)).
  - apply on_channel_cases in Hstep as (c & Hc & ->).
    now apply (channel_call_consistent fuel random
                 (CallSetPresence t isPresent)).
  - apply on_channel_cases in Hstep as (c & Hc & ->).
    now apply (channel_call_consistent fuel random (TimerFires id now)).
Qed.

Lemma reachable_consistent e : engine_reachable e -> engine_consistent e.
Proof.
  induction 1 as [| fuel random call e e' _ IH Hstep];
    [repeat split; reflexivity |].
  exact (engine_step_consistent fuel random call e e' IH Hstep).
Qed.

(** X11.  The two channels never disagree: in every state of the engine that
    the application can bring about, both channels carry the same tempo and
    the same override flag, and that flag is the engine's own. *)
Theorem engine_stays_consistent :
  forall e : SynthEngine, engine_reachable e -> engine_consistent e.
Proof.
  induction 1 as [| fuel random call e e' _ IH Hstep].
  - repeat split; reflexivity.
  - exact (engine_step_consistent fuel random call e e' IH Hstep).
Qed.



Lemma set_channel_reachable fuel random call hand c e :
  reachable (leftChannel e) /\ reachable (rightChannel e) ->
  perform fuel random call (Engine.channel hand e) = Some c ->
  reachable (leftChannel (Engine.set_channel hand c e))
  /\ reachable (rightChannel (Engine.set_channel hand c e)).
Proof.
  intros [Hl Hr] Hstep. destruct hand; cbn in *; split; try assumption.
  - exact (reachable_step fuel random call _ _ Hl Hstep).
  - exact (reachable_step fuel random call _ _ Hr Hstep).
Qed.

(** X12.  The engine drives its channels through their own calls only: in
    every state of the engine that the application can bring about, each of
    the two channels is in a state that a channel reaches by its calls and
    timeouts.  What holds of every reachable channel (one pending wake while
    playing, voices wired as their generators demand, a loop from the
    catalog) therefore holds of both channels of the engine. *)
Theorem engine_channels_reachable :
  forall e : SynthEngine,
    engine_reachable e ->
    reachable (leftChannel e) /\ reachable (rightChannel e).
Proof.
  induction 1 as [| fuel random call e e' _ IH Hstep];
    [split; exact reachable_new |].
  destruct call as [now | | b | t hand x y sp zv rot act | t hand axis effect
                    | t active | hand loopId now | t hand axis effect
                    | t hand isPresent | hand id now];
    cbn [engine_perform] in Hstep.
  - unfold Engine.start in Hstep.
    destruct (start fuel now random (leftChannel e)) as [l |] eqn:El;
      [| discriminate].
    destruct (start fuel now random (rightChannel e)) as [r |] eqn:Er;
      [| discriminate].
    injection Hstep as <-. destruct IH as [Hl Hr]. split; cbn.
    + exact (reachable_step fuel random (CallStart now) _ _ Hl El).
    + exact (reachable_step fuel random (CallStart now) _ _ Hr Er).
  - injection Hstep as <-. destruct IH as [Hl Hr]. split; cbn.
    + exact (reachable_step 0 random CallStop _ _ Hl eq_refl).
    + exact (reachable_step 0 random CallStop _ _ Hr eq_refl).
  - injection Hstep as <-. destruct IH as [Hl Hr]. split; cbn.
    + exact (reachable_step 0 random (AssignBpm b) _ _ Hl eq_refl).
    + exact (reachable_step 0 random (AssignBpm b) _ _ Hr eq_refl).
  - injection Hstep as <-. rewrite updateHand_state.
    apply (set_channel_reachable 0 random (CallUpdate t x y sp zv rot act));
      [exact IH | reflexivity].
  - injection Hstep as <-.
    apply (set_channel_reachable 0 random (CallSetMapping t axis effect));
      [exact IH | reflexivity].
  - injection Hstep as <-. unfold Engine.setDogMode.
    destruct (Bool.eqb (_isDogMode e) active); [exact IH |].
    destruct IH as [Hl Hr].
    assert (Hl' := reachable_step 0 random (AssignDogMode active) _ _ Hl eq_refl).
    assert (Hr' := reachable_step 0 random (AssignDogMode active) _ _ Hr eq_refl).
    destruct active; split; cbn; try assumption.
    + exact (reachable_step 0 random (CallSetPresence t true) _ _ Hl' eq_refl).
    + exact (reachable_step 0 random (CallSetPresence t true) _ _ Hr' eq_refl).
  - apply on_channel_cases in Hstep as (c & Hc & ->).
    now apply (set_channel_reachable fuel random (CallSetLoop loopId now)).
  - apply on_channel_cases in Hstep as (c & Hc & ->).
    now apply (set_channel_reachable fuel random (CallSetMapping t axis effect)).
  - apply on_channel_cases in Hstep as (c & Hc & ->).
    now apply (set_channel_reachable fuel random (CallSetPresence t isPresent)).
  - apply on_channel_cases in Hstep as (c & Hc & ->).
    now apply (set_channel_reachable fuel random (TimerFires id now)).
Qed.


(** X13.  The override switch is idempotent and closes nothing.  A second
    [setDogMode] with the flag that is already set changes nothing, so that
    calling it on every video frame is harmless; switching the mode off
    clears the flag on the engine and on both channels and leaves everything
    else, the presence gates included, as it is. *)
Theorem setDogMode_idempotent :
  forall (t t' : float) (active : bool) (e : SynthEngine),
    Engine.setDogMode t' active (Engine.setDogMode t active e)
    = Engine.setDogMode t active e
    /\ (_isDogMode e = true ->
        Engine.setDogMode t false e =
          mkSynthEngine (set_isDogMode false (leftChannel e))
            (set_isDogMode false (rightChannel e)) false).
Proof.
  intros t t' active e. split.
  - assert (H : _isDogMode (Engine.setDogMode t active e) = active).
    { unfold Engine.setDogMode.
      destruct (Bool.eqb (_isDogMode e) active) eqn:E;
        [now apply Bool.eqb_prop in E | now destruct active]. }
    unfold Engine.setDogMode at 1. now rewrite H, Bool.eqb_reflx.
  - intros H. unfold Engine.setDogMode. now rewrite H.
Qed.

End EngineInvariants.


(** ** The application *)

Section AppInvariants.

Context {impl : Implementation}.

Local Open Scope float_scope.

Variable Math_atan2 : float -> float -> float.

Lemma keeps_view_refl c : keeps_view c c.
Proof. repeat split. Qed.

Lemma keeps_view_trans c1 c2 c3 :
  keeps_view c1 c2 -> keeps_view c2 c3 -> keeps_view c1 c3.
Proof. unfold keeps_view. intros (? & ? & ?) (? & ? & ?). repeat split; congruence. Qed.

Lemma rearmed_view c : keeps_view c (rearmed c).
Proof. unfold rearmed. destruct (isPlaying c); repeat split. Qed.

(** The calls that the interface does not show leave its view alone. *)
Lemma perform_keeps_view fuel random call c c' :
  match call with
  | CallSetLoop _ _ | CallSetMapping _ _ _ | AssignBpm _ => False
  | _ => True
  end ->
  perform fuel random call c = Some c' -> keeps_view c c'.
Proof.
  destruct call as [now | | id now | loopId now | t x y sp zv rot act
                    | t axis effect | t isPresent | b | active];
    try contradiction; intros _; cbn [perform]; intros Hstep.
  - apply start_cases in Hstep as [-> | [_ ->]]; [apply keeps_view_refl |].
    eapply keeps_view_trans; [| apply rearmed_view]. repeat split.
  - injection Hstep as <-. unfold stop. cbn [timerID set_isPlaying].
    destruct (timerID c) as [[| n] |]; repeat split.
  - apply wake_cases in Hstep as [-> | (_ & k & ->)]; [apply keeps_view_refl |].
    eapply keeps_view_trans; [| apply rearmed_view].
    rewrite dispatch_eq. repeat split.
  - injection Hstep as <-. rewrite update_state. repeat split.
  - injection Hstep as <-. unfold setPresence.
    destruct (isDogMode c); repeat split.
  - injection Hstep as <-. repeat split.
Qed.

Lemma setLoop_view fuel now random loopId c c' :
  setLoop fuel now random loopId c = Some c' ->
  mapped c' = mapped c /\ bpm c' = bpm c.
Proof.
  intros H. apply setLoop_cases in H as (l & _ & [-> | [_ ->]]).
  - split; reflexivity.
  - destruct (rearmed_view
                (set_currentStep 0%Z
                   (set_nextNoteTime (now + 0.1)
                      (set_isPlaying true (set_currentLoop l c)))))
      as (Hm & _ & Hb).
    split; [rewrite Hm | rewrite Hb]; reflexivity.
Qed.

Lemma setMapping_view t axis effect c :
  currentLoop (setMapping t axis effect c) = currentLoop c
  /\ bpm (setMapping t axis effect c) = bpm c.
Proof.
  destruct (effect_calls_keep_sequencer 0 (fun _ => 0)
              (CallSetMapping t axis effect) c _ I eq_refl)
    as (_ & _ & _ & _ & Hl).
  destruct (perform_keeps_tempo_and_mode 0 (fun _ => 0)
              (CallSetMapping t axis effect) c _ I eq_refl) as [Hb _].
  now split.
Qed.


Lemma set_channel_view hand c e :
  keeps_view (Engine.channel hand e) c ->
  forall hand',
    keeps_view (Engine.channel hand' e)
      (Engine.channel hand' (Engine.set_channel hand c e)).
Proof.
  intros H hand'. destruct hand, hand'; cbn; try exact H; apply keeps_view_refl.
Qed.

(** The engine calls that the interface does not show leave its view of
    both channels alone. *)
Lemma engine_call_keeps_view fuel random call e e' :
  match call with
  | EngineSetBpm _ | EngineUpdateMapping _ _ _ _ | ChannelSetLoop _ _ _
  | ChannelSetMapping _ _ _ _ => False
  | _ => True
  end ->
  engine_perform fuel random call e = Some e' ->
  forall hand, keeps_view (Engine.channel hand e) (Engine.channel hand e').
Proof.
  destruct call as [now | | b | t hand x y sp zv rot act | t hand axis effect
                    | t active | hand loopId now | t hand axis effect
                    | t hand isPresent | hand id now];
    try contradiction; intros _; cbn [engine_perform]; intros Hstep.
  - unfold Engine.start in Hstep.
    destruct (start fuel now random (leftChannel e)) as [l |] eqn:El;
      [| discriminate].
    destruct (start fuel now random (rightChannel e)) as [r |] eqn:Er;
      [| discriminate].
    injection Hstep as <-. intros [|]; cbn.
    + exact (perform_keeps_view fuel random (CallStart now) _ _ I El).
    + exact (perform_keeps_view fuel random (CallStart now) _ _ I Er).
  - injection Hstep as <-. intros [|]; cbn.
    + exact (perform_keeps_view 0 random CallStop _ _ I eq_refl).
    + exact (perform_keeps_view 0 random CallStop _ _ I eq_refl).
  - injection Hstep as <-. rewrite updateHand_state. apply set_channel_view.
    exact (perform_keeps_view 0 random (CallUpdate t x y sp zv rot act)
             _ _ I eq_refl).
  - injection Hstep as <-. unfold Engine.setDogMode.
    destruct (Bool.eqb (_isDogMode e) active);
      [intros hand; apply keeps_view_refl |].
    destruct active; intros [|]; cbn; unfold setPresence; cbn; repeat split.
  - apply on_channel_cases in Hstep as (c & Hc & ->). apply set_channel_view.
    exact (perform_keeps_view fuel random (CallSetPresence t isPresent)
             _ _ I Hc).
  - apply on_channel_cases in Hstep as (c & Hc & ->). apply set_channel_view.
    exact (perform_keeps_view fuel random (TimerFires id now) _ _ I Hc).
Qed.

Lemma engine_call_keeps_flag fuel random call e e' :
  match call with EngineSetDogMode _ _ => False | _ => True end ->
  engine_perform fuel random call e = Some e' ->
  _isDogMode e' = _isDogMode e.
Proof.
  destruct call as [now | | b | t hand x y sp zv rot act | t hand axis effect
                    | t active | hand loopId now | t hand axis effect
                    | t hand isPresent | hand id now];
    try contradiction; intros _; cbn [engine_perform]; intros Hstep;
    try (injection Hstep as <-; rewrite ?updateHand_state;
         try destruct hand; reflexivity);
    try (apply on_channel_cases in Hstep as (c & Hc & ->);
         destruct hand; reflexivity).
  unfold Engine.start in Hstep.
  destruct (start fuel now random (leftChannel e)); [| discriminate].
  destruct (start fuel now random (rightChannel e)); [| discriminate].
  now injection Hstep as <-.
Qed.

Lemma app_ok_intro a e :
  synthRef a = Some e -> engine_reachable e ->
  (forall hand, shows hand e a) -> app_ok a.
Proof.
  intros He Hr Hs. split; [| now exists e].
  intros e0 He0 hand. rewrite He in He0. injection He0 as <-. apply Hs.
Qed.

Lemma app_ok_elim a :
  app_ok a ->
  exists e, synthRef a = Some e /\ engine_reachable e
            /\ forall hand, shows hand e a.
Proof.
  intros [Hm (e & He & Hr)]. exists e.
  split; [exact He |]. split; [exact Hr |].
  intros hand. exact (Hm e He hand).
Qed.

Lemma shows_keeps hand e e' a a' :
  shows hand e a ->
  keeps_view (Engine.channel hand e) (Engine.channel hand e') ->
  hand_xEffect (handConfig hand a') = hand_xEffect (handConfig hand a) ->
  hand_yEffect (handConfig hand a') = hand_yEffect (handConfig hand a) ->
  hand_zEffect (handConfig hand a') = hand_zEffect (handConfig hand a) ->
  hand_spreadEffect (handConfig hand a') = hand_spreadEffect (handConfig hand a) ->
  activeLoopId (handConfig hand a') = activeLoopId (handConfig hand a) ->
  app_bpm a' = app_bpm a ->
  shows hand e' a'.
Proof.
  unfold shows, keeps_view. cbv zeta.
  intros (Hm & Hl & Hb) (Hm' & Hl' & Hb') -> -> -> -> -> ->.
  repeat split; congruence.
Qed.

(** An engine call that the interface does not show, made by the
    application on its engine. *)
Lemma app_ok_engine_call fuel random call a e e' :
  match call with
  | EngineSetBpm _ | EngineUpdateMapping _ _ _ _ | ChannelSetLoop _ _ _
  | ChannelSetMapping _ _ _ _ => False
  | _ => True
  end ->
  app_ok a -> synthRef a = Some e ->
  engine_perform fuel random call e = Some e' ->
  app_ok (set_synthRef (Some e') a).
Proof.
  intros Hcall Hok He Hstep.
  destruct (app_ok_elim a Hok) as (e0 & He0 & Hr & Hs).
  rewrite He in He0. injection He0 as <-.
  apply (app_ok_intro _ e'); [reflexivity | |].
  - exact (engine_reachable_step fuel random call e e' Hr Hstep).
  - intros hand.
    apply (shows_keeps hand e e' a);
      [ apply Hs
      | now apply (engine_call_keeps_view fuel random call)
      | destruct hand; reflexivity .. ].
Qed.


(** A change of the hand's state that the view does not depend on. *)
Lemma app_ok_config hand f a :
  (forall h,
      hand_xEffect (f h) = hand_xEffect h /\ hand_yEffect (f h) = hand_yEffect h
      /\ hand_zEffect (f h) = hand_zEffect h
      /\ hand_spreadEffect (f h) = hand_spreadEffect h
      /\ activeLoopId (f h) = activeLoopId h) ->
  app_ok a -> app_ok (set_handConfig hand f a).
Proof.
  intros Hf Hok. destruct (app_ok_elim a Hok) as (e & He & Hr & Hs).
  apply (app_ok_intro _ e); [destruct hand; exact He | exact Hr |].
  intros hand'. specialize (Hs hand'). unfold shows in *. cbv zeta in *.
  destruct Hs as (Hm & Hl & Hb).
  destruct (Hf (leftHand a)) as (Hl1 & Hl2 & Hl3 & Hl4 & Hl5).
  destruct (Hf (rightHand a)) as (Hr1 & Hr2 & Hr3 & Hr4 & Hr5).
  destruct hand, hand'; cbn in *;
    rewrite ?Hl1, ?Hl2, ?Hl3, ?Hl4, ?Hl5, ?Hr1, ?Hr2, ?Hr3, ?Hr4, ?Hr5;
    repeat split; assumption.
Qed.

(** What the handler of a frame has done when it returns. *)
Lemma trackHand_cases appState t label landmarks a a' :
  AppLogic.trackHand Math_atan2 appState t label landmarks a = Some a' ->
  exists x y sp zv rot,
    a' = set_handConfig label (AppLogic.set_handValues x y zv sp rot)
           (set_synthRef
              (option_map
                 (fun e =>
                    state
                      (Engine.updateHand t label x y sp zv rot
                         (rotationActive label appState) e)) (synthRef a))
              a).
Proof.
  unfold AppLogic.trackHand, AppLogic.bind, AppLogic.onSynth.
  destruct (AppLogic.landmark landmarks 8) as [tip |]; [| discriminate].
  destruct (AppLogic.calculateHandMetrics Math_atan2 landmarks _) as [m |];
    [| discriminate].
  destruct (synthRef a) as [e |].
  - destruct label;
      match goal with
      | |- context [Engine.updateHand ?t ?l ?x ?y ?s ?z ?r ?b e] =>
        destruct (Engine.updateHand t l x y s z r b e) as [e' | e'] eqn:E
      end; intros [= <-]; do 5 eexists; cbn [option_map];
      unfold rotationActive; rewrite E; reflexivity.
  - destruct label; intros [= <-]; do 5 eexists; reflexivity.
Qed.

Lemma trackHand_ok appState t label landmarks a a' :
  app_ok a ->
  AppLogic.trackHand Math_atan2 appState t label landmarks a = Some a' ->
  app_ok a'
  /\ option_map _isDogMode (synthRef a') = option_map _isDogMode (synthRef a).
Proof.
  intros Hok H.
  destruct (trackHand_cases _ _ _ _ _ _ H) as (x & y & sp & zv & rot & ->).
  destruct (app_ok_elim a Hok) as (e & He & _). rewrite He. cbn [option_map].
  split.
  - apply app_ok_config; [intros h; repeat split |].
    apply (app_ok_engine_call 0 (fun _ => 0)
             (EngineUpdateHand t label x y sp zv rot
                (rotationActive label appState))
             a e); [exact I | exact Hok | exact He | reflexivity].
  - destruct label; cbn [set_handConfig set_synthRef synthRef option_map];
      rewrite updateHand_state; reflexivity.
Qed.

Lemma trackHands_ok appState t hs :
  forall a a',
    app_ok a -> Tracking.trackHands Math_atan2 appState t hs a = Some a' ->
    app_ok a'
    /\ option_map _isDogMode (synthRef a') = option_map _isDogMode (synthRef a).
Proof.
  induction hs as [| [label landmarks] hs IH]; intros a a' Hok;
    cbn [Tracking.trackHands].
  - intros [= <-]. now split.
  - destruct (AppLogic.trackHand Math_atan2 appState t label landmarks a)
      as [a1 |] eqn:E; [| discriminate].
    intros H. destruct (trackHand_ok _ _ _ _ _ _ Hok E) as [Hok1 Hf1].
    destruct (IH _ _ Hok1 H) as [Hok' Hf']. split; [exact Hok' | congruence].
Qed.

Lemma setDogMode_flag t active e : _isDogMode (Engine.setDogMode t active e) = active.
Proof.
  unfold Engine.setDogMode.
  destruct (Bool.eqb (_isDogMode e) active) eqn:E;
    [now apply Bool.eqb_prop in E | now destruct active].
Qed.

Lemma predictWebcam_ok appState t nowDetect nowCheck frame s s' :
  in_step s ->
  Tracking.predictWebcam Math_atan2 appState t nowDetect nowCheck frame s
  = Some s' ->
  in_step s'.
Proof.
  intros [Hm (e & He & Hr & Hflag)]. unfold Tracking.predictWebcam. cbv zeta.
  set (expiry := if (Z.rem _ _ =? 0)%Z then _ else _).
  set (active := (nowCheck <? expiry)%Z).
  rewrite He. cbn [option_map].
  assert (Hok : app_ok (Tracking.app s)) by (split; [exact Hm | now exists e]).
  assert (Hok1 : app_ok (set_synthRef (Some (Engine.setDogMode t active e))
                           (Tracking.app s))).
  { apply (app_ok_engine_call 0 (fun _ => 0) (EngineSetDogMode t active)
             (Tracking.app s) e); [exact I | exact Hok | exact He | reflexivity]. }
  destruct active eqn:Eactive.
  - intros [= <-]. destruct Hok1 as [Hm1 (e1 & He1 & Hr1)].
    split; [exact Hm1 |]. exists e1. repeat split; try assumption.
    cbn in He1. injection He1 as <-. cbn. apply setDogMode_flag.
  - destruct (Tracking.trackHands Math_atan2 appState t (Tracking.hands frame) _)
      as [a2 |] eqn:E; [| discriminate].
    intros [= <-].
    destruct (trackHands_ok _ _ _ _ _ Hok1 E) as [Hok2 Hf2].
    destruct (app_ok_elim a2 Hok2) as (e2 & He2 & Hr2 & Hs2).
    rewrite He2 in *. cbn [option_map set_synthRef synthRef] in *.
    set (lp := existsb (Tracking.hasLabel Left) (Tracking.hands frame)).
    set (rp := existsb (Tracking.hasLabel Right) (Tracking.hands frame)).
    assert (Hok3 : app_ok (set_synthRef
                             (Some (Engine.set_channel Left
                                      (setPresence t lp (leftChannel e2)) e2))
                             a2)).
    { apply (app_ok_engine_call 0 (fun _ => 0) (ChannelSetPresence t Left lp)
               a2 e2); [exact I | exact Hok2 | exact He2 | reflexivity]. }
    assert (Hok4 :
              app_ok
                (set_synthRef
                   (Some (Engine.set_channel Right
                            (setPresence t rp (rightChannel e2))
                            (Engine.set_channel Left
                               (setPresence t lp (leftChannel e2)) e2)))
                   (set_synthRef
                      (Some (Engine.set_channel Left
                               (setPresence t lp (leftChannel e2)) e2)) a2))).
    { apply (app_ok_engine_call 0 (fun _ => 0) (ChannelSetPresence t Right rp)
               _ _ _ I Hok3 eq_refl). reflexivity. }
    destruct Hok4 as [Hm4 (e4 & He4 & Hr4)].
    split; [exact Hm4 |]. exists e4. cbn in He4 |- *.
    repeat split; try assumption.
    injection He4 as <-. cbn. injection Hf2 as ->. apply setDogMode_flag.
Qed.


Lemma handleUpdateMapping_ok t hand axis effect a :
  app_ok a -> app_ok (Handlers.handleUpdateMapping t hand axis effect a).
Proof.
  intros Hok. destruct (app_ok_elim a Hok) as (e & He & Hr & Hs).
  unfold Handlers.handleUpdateMapping. rewrite He.
  apply (app_ok_intro _ (Engine.updateMapping t hand axis effect e)).
  - destruct hand; reflexivity.
  - exact (engine_reachable_step 0 (fun _ => 0)
             (EngineUpdateMapping t hand axis effect) e _ Hr eq_refl).
  - intros hand'. pose proof (Hs hand') as Hv. unfold shows in *.
    cbv zeta in *. destruct Hv as (Hm & Hl & Hb).
    unfold Engine.updateMapping.
    destruct (setMapping_view t axis effect (Engine.channel hand e))
      as [Hloop Hbpm].
    pose proof (setMapping_assigns t axis effect (Engine.channel hand e)) as Ha.
    destruct (Hs hand) as (Hm0 & _ & _). unfold mapped in Hm0.
    injection Hm0 as Hx Hy Hz Hsp.
    destruct hand, hand'; cbn in *;
      rewrite ?Ha, ?Hloop, ?Hbpm, ?Hx, ?Hy, ?Hz, ?Hsp;
      repeat split; try assumption; destruct axis; reflexivity.
Qed.

Lemma handleToggleRotation_ok hand a :
  app_ok a -> app_ok (Handlers.handleToggleRotation hand a).
Proof. apply app_ok_config. intros h. repeat split. Qed.

Lemma onBpmInput_ok parsed a : app_ok a -> app_ok (AppLogic.onBpmInput parsed a).
Proof.
  intros Hok. destruct (app_ok_elim a Hok) as (e & He & Hr & Hs).
  unfold AppLogic.onBpmInput, AppLogic.handleBpmChange. rewrite He.
  cbn [option_map].
  set (clamped := Math_max 40 (Math_min 300 (or_default parsed 128))).
  apply (app_ok_intro _ (Engine.setBpm clamped e)); [reflexivity | |].
  - exact (engine_reachable_step 0 (fun _ => 0) (EngineSetBpm clamped) e _
             Hr eq_refl).
  - intros hand. destruct (Hs hand) as (Hm & Hl & Hb).
    destruct hand; repeat split; assumption.
Qed.

Lemma select_ok fuel now random hand newLoopId a e c :
  match newLoopId with
  | Some id => exists l, In l AVAILABLE_LOOPS /\ id = loop_id l
  | None => True
  end ->
  app_ok a -> synthRef a = Some e ->
  setLoop fuel now random newLoopId (Engine.channel hand e) = Some c ->
  app_ok (set_handConfig hand (set_activeLoopId newLoopId)
            (set_synthRef (Some (Engine.set_channel hand c e)) a)).
Proof.
  intros Hid Hok He E. destruct (app_ok_elim a Hok) as (e0 & He0 & Hr & Hs).
  rewrite He in He0. injection He0 as <-.
  apply (app_ok_intro _ (Engine.set_channel hand c e)).
  - destruct hand; reflexivity.
  - apply (engine_reachable_step fuel random (ChannelSetLoop hand newLoopId now)
             e _ Hr).
    cbn [engine_perform]. unfold on_channel. now rewrite E.
  - destruct (setLoop_view _ _ _ _ _ _ E) as [Hmap Hbpm].
    assert (Hloop : option_map loop_id (currentLoop c) = newLoopId).
    { destruct newLoopId as [id |].
      - destruct Hid as (l & Hl & ->).
        now rewrite (setLoop_found _ _ _ _ _ _ Hl E).
      - rewrite setLoop_clears in E by exact I. now injection E as <-. }
    intros hand'. pose proof (Hs hand') as Hv. unfold shows in *.
    cbv zeta in *. destruct Hv as (Hm & Hlp & Hb).
    destruct hand, hand'; cbn in *; rewrite ?Hmap, ?Hbpm, ?Hloop;
      repeat split; assumption.
Qed.

Lemma handleSelectLoop_ok fuel now random hand l a a' :
  In l AVAILABLE_LOOPS -> app_ok a ->
  Handlers.handleSelectLoop fuel now random hand (loop_id l) a = Some a' ->
  app_ok a'
  /\ option_map _isDogMode (synthRef a') = option_map _isDogMode (synthRef a).
Proof.
  intros Hl Hok. destruct (app_ok_elim a Hok) as (e & He & Hr & Hs).
  unfold Handlers.handleSelectLoop. rewrite He.
  set (newLoopId := if Handlers.same_loop _ _ then None else Some (loop_id l)).
  destruct (setLoop fuel now random newLoopId (Engine.channel hand e))
    as [c |] eqn:E; [| discriminate].
  intros [= <-]. split; [| destruct hand; reflexivity].
  apply (select_ok fuel now random hand newLoopId a e c);
    [| exact Hok | exact He | exact E].
  unfold newLoopId. destruct (Handlers.same_loop _ _); [exact I |].
  now exists l.
Qed.

Lemma handleUpdateMapping_flag t hand axis effect a :
  option_map _isDogMode
    (synthRef (Handlers.handleUpdateMapping t hand axis effect a))
  = option_map _isDogMode (synthRef a).
Proof.
  unfold Handlers.handleUpdateMapping.
  destruct (synthRef a) as [e |] eqn:He; [| now rewrite He].
  destruct hand; reflexivity.
Qed.

(** With an engine, randomizing a hand is selecting the drawn loop and
    then choosing the four drawn mappings. *)
Lemma handleRandomize_eq fuel now random hand l x y z spread a e c :
  synthRef a = Some e ->
  setLoop fuel now random (Some (loop_id l)) (Engine.channel hand e) = Some c ->
  Handlers.handleRandomize fuel now random hand l x y z spread a
  = Some (Handlers.handleUpdateMapping now hand AxisSpread spread
            (Handlers.handleUpdateMapping now hand AxisZ z
               (Handlers.handleUpdateMapping now hand AxisY y
                  (Handlers.handleUpdateMapping now hand AxisX x
                     (set_handConfig hand
                        (set_activeLoopId (Some (loop_id l)))
                        (set_synthRef (Some (Engine.set_channel hand c e))
                           a)))))).
Proof.
  intros He E. unfold Handlers.handleRandomize. rewrite He, E.
  destruct hand; reflexivity.
Qed.

Lemma handleRandomize_ok fuel now random hand l x y z spread a a' :
  In l AVAILABLE_LOOPS -> app_ok a ->
  Handlers.handleRandomize fuel now random hand l x y z spread a = Some a' ->
  app_ok a'
  /\ option_map _isDogMode (synthRef a') = option_map _isDogMode (synthRef a).
Proof.
  intros Hl Hok H. destruct (app_ok_elim a Hok) as (e & He & Hr & Hs).
  destruct (setLoop fuel now random (Some (loop_id l)) (Engine.channel hand e))
    as [c |] eqn:E.
  - rewrite (handleRandomize_eq _ _ _ _ _ _ _ _ _ _ _ _ He E) in H.
    injection H as <-. split.
    + do 4 apply handleUpdateMapping_ok.
      apply (select_ok fuel now random hand (Some (loop_id l)) a e c);
        [now exists l | exact Hok | exact He | exact E].
    + rewrite 4 handleUpdateMapping_flag, He. destruct hand; reflexivity.
  - unfold Handlers.handleRandomize in H. rewrite He, E in H. discriminate.
Qed.

Lemma initial_engine_reachable :
  engine_reachable
    (mkSynthEngine (install 0 initial_left (set_bpm 128 newLoopChannel))
       (install 0 initial_right (set_bpm 128 newLoopChannel)) false).
Proof.
  assert (Hstep :
            forall call e e',
              engine_reachable e ->
              engine_perform 0 (fun _ => 0) call e = Some e' ->
              engine_reachable e')
    by (intros call e e'; apply engine_reachable_step).
  set (e1 := Engine.setBpm 128 Engine.new).
  set (e2 := Engine.set_channel Left
               (setMapping 0 AxisX LPF (Engine.channel Left e1)) e1).
  set (e3 := Engine.set_channel Left
               (setMapping 0 AxisY VOLUME (Engine.channel Left e2)) e2).
  set (e4 := Engine.set_channel Left
               (setMapping 0 AxisZ NONE (Engine.channel Left e3)) e3).
  set (e5 := Engine.set_channel Left
               (setMapping 0 AxisSpread FLANGER (Engine.channel Left e4)) e4).
  set (e6 := Engine.set_channel Right
               (setMapping 0 AxisX DELAY (Engine.channel Right e5)) e5).
  set (e7 := Engine.set_channel Right
               (setMapping 0 AxisY REVERB (Engine.channel Right e6)) e6).
  set (e8 := Engine.set_channel Right
               (setMapping 0 AxisZ NONE (Engine.channel Right e7)) e7).
  set (e9 := Engine.set_channel Right
               (setMapping 0 AxisSpread HPF (Engine.channel Right e8)) e8).
  assert (H1 : engine_reachable e1)
    by (apply (Hstep (EngineSetBpm 128) Engine.new);
        [exact engine_reachable_new | reflexivity]).
  assert (H2 : engine_reachable e2)
    by (apply (Hstep (ChannelSetMapping 0 Left AxisX LPF) e1);
        [exact H1 | reflexivity]).
  assert (H3 : engine_reachable e3)
    by (apply (Hstep (ChannelSetMapping 0 Left AxisY VOLUME) e2);
        [exact H2 | reflexivity]).
  assert (H4 : engine_reachable e4)
    by (apply (Hstep (ChannelSetMapping 0 Left AxisZ NONE) e3);
        [exact H3 | reflexivity]).
  assert (H5 : engine_reachable e5)
    by (apply (Hstep (ChannelSetMapping 0 Left AxisSpread FLANGER) e4);
        [exact H4 | reflexivity]).
  assert (H6 : engine_reachable e6)
    by (apply (Hstep (ChannelSetMapping 0 Right AxisX DELAY) e5);
        [exact H5 | reflexivity]).
  assert (H7 : engine_reachable e7)
    by (apply (Hstep (ChannelSetMapping 0 Right AxisY REVERB) e6);
        [exact H6 | reflexivity]).
  assert (H8 : engine_reachable e8)
    by (apply (Hstep (ChannelSetMapping 0 Right AxisZ NONE) e7);
        [exact H7 | reflexivity]).
  assert (H9 : engine_reachable e9)
    by (apply (Hstep (ChannelSetMapping 0 Right AxisSpread HPF) e8);
        [exact H8 | reflexivity]).
  replace (mkSynthEngine
             (install 0 initial_left (set_bpm 128 newLoopChannel))
             (install 0 initial_right (set_bpm 128 newLoopChannel)) false)
    with e9 by (vm_compute; reflexivity).
  exact H9.
Qed.

Lemma initial_app_ok : app_ok initial_app.
Proof.
  apply (app_ok_intro _
           (mkSynthEngine
              (install 0 initial_left (set_bpm 128 newLoopChannel))
              (install 0 initial_right (set_bpm 128 newLoopChannel)) false));
    [reflexivity | exact initial_engine_reachable |].
  intros [|]; repeat split; vm_compute; reflexivity.
Qed.

Lemma initial_in_step : in_step initial_tracker.
Proof.
  split; [exact (proj1 initial_app_ok) |].
  exists (mkSynthEngine (install 0 initial_left (set_bpm 128 newLoopChannel))
            (install 0 initial_right (set_bpm 128 newLoopChannel)) false).
  split; [reflexivity |]. split; [exact initial_engine_reachable | reflexivity].
Qed.

Lemma in_step_intro a st c r fc ex shown :
  app_ok a -> option_map _isDogMode (synthRef a) = Some shown ->
  in_step (Tracking.mkTracker a st c r fc ex shown).
Proof.
  intros [Hm (e & He & Hr)] Hf. split; [exact Hm |]. exists e.
  split; [exact He |]. split; [exact Hr |].
  rewrite He in Hf. now injection Hf.
Qed.

Lemma in_step_elim s :
  in_step s ->
  app_ok (Tracking.app s)
  /\ option_map _isDogMode (synthRef (Tracking.app s))
     = Some (Tracking.isDogModeShown s).
Proof.
  intros [Hm (e & He & Hr & Hf)]. split; [split; [exact Hm | now exists e] |].
  rewrite He. cbn. now f_equal.
Qed.

Lemma app_step_in_step fuel random event s s' :
  in_step s -> enabled event s ->
  app_perform Math_atan2 fuel random event s = Some s' -> in_step s'.
Proof.
  intros Hin Hen Hstep. destruct (in_step_elim s Hin) as [Hok Hf].
  destruct (app_ok_elim _ Hok) as (e & He & Hr & _).
  destruct event as [| now | | now hand l | t hand axis effect | hand
                     | now hand l x y zv sp | parsed
                     | t nowDetect nowCheck frame | hand id now];
    cbn [app_perform enabled] in Hstep, Hen.
  - injection Hstep as <-. now apply in_step_intro.
  - rewrite He in Hstep. cbn [option_map] in Hstep.
    destruct (Engine.start fuel now random e) as [e' |] eqn:E;
      [| discriminate].
    injection Hstep as <-. apply in_step_intro.
    + now apply (app_ok_engine_call fuel random (EngineStart now) _ e).
    + rewrite <- Hf, He. cbn. f_equal.
      now apply (engine_call_keeps_flag fuel random (EngineStart now) e).
  - injection Hstep as <-. now apply in_step_intro.
  - destruct (Handlers.handleSelectLoop fuel now random hand (loop_id l)
                (Tracking.app s)) as [a' |] eqn:E; [| discriminate].
    injection Hstep as <-. destruct Hen as [_ Hl].
    destruct (handleSelectLoop_ok fuel now random hand l (Tracking.app s) a'
                Hl Hok E) as [Hok' Hf'].
    apply in_step_intro; [exact Hok' | congruence].
  - injection Hstep as <-. apply in_step_intro.
    + now apply handleUpdateMapping_ok.
    + now rewrite handleUpdateMapping_flag.
  - injection Hstep as <-. apply in_step_intro.
    + now apply handleToggleRotation_ok.
    + rewrite <- Hf. destruct hand; reflexivity.
  - destruct (Handlers.handleRandomize fuel now random hand l x y zv sp
                (Tracking.app s)) as [a' |] eqn:E; [| discriminate].
    injection Hstep as <-. destruct Hen as [_ Hl].
    destruct (handleRandomize_ok fuel now random hand l x y zv sp
                (Tracking.app s) a' Hl Hok E) as [Hok' Hf'].
    apply in_step_intro; [exact Hok' | congruence].
  - injection Hstep as <-. apply in_step_intro.
    + now apply onBpmInput_ok.
    + rewrite <- Hf. unfold AppLogic.onBpmInput, AppLogic.handleBpmChange.
      rewrite He. reflexivity.
  - destruct (Tracking.running s) as [appState |].
    + now apply (predictWebcam_ok appState t nowDetect nowCheck frame s).
    + now injection Hstep as <-.
  - rewrite He in Hstep.
    destruct (on_channel hand (wake fuel now random id) e) as [e' |] eqn:E;
      [| discriminate].
    injection Hstep as <-. apply in_step_intro.
    + now apply (app_ok_engine_call fuel random
                   (ChannelTimerFires hand id now) _ e).
    + rewrite <- Hf, He. cbn. f_equal.
      now apply (engine_call_keeps_flag fuel random
                   (ChannelTimerFires hand id now) e).
Qed.

(** X14.  The interface and the engine stay in step.  From the mounted
    application on, through the start of the camera, clicks on the loops of
    the deck, mapping choices, rotation toggles, randomizations, tempo
    edits, video frames and sequencer wakes, the mapping table, the active
    loop and the tempo shown for each hand are those of the hand's channel,
    the override indicator is the engine's override flag, and the engine is
    in a state that its own calls reach. *)
Theorem app_stays_in_step :
  forall s : Tracking.Tracker, app_reachable Math_atan2 s -> in_step s.
Proof.
  induction 1 as [| fuel random event s s' _ IH Hen Hstep].
  - exact initial_in_step.
  - exact (app_step_in_step fuel random event s s' IH Hen Hstep).
Qed.

(** ** The rotation toggle and the frame loop *)

Lemma rearmed_rotation c : rotationFilterNode (rearmed c) = rotationFilterNode c.
Proof. unfold rearmed. destruct (isPlaying c); reflexivity. Qed.

Lemma perform_keeps_rotation fuel random call c c' :
  match call with CallUpdate _ _ _ _ _ _ _ => False | _ => True end ->
  perform fuel random call c = Some c' ->
  rotationFilterNode c' = rotationFilterNode c.
Proof.
  destruct call as [now | | id now | loopId now | t x y sp zv rot act
                    | t axis effect | t isPresent | b | active];
    try contradiction; intros _; cbn [perform]; intros Hstep.
  - apply start_cases in Hstep as [-> | [_ ->]]; [reflexivity |].
    now rewrite rearmed_rotation.
  - injection Hstep as <-. unfold stop. cbn [timerID set_isPlaying].
    destruct (timerID c) as [[| n] |]; reflexivity.
  - apply wake_cases in Hstep as [-> | (_ & k & ->)]; [reflexivity |].
    rewrite rearmed_rotation, dispatch_eq. reflexivity.
  - apply setLoop_cases in Hstep as (l & _ & [-> | [_ ->]]); [reflexivity |].
    now rewrite rearmed_rotation.
  - injection Hstep as <-.
    destruct (setMapping_eq t axis effect c) as (bv & bf & br & bd & bl & ->).
    destruct bv, bf, br, bd, bl, axis; reflexivity.
  - injection Hstep as <-. unfold setPresence.
    destruct (isDogMode c); reflexivity.
  - now injection Hstep as <-.
  - now injection Hstep as <-.
Qed.

Lemma bypassed_same c c' :
  rotationFilterNode c' = rotationFilterNode c ->
  rotation_bypassed c -> rotation_bypassed c'.
Proof. unfold rotation_bypassed. now intros ->. Qed.

Lemma update_bypasses t x y sp zv rot c :
  rotation_bypassed c ->
  rotation_bypassed (state (update t x y sp zv rot false c)).
Proof.
  intros (Ht & Hv & Ha).
  pose proof (update_rotationFilter t x y sp zv rot false c) as H.
  cbv zeta in H. cbn [andb] in H.
  destruct (returns (applyAxes t x y sp zv (sp <? 0.15) c));
    destruct H as [_ H]; unfold rotation_bypassed; rewrite H.
  - change (accepts 22000) with true.
    cbn [filterType frequency approach value automation target].
    repeat split. exact Hv.
  - repeat split; assumption.
Qed.

Lemma set_channel_quiet hand c e :
  rotation_bypassed c -> engine_quiet e ->
  engine_quiet (Engine.set_channel hand c e).
Proof. intros Hc [Hl Hr]. destruct hand; split; assumption. Qed.

Lemma channel_quiet hand e : engine_quiet e -> rotation_bypassed (Engine.channel hand e).
Proof. intros [Hl Hr]. destruct hand; assumption. Qed.

(** Every call of the engine, a gesture sample with the rotation filter
    inactive included, leaves the rotation filters bypassed. *)
Lemma engine_call_quiet fuel random call e e' :
  match call with
  | EngineUpdateHand _ _ _ _ _ _ _ act => act = false
  | _ => True
  end ->
  engine_perform fuel random call e = Some e' ->
  engine_quiet e -> engine_quiet e'.
Proof.
  destruct call as [now | | b | t hand x y sp zv rot act | t hand axis effect
                    | t active | hand loopId now | t hand axis effect
                    | t hand isPresent | hand id now];
    intros Hcall; cbn [engine_perform]; intros Hstep Hq;
    pose proof Hq as [Hl Hr].
  - unfold Engine.start in Hstep.
    destruct (start fuel now random (leftChannel e)) as [l |] eqn:El;
      [| discriminate].
    destruct (start fuel now random (rightChannel e)) as [r |] eqn:Er;
      [| discriminate].
    injection Hstep as <-. split; cbn.
    + apply (bypassed_same (leftChannel e)); [| exact Hl].
      exact (perform_keeps_rotation fuel random (CallStart now) _ _ I El).
    + apply (bypassed_same (rightChannel e)); [| exact Hr].
      exact (perform_keeps_rotation fuel random (CallStart now) _ _ I Er).
  - injection Hstep as <-. split; cbn.
    + apply (bypassed_same (leftChannel e)); [| exact Hl].
      exact (perform_keeps_rotation 0 random CallStop _ _ I eq_refl).
    + apply (bypassed_same (rightChannel e)); [| exact Hr].
      exact (perform_keeps_rotation 0 random CallStop _ _ I eq_refl).
  - injection Hstep as <-. split; assumption.
  - injection Hstep as <-. subst act. rewrite updateHand_state.
    apply set_channel_quiet; [| exact Hq].
    apply update_bypasses. now apply channel_quiet.
  - injection Hstep as <-. apply set_channel_quiet; [| exact Hq].
    apply (bypassed_same (Engine.channel hand e)); [| now apply channel_quiet].
    exact (perform_keeps_rotation 0 random (CallSetMapping t axis effect)
             _ _ I eq_refl).
  - injection Hstep as <-. unfold Engine.setDogMode.
    destruct (Bool.eqb (_isDogMode e) active); [exact Hq |].
    destruct active; split; cbn; unfold setPresence; cbn; assumption.
  - apply on_channel_cases in Hstep as (c & Hc & ->).
    apply set_channel_quiet; [| exact Hq].
    apply (bypassed_same (Engine.channel hand e)); [| now apply channel_quiet].
    exact (perform_keeps_rotation fuel random (CallSetLoop loopId now) _ _ I Hc).
  - apply on_channel_cases in Hstep as (c & Hc & ->).
    apply set_channel_quiet; [| exact Hq].
    apply (bypassed_same (Engine.channel hand e)); [| now apply channel_quiet].
    injection Hc as <-.
    exact (perform_keeps_rotation 0 random (CallSetMapping t axis effect)
             _ _ I eq_refl).
  - apply on_channel_cases in Hstep as (c & Hc & ->).
    apply set_channel_quiet; [| exact Hq].
    apply (bypassed_same (Engine.channel hand e)); [| now apply channel_quiet].
    exact (perform_keeps_rotation fuel random (CallSetPresence t isPresent)
             _ _ I Hc).
  - apply on_channel_cases in Hstep as (c & Hc & ->).
    apply set_channel_quiet; [| exact Hq].
    apply (bypassed_same (Engine.channel hand e)); [| now apply channel_quiet].
    exact (perform_keeps_rotation fuel random (TimerFires id now) _ _ I Hc).
Qed.

Lemma quiet_engine_call fuel random call a e e' :
  match call with
  | EngineUpdateHand _ _ _ _ _ _ _ act => act = false
  | _ => True
  end ->
  quiet a -> synthRef a = Some e ->
  engine_perform fuel random call e = Some e' ->
  quiet (set_synthRef (Some e') a).
Proof.
  intros Hcall Hq He Hstep e0 He0. cbn in He0. injection He0 as <-.
  exact (engine_call_quiet fuel random call e e' Hcall Hstep (Hq e He)).
Qed.

Lemma quiet_config hand f a : quiet a -> quiet (set_handConfig hand f a).
Proof. intros Hq e He. apply Hq. destruct hand; exact He. Qed.

Lemma quiet_none a : synthRef a = None -> quiet a.
Proof. intros H e He. rewrite H in He. discriminate. Qed.

Lemma handleUpdateMapping_quiet t hand axis effect a :
  quiet a -> quiet (Handlers.handleUpdateMapping t hand axis effect a).
Proof.
  intros Hq. unfold Handlers.handleUpdateMapping.
  destruct (synthRef a) as [e |] eqn:He; [| exact Hq].
  apply quiet_config.
  exact (quiet_engine_call 0 (fun _ => 0)
           (EngineUpdateMapping t hand axis effect) a e _ I Hq He eq_refl).
Qed.

Lemma select_quiet fuel now random hand newLoopId a e c :
  quiet a -> synthRef a = Some e ->
  setLoop fuel now random newLoopId (Engine.channel hand e) = Some c ->
  quiet (set_handConfig hand (set_activeLoopId newLoopId)
           (set_synthRef (Some (Engine.set_channel hand c e)) a)).
Proof.
  intros Hq He E. apply quiet_config.
  apply (quiet_engine_call fuel random (ChannelSetLoop hand newLoopId now)
           a e _ I Hq He).
  cbn [engine_perform]. unfold on_channel. now rewrite E.
Qed.

Lemma handleSelectLoop_quiet fuel now random hand loopId a a' :
  quiet a ->
  Handlers.handleSelectLoop fuel now random hand loopId a = Some a' ->
  quiet a'.
Proof.
  intros Hq. unfold Handlers.handleSelectLoop.
  destruct (synthRef a) as [e |] eqn:He; [| now intros [= <-]].
  set (newLoopId := if Handlers.same_loop _ _ then None else Some loopId).
  destruct (setLoop fuel now random newLoopId (Engine.channel hand e))
    as [c |] eqn:E; [| discriminate].
  intros [= <-]. now apply (select_quiet fuel now random).
Qed.

Lemma handleRandomize_quiet fuel now random hand l x y z spread a a' :
  quiet a ->
  Handlers.handleRandomize fuel now random hand l x y z spread a = Some a' ->
  quiet a'.
Proof.
  intros Hq H. destruct (synthRef a) as [e |] eqn:He.
  - destruct (setLoop fuel now random (Some (loop_id l))
                (Engine.channel hand e)) as [c |] eqn:E.
    + rewrite (handleRandomize_eq _ _ _ _ _ _ _ _ _ _ _ _ He E) in H.
      injection H as <-. do 4 apply handleUpdateMapping_quiet.
      now apply (select_quiet fuel now random).
    + unfold Handlers.handleRandomize in H. rewrite He, E in H. discriminate.
  - unfold Handlers.handleRandomize in H. rewrite He in H.
    injection H as <-. apply quiet_none. destruct hand; reflexivity.
Qed.

Lemma onBpmInput_quiet parsed a : quiet a -> quiet (AppLogic.onBpmInput parsed a).
Proof.
  intros Hq e0 He0. unfold AppLogic.onBpmInput, AppLogic.handleBpmChange in He0.
  cbn [synthRef] in He0.
  destruct (synthRef a) as [e |] eqn:He; [| discriminate].
  injection He0 as <-.
  exact (engine_call_quiet 0 (fun _ => 0) (EngineSetBpm _) e _ I eq_refl
           (Hq e He)).
Qed.

Lemma rotation_off_active label a : rotation_off a -> rotationActive label a = false.
Proof. intros [Hl Hr]. destruct label; assumption. Qed.

Lemma trackHands_quiet appState t hs :
  rotation_off appState ->
  forall a a',
    quiet a -> Tracking.trackHands Math_atan2 appState t hs a = Some a' ->
    quiet a'.
Proof.
  intros Hoff. induction hs as [| [label landmarks] hs IH]; intros a a' Hq;
    cbn [Tracking.trackHands].
  - now intros [= <-].
  - destruct (AppLogic.trackHand Math_atan2 appState t label landmarks a)
      as [a1 |] eqn:E; [| discriminate].
    apply IH.
    destruct (trackHand_cases _ _ _ _ _ _ E) as (x & y & sp & zv & rot & ->).
    apply quiet_config. rewrite (rotation_off_active label _ Hoff).
    destruct (synthRef a) as [e |] eqn:He.
    + exact (quiet_engine_call 0 (fun _ => 0)
               (EngineUpdateHand t label x y sp zv rot false) a e _
               eq_refl Hq He eq_refl).
    + apply quiet_none. reflexivity.
Qed.

Lemma predictWebcam_frame appState t nowDetect nowCheck frame s s' :
  Tracking.predictWebcam Math_atan2 appState t nowDetect nowCheck frame s
  = Some s' ->
  Tracking.status s' = Tracking.status s
  /\ Tracking.starting s' = Tracking.starting s
  /\ Tracking.running s' = Tracking.running s
  /\ Tracking.frameCount s' = (Tracking.frameCount s + 1)%Z.
Proof.
  unfold Tracking.predictWebcam. cbv zeta.
  destruct (nowCheck <? _)%Z; [now intros [= <-] |].
  destruct (Tracking.trackHands _ _ _ _ _) as [a2 |]; [| discriminate].
  now intros [= <-].
Qed.

Lemma predictWebcam_quiet appState t nowDetect nowCheck frame s s' :
  rotation_off appState -> quiet (Tracking.app s) ->
  Tracking.predictWebcam Math_atan2 appState t nowDetect nowCheck frame s
  = Some s' ->
  quiet (Tracking.app s').
Proof.
  intros Hoff Hq. unfold Tracking.predictWebcam. cbv zeta.
  set (expiry := if (Z.rem _ _ =? 0)%Z then _ else _).
  set (active := (nowCheck <? expiry)%Z).
  assert (Hq1 : quiet (set_synthRef
                         (option_map (Engine.setDogMode t active)
                            (synthRef (Tracking.app s))) (Tracking.app s))).
  { destruct (synthRef (Tracking.app s)) as [e |] eqn:He.
    - exact (quiet_engine_call 0 (fun _ => 0) (EngineSetDogMode t active)
               _ e _ I Hq He eq_refl).
    - now apply quiet_none. }
  destruct active.
  - now intros [= <-].
  - destruct (Tracking.trackHands Math_atan2 appState t (Tracking.hands frame) _)
      as [a2 |] eqn:E; [| discriminate].
    intros [= <-]. cbn [Tracking.app].
    pose proof (trackHands_quiet _ _ _ Hoff _ _ Hq1 E) as Hq2.
    intros e0 He0. cbn [synthRef set_synthRef] in He0.
    destruct (synthRef a2) as [e2 |] eqn:He2; [| discriminate].
    injection He0 as <-. destruct (Hq2 e2 He2) as [Hl Hr].
    split; cbn [leftChannel rightChannel]; unfold setPresence.
    + destruct (isDogMode (leftChannel e2)); exact Hl.
    + destruct (isDogMode (rightChannel e2)); exact Hr.
Qed.

Lemma initial_toggles_unseen : toggles_unseen initial_tracker.
Proof.
  split; [| split; [| split]].
  - intros _. repeat split.
  - intros appState H. discriminate H.
  - intros appState H. discriminate H.
  - intros e He. unfold initial_tracker, initial_app in He.
    cbn [Tracking.app synthRef] in He. injection He as <-.
    split; (split; [| split]); vm_compute; try reflexivity; exact I.
Qed.

Lemma app_step_toggles_unseen fuel random event s s' :
  toggles_unseen s -> enabled event s ->
  app_perform Math_atan2 fuel random event s = Some s' -> toggles_unseen s'.
Proof.
  intros (Hidle & Hstart & Hrun & Hq) Hen Hstep.
  assert (Hlive : Tracking.status s = LIVE -> ~ Tracking.status s <> LIVE)
    by (intros H H'; exact (H' H)).
  destruct event as [| now | | now hand l | t hand axis effect | hand
                     | now hand l x y zv sp | parsed
                     | t nowDetect nowCheck frame | hand id now];
    cbn [app_perform enabled] in Hstep, Hen.
  - injection Hstep as <-.
    assert (Hne : Tracking.status s <> LIVE) by (rewrite Hen; discriminate).
    destruct (Hidle Hne) as [Hoff Hnone].
    split; [| split; [| split]].
    + intros _. now split.
    + intros appState [= <-]. exact Hoff.
    + exact Hrun.
    + exact Hq.
  - assert (Hq' : forall synth,
               match synthRef (Tracking.app s) with
               | None => Some None
               | Some e => option_map Some (Engine.start fuel now random e)
               end = Some synth ->
               quiet (set_synthRef synth (Tracking.app s))).
    { intros synth H. destruct (synthRef (Tracking.app s)) as [e |] eqn:He.
      - destruct (Engine.start fuel now random e) as [e' |] eqn:E;
          [| discriminate].
        injection H as <-.
        exact (quiet_engine_call fuel random (EngineStart now) _ e e' I Hq
                 He E).
      - injection H as <-. now apply quiet_none. }
    destruct (match synthRef (Tracking.app s) with
              | None => Some None
              | Some e => option_map Some (Engine.start fuel now random e)
              end) as [synth |]; [| discriminate].
    injection Hstep as <-. split; [| split; [| split]].
    + intros H. now contradiction H.
    + exact Hstart.
    + exact Hstart.
    + now apply Hq'.
  - injection Hstep as <-.
    assert (Hne : Tracking.status s <> LIVE) by (rewrite Hen; discriminate).
    split; [| split; [| split]].
    + intros _. exact (Hidle Hne).
    + exact Hstart.
    + exact Hrun.
    + exact Hq.
  - destruct (Handlers.handleSelectLoop fuel now random hand (loop_id l)
                (Tracking.app s)) as [a' |] eqn:E; [| discriminate].
    injection Hstep as <-. destruct Hen as [Hen _].
    split; [| split; [| split]].
    + intros H. now contradiction (Hlive Hen).
    + exact Hstart.
    + exact Hrun.
    + exact (handleSelectLoop_quiet _ _ _ _ _ _ _ Hq E).
  - injection Hstep as <-. split; [| split; [| split]].
    + intros H. now contradiction (Hlive Hen).
    + exact Hstart.
    + exact Hrun.
    + now apply handleUpdateMapping_quiet.
  - injection Hstep as <-. split; [| split; [| split]].
    + intros H. now contradiction (Hlive Hen).
    + exact Hstart.
    + exact Hrun.
    + now apply quiet_config.
  - destruct (Handlers.handleRandomize fuel now random hand l x y zv sp
                (Tracking.app s)) as [a' |] eqn:E; [| discriminate].
    injection Hstep as <-. destruct Hen as [Hen _].
    split; [| split; [| split]].
    + intros H. now contradiction (Hlive Hen).
    + exact Hstart.
    + exact Hrun.
    + exact (handleRandomize_quiet _ _ _ _ _ _ _ _ _ _ _ Hq E).
  - injection Hstep as <-. split; [| split; [| split]].
    + intros H. now contradiction (Hlive Hen).
    + exact Hstart.
    + exact Hrun.
    + now apply onBpmInput_quiet.
  - assert (Hinv : toggles_unseen s)
      by (split; [| split; [| split]]; assumption).
    clear Hidle Hstart Hrun Hq.
    destruct (Tracking.running s) as [appState |] eqn:Er;
      [| injection Hstep as <-; exact Hinv].
    destruct Hinv as (Hidle & Hstart & Hrun & Hq).
    destruct (predictWebcam_frame _ _ _ _ _ _ _ Hstep)
      as (Hst & Hs' & Hr' & _).
    split; [| split; [| split]].
    + rewrite Hst. intros Hi. destruct (Hidle Hi) as [_ Hnone].
      rewrite Er in Hnone. discriminate Hnone.
    + rewrite Hs'. exact Hstart.
    + rewrite Hr'. exact Hrun.
    + exact (predictWebcam_quiet _ _ _ _ _ _ _ (Hrun _ Er) Hq Hstep).
  - assert (Hinv : toggles_unseen s)
      by (split; [| split; [| split]]; assumption).
    destruct (synthRef (Tracking.app s)) as [e |] eqn:He;
      [| injection Hstep as <-; exact Hinv].
    destruct (on_channel hand (wake fuel now random id) e) as [e' |] eqn:E;
      [| discriminate].
    injection Hstep as <-. split; [| split; [| split]].
    + exact Hidle.
    + exact Hstart.
    + exact Hrun.
    + exact (quiet_engine_call fuel random (ChannelTimerFires hand id now)
               _ e e' I Hq He E).
Qed.

(** X15.  The rotation toggles of the deck never reach the sound.  The
    frame loop re-schedules the callback that [startCamera] called, and that
    callback reads the toggles from the state it was created in; the deck
    with the toggles is shown only once the camera is started.  So in every
    state of the application the running frame loop sees both toggles off,
    every gesture sample is applied with the rotation filter inactive, and
    the rotation filters of both channels are low-passes whose cutoff is, or
    is on its way to, 22 kHz. *)
Theorem rotation_toggle_is_never_seen :
  forall s : Tracking.Tracker, app_reachable Math_atan2 s -> toggles_unseen s.
Proof.
  induction 1 as [| fuel random event s s' _ IH Hen Hstep].
  - exact initial_toggles_unseen.
  - exact (app_step_toggles_unseen fuel random event s s' IH Hen Hstep).
Qed.

(** ** Randomizing a hand *)

(** X16.  Randomizing a hand is a click on the drawn loop's button followed
    by the four drawn mapping choices, whenever the drawn loop is not the
    one that is active already (a click on the active loop's button would
    clear it, whereas the randomization keeps it). *)
Theorem randomize_is_select_then_map :
  forall (fuel : nat) (now : float) (random : Z -> float) (hand : Hand)
         (l : LoopDefinition) (x y z spread : EffectType) (a : App)
         (e : SynthEngine),
    synthRef a = Some e ->
    Handlers.same_loop (activeLoopId (handConfig hand a)) (loop_id l) = false ->
    Handlers.handleRandomize fuel now random hand l x y z spread a
    = option_map (chooseMappings now hand x y z spread)
        (Handlers.handleSelectLoop fuel now random hand (loop_id l) a).
Proof.
  intros fuel now random hand l x y z spread a e He Hsame.
  unfold Handlers.handleSelectLoop. rewrite He, Hsame.
  destruct (setLoop fuel now random (Some (loop_id l)) (Engine.channel hand e))
    as [c |] eqn:E.
  - exact (handleRandomize_eq _ _ _ _ _ _ _ _ _ _ _ _ He E).
  - unfold Handlers.handleRandomize. rewrite He, E. reflexivity.
Qed.

(** ** The frame loop *)

(** X17.  The object detector is consulted on every 30th frame only: on a
    frame whose count is not a multiple of 30 the result of [predictWebcam]
    does not depend on what the detector would report, so a dog that shows
    up is noticed with the next multiple of 30 at the earliest. *)
Theorem dog_is_looked_for_every_30th_frame :
  forall (appState : App) (t : float) (nowDetect nowCheck : Z)
         (frame : Tracking.VideoFrame) (seen : option (list Detection))
         (s : Tracking.Tracker),
    Z.rem (Tracking.frameCount s) 30 <> 0%Z ->
    Tracking.predictWebcam Math_atan2 appState t nowDetect nowCheck frame s
    = Tracking.predictWebcam Math_atan2 appState t nowDetect nowCheck
        (Tracking.mkVideoFrame seen (Tracking.hands frame)) s.
Proof.
  intros appState t nowDetect nowCheck frame seen s H.
  unfold Tracking.predictWebcam, Tracking.DOG_DETECTION_INTERVAL_FRAMES.
  apply Z.eqb_neq in H. rewrite H. reflexivity.
Qed.

Lemma override_frame appState t nowDetect nowCheck frame s until :
  (until <= Tracking.dogModeExpiry s)%Z ->
  before until (t, nowDetect, nowCheck, frame) ->
  exists s',
    Tracking.predictWebcam Math_atan2 appState t nowDetect nowCheck frame s
    = Some s'
    /\ Tracking.frameCount s' = (Tracking.frameCount s + 1)%Z
    /\ (until <= Tracking.dogModeExpiry s')%Z
    /\ Tracking.isDogModeShown s' = true
    /\ leftHand (Tracking.app s') = leftHand (Tracking.app s)
    /\ rightHand (Tracking.app s') = rightHand (Tracking.app s)
    /\ app_bpm (Tracking.app s') = app_bpm (Tracking.app s).
Proof.
  intros Hs [Hnow Hcool]. unfold Tracking.predictWebcam. cbv zeta.
  set (expiry := if (Z.rem _ _ =? 0)%Z then _ else _).
  assert (Hexp : (until <= expiry)%Z).
  { unfold expiry.
    destruct (Z.rem _ _ =? 0)%Z; [| exact Hs].
    destruct (Tracking.checkForDog _); [exact Hcool | exact Hs]. }
  assert (Hactive : (nowCheck <? expiry)%Z = true) by (apply Z.ltb_lt; lia).
  rewrite Hactive. eexists. split; [reflexivity |].
  cbn [Tracking.frameCount Tracking.dogModeExpiry Tracking.isDogModeShown
       Tracking.app set_synthRef leftHand rightHand app_bpm].
  repeat split. exact Hexp.
Qed.

(** X18.  The override lasts until it expires.  While the clock readings of
    the frames stay below a time that the expiry has reached, and that is
    within the cooldown of every later detection reading, every frame is an
    override frame: [predictWebcam] returns whatever the hand tracker would
    deliver, the hands are not read, so that the gesture values, the
    mappings and the tempo of the interface stay as they are, each frame is
    counted, and the override indicator is shown. *)
Theorem override_lasts_until_expiry :
  forall (appState : App)
         (frames : list (float * Z * Z * Tracking.VideoFrame))
         (s : Tracking.Tracker) (until : Z),
    (until <= Tracking.dogModeExpiry s)%Z ->
    Forall (before until) frames ->
    exists s',
      Tracking.run Math_atan2 appState frames s = Some s'
      /\ Tracking.frameCount s'
         = (Tracking.frameCount s + Z.of_nat (List.length frames))%Z
      /\ leftHand (Tracking.app s') = leftHand (Tracking.app s)
      /\ rightHand (Tracking.app s') = rightHand (Tracking.app s)
      /\ app_bpm (Tracking.app s') = app_bpm (Tracking.app s)
      /\ (frames <> [] -> Tracking.isDogModeShown s' = true).
Proof.
  intros appState frames. induction frames as [| [[[t nd] nc] frame] rest IH];
    intros s until Hs Hall.
  - exists s. cbn [Tracking.run List.length Z.of_nat].
    rewrite Z.add_0_r. repeat split. intros H. now contradiction H.
  - inversion Hall as [| f fs Hf Hrest]; subst.
    destruct (override_frame appState t nd nc frame s until Hs Hf)
      as (s1 & H1 & Hc1 & He1 & Hd1 & Hl1 & Hr1 & Hb1).
    destruct (IH s1 until He1 Hrest) as (s' & H' & Hc' & Hl' & Hr' & Hb' & Hd').
    exists s'. cbn [Tracking.run]. rewrite H1.
    split; [exact H' |]. split; [| split; [| split; [| split]]].
    + rewrite Hc', Hc1. cbn [List.length]. lia.
    + congruence.
    + congruence.
    + congruence.
    + intros _. destruct rest as [| f' rest'].
      * cbn [Tracking.run] in H'. injection H' as <-. exact Hd1.
      * apply Hd'. discriminate.
Qed.

(** X19.  Outside override mode every frame sets both gates by the hands it
    shows: after a frame that ends in normal mode, the last write to the
    presence gain of each channel, made at the frame's audio time with a
    time constant of 0.1 s, aims at 1 when a hand with the channel's label
    is in the frame and at 0 when none is.  A channel whose hand is absent
    is faded out, also in the first frame after an override. *)
Theorem presence_gate_follows_hands :
  forall (appState : App) (t : float) (nowDetect nowCheck : Z)
         (frame : Tracking.VideoFrame) (s s' : Tracking.Tracker),
    in_step s ->
    Tracking.predictWebcam Math_atan2 appState t nowDetect nowCheck frame s
    = Some s' ->
    Tracking.isDogModeShown s' = false ->
    exists e',
      synthRef (Tracking.app s') = Some e'
      /\ gate_follows t (existsb (Tracking.hasLabel Left) (Tracking.hands frame))
           (leftChannel e')
      /\ gate_follows t
           (existsb (Tracking.hasLabel Right) (Tracking.hands frame))
           (rightChannel e').
Proof.
  intros appState t nowDetect nowCheck frame s s' Hin H Hshown.
  destruct (in_step_elim s Hin) as [Hok _].
  destruct (app_ok_elim _ Hok) as (e & He & Hr & _).
  unfold Tracking.predictWebcam in H. cbv zeta in H.
  set (expiry := if (Z.rem _ _ =? 0)%Z then _ else _) in H.
  set (active := (nowCheck <? expiry)%Z) in H.
  rewrite He in H. cbn [option_map] in H.
  assert (Hok1 : app_ok (set_synthRef (Some (Engine.setDogMode t active e))
                           (Tracking.app s))).
  { apply (app_ok_engine_call 0 (fun _ => 0) (EngineSetDogMode t active)
             (Tracking.app s) e); [exact I | exact Hok | exact He | reflexivity]. }
  destruct active eqn:Eactive.
  - injection H as <-. discriminate Hshown.
  - destruct (Tracking.trackHands Math_atan2 appState t (Tracking.hands frame) _)
      as [a2 |] eqn:E; [| discriminate].
    injection H as <-.
    destruct (trackHands_ok _ _ _ _ _ Hok1 E) as [Hok2 Hf2].
    destruct (app_ok_elim a2 Hok2) as (e2 & He2 & Hr2 & _).
    rewrite He2 in Hf2. cbn [option_map set_synthRef synthRef] in Hf2.
    injection Hf2 as Hf2. rewrite setDogMode_flag in Hf2.
    destruct (reachable_consistent e2 Hr2) as (Hcl & Hcr & _).
    rewrite Hf2 in Hcl, Hcr.
    cbn [Tracking.app set_synthRef synthRef]. rewrite He2. cbn [option_map].
    eexists. split; [reflexivity |].
    unfold gate_follows, setPresence. cbn [leftChannel rightChannel].
    rewrite Hcl, Hcr. split; reflexivity.
Qed.

End AppInvariants.


(** ** The gates in override mode *)

Section OverrideGates.

Context {impl : Implementation}.

Local Open Scope float_scope.

Lemma rearmed_gate c : presenceGain (rearmed c) = presenceGain c.
Proof. unfold rearmed. destruct (isPlaying c); reflexivity. Qed.

Lemma perform_keeps_gate fuel random call c c' :
  match call with CallSetPresence _ _ => False | _ => True end ->
  perform fuel random call c = Some c' ->
  presenceGain c' = presenceGain c.
Proof.
  destruct call as [now | | id now | loopId now | t x y sp zv rot act
                    | t axis effect | t isPresent | b | active];
    try contradiction; intros _; cbn [perform]; intros Hstep.
  - apply start_cases in Hstep as [-> | [_ ->]]; [reflexivity |].
    now rewrite rearmed_gate.
  - injection Hstep as <-. unfold stop. cbn [timerID set_isPlaying].
    destruct (timerID c) as [[| n] |]; reflexivity.
  - apply wake_cases in Hstep as [-> | (_ & k & ->)]; [reflexivity |].
    rewrite rearmed_gate, dispatch_eq. reflexivity.
  - apply setLoop_cases in Hstep as (l & _ & [-> | [_ ->]]); [reflexivity |].
    now rewrite rearmed_gate.
  - injection Hstep as <-. rewrite update_state. reflexivity.
  - injection Hstep as <-.
    destruct (setMapping_eq t axis effect c) as (bv & bf & br & bd & bl & ->).
    destruct bv, bf, br, bd, bl, axis; reflexivity.
  - now injection Hstep as <-.
  - now injection Hstep as <-.
Qed.

Lemma gate_open_same c c' :
  presenceGain c' = presenceGain c -> gate_open c -> gate_open c'.
Proof. unfold gate_open. now intros ->. Qed.

Lemma setPresence_in_override t isPresent c :
  isDogMode c = true -> gate_open (setPresence t isPresent c).
Proof. intros H. exists t. unfold setPresence. now rewrite H. Qed.

Lemma set_channel_gates fuel random call hand c e :
  match call with CallSetPresence _ _ => False | _ => True end ->
  gates_held e ->
  perform fuel random call (Engine.channel hand e) = Some c ->
  gates_held (Engine.set_channel hand c e).
Proof.
  intros Hcall Hg Hstep Hflag.
  pose proof (perform_keeps_gate fuel random call _ _ Hcall Hstep) as Hp.
  assert (Hf : _isDogMode e = true) by (destruct hand; exact Hflag).
  destruct (Hg Hf) as [Hl Hr].
  destruct hand; split; cbn [Engine.set_channel leftChannel rightChannel];
    try assumption.
  - exact (gate_open_same _ _ Hp Hl).
  - exact (gate_open_same _ _ Hp Hr).
Qed.

Lemma engine_step_gates fuel random call e e' :
  engine_consistent e -> gates_held e ->
  engine_perform fuel random call e = Some e' -> gates_held e'.
Proof.
  intros Hc Hg.
  destruct call as [now | | b | t hand x y sp zv rot act | t hand axis effect
                    | t active | hand loopId now | t hand axis effect
                    | t hand isPresent | hand id now];
    cbn [engine_perform]; intros Hstep.
  - unfold Engine.start in Hstep.
    destruct (start fuel now random (leftChannel e)) as [l |] eqn:El;
      [| discriminate].
    destruct (start fuel now random (rightChannel e)) as [r |] eqn:Er;
      [| discriminate].
    injection Hstep as <-. intros Hflag. destruct (Hg Hflag) as [Hl Hr].
    split; cbn [leftChannel rightChannel].
    + apply (gate_open_same (leftChannel e)); [| exact Hl].
      exact (perform_keeps_gate fuel random (CallStart now) _ _ I El).
    + apply (gate_open_same (rightChannel e)); [| exact Hr].
      exact (perform_keeps_gate fuel random (CallStart now) _ _ I Er).
  - injection Hstep as <-. intros Hflag. destruct (Hg Hflag) as [Hl Hr].
    split; cbn [Engine.stop leftChannel rightChannel].
    + apply (gate_open_same (leftChannel e)); [| exact Hl].
      exact (perform_keeps_gate 0 random CallStop _ _ I eq_refl).
    + apply (gate_open_same (rightChannel e)); [| exact Hr].
      exact (perform_keeps_gate 0 random CallStop _ _ I eq_refl).
  - injection Hstep as <-. exact Hg.
  - injection Hstep as <-. rewrite updateHand_state.
    exact (set_channel_gates 0 random (CallUpdate t x y sp zv rot act) hand _ e
             I Hg eq_refl).
  - injection Hstep as <-.
    exact (set_channel_gates 0 random (CallSetMapping t axis effect) hand _ e
             I Hg eq_refl).
  - injection Hstep as <-. unfold Engine.setDogMode.
    destruct (Bool.eqb (_isDogMode e) active); [exact Hg |].
    destruct active; [| discriminate].
    intros _. split; cbn [leftChannel rightChannel];
      now apply setPresence_in_override.
  - apply on_channel_cases in Hstep as (c & Hstep & ->).
    exact (set_channel_gates fuel random (CallSetLoop loopId now) hand _ e
             I Hg Hstep).
  - apply on_channel_cases in Hstep as (c & Hstep & ->).
    exact (set_channel_gates fuel random (CallSetMapping t axis effect) hand _ e
             I Hg Hstep).
  - apply on_channel_cases in Hstep as (c & Hstep & ->).
    injection Hstep as <-. intros Hflag.
    assert (Hf : _isDogMode e = true) by (destruct hand; exact Hflag).
    destruct (Hg Hf) as [Hl Hr]. destruct Hc as (Hcl & Hcr & _).
    rewrite Hf in Hcl, Hcr.
    destruct hand; split; cbn [Engine.set_channel Engine.channel leftChannel
                               rightChannel];
      try assumption; now apply setPresence_in_override.
  - apply on_channel_cases in Hstep as (c & Hstep & ->).
    exact (set_channel_gates fuel random (TimerFires id now) hand _ e
             I Hg Hstep).
Qed.

(** X20.  In override mode both gates are open.  In every state of the engine
    that its calls reach, while the override flag is set the last write to
    the presence gain of either channel aims at 1: the switch opens the
    gates, [setPresence] cannot close them while the flag is set, and no
    other call writes to them.  The override voice is heard whether or not
    a hand is in the picture. *)
Theorem override_keeps_gates_open :
  forall e : SynthEngine,
    engine_reachable e -> _isDogMode e = true ->
    gate_open (leftChannel e) /\ gate_open (rightChannel e).
Proof.
  intros e Hr.
  assert (H : engine_consistent e /\ gates_held e).
  { induction Hr as [| fuel random call e e' _ [IHc IHg] Hstep].
    - split; [repeat split; reflexivity | discriminate].
    - split.
      + exact (engine_step_consistent fuel random call e e' IHc Hstep).
      + exact (engine_step_gates fuel random call e e' IHc IHg Hstep). }
  exact (proj2 H).
Qed.

Lemma reachable_gates e : engine_reachable e -> gates_held e.
Proof.
  induction 1 as [| fuel random call e e' Hr IH Hstep]; [discriminate |].
  exact (engine_step_gates fuel random call e e' (reachable_consistent e Hr)
           IH Hstep).
Qed.

(** X21.  A dog on a detection frame takes over at once.  When the frame
    count is a multiple of 30, the detector reports a dog with a score above
    0.4, and the frame is decided within the cooldown of the detection,
    [predictWebcam] returns without reading the hands, the override expires
    3000 ms after the detection reading, the indicator is shown, the flag is
    set on the engine and on both channels, and both gates are open: from
    the next wake on the sequencer plays the override pattern, audibly,
    whether or not a hand is in the picture. *)
Theorem dog_takes_over_at_once :
  forall (Math_atan2 : float -> float -> float) (appState : App) (t : float)
         (nowDetect nowCheck : Z) (frame : Tracking.VideoFrame)
         (s : Tracking.Tracker),
    in_step s ->
    Z.rem (Tracking.frameCount s) 30 = 0%Z ->
    Tracking.checkForDog (Tracking.detections frame) = true ->
    (nowCheck < nowDetect + 3000)%Z ->
    exists s' e',
      Tracking.predictWebcam Math_atan2 appState t nowDetect nowCheck frame s
      = Some s'
      /\ Tracking.dogModeExpiry s' = (nowDetect + 3000)%Z
      /\ Tracking.isDogModeShown s' = true
      /\ synthRef (Tracking.app s') = Some e'
      /\ _isDogMode e' = true
      /\ isDogMode (leftChannel e') = true
      /\ isDogMode (rightChannel e') = true
      /\ gate_open (leftChannel e') /\ gate_open (rightChannel e').
Proof.
  intros Math_atan2 appState t nowDetect nowCheck frame s Hin Hrem Hdog Hnow.
  destruct (in_step_elim s Hin) as [Hok _].
  destruct (app_ok_elim _ Hok) as (e & He & Hr & _).
  assert (Hr' : engine_reachable (Engine.setDogMode t true e))
    by exact (engine_reachable_step 0 (fun _ => 0) (EngineSetDogMode t true)
                e _ Hr eq_refl).
  pose proof (setDogMode_flag t true e) as Hflag.
  destruct (reachable_consistent _ Hr') as (Hcl & Hcr & _).
  destruct (reachable_gates _ Hr' Hflag) as [Hgl Hgr].
  unfold Tracking.predictWebcam, Tracking.DOG_DETECTION_INTERVAL_FRAMES,
    Tracking.DOG_MODE_COOLDOWN_MS.
  cbv zeta. apply Z.eqb_eq in Hrem. apply Z.ltb_lt in Hnow.
  rewrite Hrem, Hdog, Hnow, He. cbn [option_map].
  eexists. exists (Engine.setDogMode t true e).
  split; [reflexivity |].
  cbn [Tracking.dogModeExpiry Tracking.isDogModeShown Tracking.app
       set_synthRef synthRef].
  rewrite Hcl, Hcr. repeat split; assumption.
Qed.

End OverrideGates.

(** ** Instances *)

(** C1 as stated fails at NaN, which reaches [applyEffect] as the spread of
    a frame whose landmarks all coincide: the clamped value is NaN, outside
    [[0,1]], and the call for FLANGER throws without a target being set. *)
Lemma nan_is_not_clamped :
  between 0 1 (clamp 0 1 nan) = false
  /\ applyEffect (impl := correctly_rounded) 0 FLANGER nan false
       newLoopChannel
     = Throw newLoopChannel
  /\ automation (flangerWet newLoopChannel) = None.
Proof. repeat split; vm_compute; reflexivity. Qed.

(** C2 as stated fails when an axis application throws: with the rotation
    filter inactive and a NaN spread on a channel whose spread axis drives
    the high-pass, [update] throws before it reaches the rotation filter,
    which keeps its cutoff without a target of 22000 Hz. *)
Lemma nan_spread_skips_rotation_filter :
  let result :=
    update (impl := correctly_rounded) 0 0.5 0.5 nan 0.5 0 false
      spread_on_highpass in
  returns result = false
  /\ rotationFilterNode (state result) = rotationFilterNode spread_on_highpass
  /\ automation (frequency (rotationFilterNode (state result))) = None.
Proof. repeat split; vm_compute; reflexivity. Qed.


(** Nor does the scheduler return, at 128 beats per minute, when the next
    note time is so late or so far below zero that a sixteenth note is lost
    in its rounding. *)
Example no_wake_ends_at_extreme_times :
  (forall fuel,
      scheduler fuel 0x1p+54 (fun _ => 0%float)
        (set_nextNoteTime 0x1p+53 started_house) = None)
  /\ (forall fuel,
        scheduler fuel 0 (fun _ => 0%float)
          (set_nextNoteTime (-0x1p+53) started_house) = None).
Proof.
  split; intros fuel; unfold scheduler;
    rewrite scheduler_loop_stuck by reflexivity; reflexivity.
Qed.

Lemma applyEffect_targets_witness :
  between 0 1 (clamp 0 1 0.5) = true
  /\ applyEffect (impl := correctly_rounded) 0 LPF 0.5 false newLoopChannel
     = Normal
         (set_filterNode
            (mkBiquad lowpass
               (approach (frequency (filterNode newLoopChannel)) 5075 0 0.1)
               1) newLoopChannel)
  /\ applyEffect (impl := correctly_rounded) 0 HPF 0.5 false newLoopChannel
     = Normal
         (set_filterNode
            (mkBiquad highpass
               (approach (frequency (filterNode newLoopChannel)) 5000 0 0.1)
               1) newLoopChannel).
Proof.
  destruct (applyEffect_targets (impl := correctly_rounded) 0 0.5 false
              newLoopChannel) as [H _].
  destruct (H eq_refl) as (Hv & _ & Hlpf & Hhpf & _).
  split; [exact Hv |]. split; [exact (Hlpf eq_refl) | exact Hhpf].
Defined.

Lemma update_rotation_filter_witness :
  let result :=
    update (impl := correctly_rounded) 0 0.5 0.5 0.5 0.5 0.5 true
      spread_on_highpass in
  returns result = accepts (10 + (0.5 - 0.1) / 0.9 * 3990)
  /\ rotationFilterNode (state result) =
       mkBiquad highpass
         (approach (frequency (rotationFilterNode spread_on_highpass))
            (10 + (0.5 - 0.1) / 0.9 * 3990) 0 0.1) 1.
Proof.
  destruct (update_rotation_filter (impl := correctly_rounded) 0 0.5 0.5 0.5
              0.5 0.5 true spread_on_highpass) as [H _].
  destruct (H eq_refl) as [_ H'].
  exact (proj1 (proj2 (H' eq_refl eq_refl)) eq_refl).
Defined.

Lemma gesture_mapping_witness :
  AppLogic.calculateHandMetrics atan2_on_axes leftward_frame true =
    Some (mkHandMetrics (gesture_spread leftward_frame)
            (gesture_z leftward_frame) (-1)%float)
  /\ AppLogic.calculateHandMetrics atan2_on_axes leftward_frame false =
       Some (mkHandMetrics (gesture_spread leftward_frame)
               (gesture_z leftward_frame) 1%float).
Proof.
  destruct (gesture_mapping (impl := correctly_rounded) atan2_on_axes
              initial_app 0 Right leftward_frame initial_app eq_refl)
    as (_ & _ & _ & _ & _ & _ & H).
  exact (H eq_refl).
Defined.

Lemma every_frame_is_tracked_witness :
  AppLogic.calculateHandMetrics atan2_on_axes degenerate_frame true =
    Some (mkHandMetrics 1 0
            (gesture_rotation atan2_on_axes Right degenerate_frame))
  /\ exists a',
       AppLogic.trackHand (impl := correctly_rounded) atan2_on_axes
         initial_app 0 Right degenerate_frame initial_app = Some a'
       /\ option_map
            (fun e => automation (frequency (filterNode (rightChannel e))))
            (synthRef a')
          = Some (Some (mkSetTarget 10000 0 0.1)).
Proof.
  destruct (every_frame_is_tracked (impl := correctly_rounded) atan2_on_axes
              initial_app 0 Right degenerate_frame initial_app initial_engine
              eq_refl eq_refl) as [Hm Ht].
  split; [exact Hm |].
  destruct (Engine.updateHand 0 Right (gesture_x degenerate_frame)
              (gesture_y degenerate_frame)
              (clamp 0 1
                 ((meanTipDistance degenerate_frame
                   / handScale degenerate_frame - 0.8) / (1.7 - 0.8)))
              (clamp 0 1 ((handScale degenerate_frame - 0.05) / (0.3 - 0.05)))
              (gesture_rotation atan2_on_axes Right degenerate_frame)
              (rotationActive Right initial_app) initial_engine)
    as [e' | e'] eqn:E; [| vm_compute in E; discriminate E].
  destruct Ht as (a' & Ha & He). exists a'. split; [exact Ha |].
  rewrite He. vm_compute in E. injection E as <-. reflexivity.
Defined.

(** On the frame whose landmarks all coincide the spread is NaN and the
    handler of the frame throws. *)
Example coincident_frame_throws :
  AppLogic.trackHand (impl := correctly_rounded) atan2_on_axes initial_app 0
    Right coincident_frame initial_app = None.
Proof. vm_compute. reflexivity. Qed.

Lemma started_house_reachable :
  reachable (impl := correctly_rounded) started_house.
Proof.
  apply (reachable_step 0 (fun _ => 0%float)
           (CallSetLoop (Some "drum_house"%string) 0) newLoopChannel).
  - exact reachable_new.
  - vm_compute. reflexivity.
Qed.

Lemma house_after_wake_reachable :
  reachable (impl := correctly_rounded) house_after_wake.
Proof.
  apply (reachable_step 2 (fun _ => 0%float) (TimerFires 1 0.2)
           started_house).
  - exact started_house_reachable.
  - vm_compute. reflexivity.
Qed.

Lemma override_after_wake_reachable :
  reachable (impl := correctly_rounded) override_after_wake.
Proof.
  apply (reachable_step 2 (fun _ => 0%float) (TimerFires 1 0.05)
           (rearmed
              (set_currentStep 0%Z
                 (set_nextNoteTime (0 + 0.1)%float
                    (set_isPlaying true
                       (set_isDogMode true newLoopChannel)))))).
  - apply (reachable_step 1 (fun _ => 0%float) (CallStart 0)
             (set_isDogMode true newLoopChannel)).
    + apply (reachable_step 0 (fun _ => 0%float) (AssignDogMode true)
               newLoopChannel); [exact reachable_new | reflexivity].
    + vm_compute. reflexivity.
  - vm_compute. reflexivity.
Qed.

Lemma reachable_armed_witness : armed house_after_wake.
Proof.
  apply (reachable_armed (impl := correctly_rounded)).
  exact house_after_wake_reachable.
Defined.

Lemma reachable_voices_routed_witness :
  voices house_after_wake
  = [mkVoice Kick 0.1 InputGain; mkVoice HiHat 0.2171875 InputGain]
  /\ voices override_after_wake = [mkVoice (Distorted808 45) 0.1 MasterOutput]
  /\ Forall voice_routed (voices house_after_wake)
  /\ Forall voice_routed (voices override_after_wake).
Proof.
  split; [reflexivity |]. split; [reflexivity |]. split.
  - apply (reachable_voices_routed (impl := correctly_rounded)).
    exact house_after_wake_reachable.
  - apply (reachable_voices_routed (impl := correctly_rounded)).
    exact override_after_wake_reachable.
Defined.

Lemma reachable_loop_from_catalog_witness : loop_from_catalog house_after_wake.
Proof.
  apply (reachable_loop_from_catalog (impl := correctly_rounded)).
  exact house_after_wake_reachable.
Defined.

Lemma engine_stays_consistent_witness :
  engine_consistent (Engine.setDogMode 0 true (Engine.setBpm 140 Engine.new)).
Proof.
  apply (engine_stays_consistent (impl := correctly_rounded)).
  apply (engine_reachable_step 0 (fun _ => 0%float) (EngineSetDogMode 0 true)
           (Engine.setBpm 140 Engine.new)); [| reflexivity].
  apply (engine_reachable_step 0 (fun _ => 0%float) (EngineSetBpm 140)
           Engine.new);
    [exact engine_reachable_new | reflexivity].
Defined.

Lemma engine_channels_reachable_witness :
  reachable (impl := correctly_rounded)
    (leftChannel (Engine.setBpm 140 Engine.new))
  /\ reachable (impl := correctly_rounded)
       (rightChannel (Engine.setBpm 140 Engine.new)).
Proof.
  apply engine_channels_reachable.
  apply (engine_reachable_step 0 (fun _ => 0%float) (EngineSetBpm 140)
           Engine.new);
    [exact engine_reachable_new | reflexivity].
Defined.


Lemma live_reachable :
  app_reachable (impl := correctly_rounded) atan2_on_axes live_tracker.
Proof.
  apply (app_reachable_step _ 1 (fun _ => 0%float) (CameraStarts 0)
           connecting_tracker); [| reflexivity | vm_compute; reflexivity].
  apply (app_reachable_step _ 0 (fun _ => 0%float) StartClicked
           initial_tracker);
    [exact (app_reachable_mounted _) | reflexivity | reflexivity].
Qed.

Lemma toggled_reachable :
  app_reachable (impl := correctly_rounded) atan2_on_axes toggled_tracker.
Proof.
  apply (app_reachable_step _ 0 (fun _ => 0%float) (RotationToggled Left)
           live_tracker);
    [exact live_reachable | reflexivity | vm_compute; reflexivity].
Qed.

Lemma live_in_step : in_step (impl := correctly_rounded) live_tracker.
Proof.
  apply (app_step_in_step atan2_on_axes 1 (fun _ => 0%float)
           (CameraStarts 0) connecting_tracker);
    [| reflexivity | vm_compute; reflexivity].
  apply (app_step_in_step atan2_on_axes 0 (fun _ => 0%float)
           StartClicked initial_tracker);
    [exact initial_in_step | reflexivity | reflexivity].
Qed.

Lemma app_stays_in_step_witness :
  in_step (impl := correctly_rounded) toggled_tracker.
Proof.
  apply (app_stays_in_step atan2_on_axes). exact toggled_reachable.
Defined.

Lemma rotation_toggle_is_never_seen_witness :
  isRotationActive (leftHand (Tracking.app toggled_tracker)) = true
  /\ toggles_unseen toggled_tracker.
Proof.
  split; [reflexivity |].
  apply (rotation_toggle_is_never_seen (impl := correctly_rounded)
           atan2_on_axes).
  exact toggled_reachable.
Defined.

Lemma randomize_is_select_then_map_witness :
  Handlers.handleRandomize 1 0 (fun _ => 0%float) Left
    (mkLoop "synth_bass" "Wobble Bass" SYNTH 128) NONE VOLUME LPF HPF
    initial_app
  = option_map (chooseMappings 0 Left NONE VOLUME LPF HPF)
      (Handlers.handleSelectLoop 1 0 (fun _ => 0%float) Left "synth_bass"
         initial_app).
Proof.
  refine (randomize_is_select_then_map 1 0 (fun _ => 0%float) Left
            (mkLoop "synth_bass" "Wobble Bass" SYNTH 128) NONE VOLUME LPF HPF
            initial_app _ eq_refl eq_refl).
Defined.

Lemma dog_is_looked_for_every_30th_frame_witness :
  Tracking.predictWebcam (impl := correctly_rounded) atan2_on_axes
    initial_app 0 1000 1001 dog_frame eighth_frame
  = Tracking.predictWebcam (impl := correctly_rounded) atan2_on_axes
      initial_app 0 1000 1001 (Tracking.mkVideoFrame None []) eighth_frame.
Proof.
  apply (dog_is_looked_for_every_30th_frame (impl := correctly_rounded)
           atan2_on_axes initial_app
           0 1000 1001 dog_frame None eighth_frame).
  vm_compute. discriminate.
Defined.

Lemma override_lasts_until_expiry_witness :
  exists s',
    Tracking.run (impl := correctly_rounded) atan2_on_axes initial_app
      [(0%float, 3990%Z, 4000%Z, broken_frame);
       (0.1%float, 4010%Z, 4020%Z, broken_frame)] overridden = Some s'
    /\ Tracking.frameCount s' = 3%Z
    /\ leftHand (Tracking.app s') = leftHand initial_app
    /\ rightHand (Tracking.app s') = rightHand initial_app
    /\ app_bpm (Tracking.app s') = app_bpm initial_app
    /\ ([(0%float, 3990%Z, 4000%Z, broken_frame);
         (0.1%float, 4010%Z, 4020%Z, broken_frame)] <> [] ->
        Tracking.isDogModeShown s' = true).
Proof.
  apply (override_lasts_until_expiry (impl := correctly_rounded)
           atan2_on_axes initial_app
           [(0%float, 3990%Z, 4000%Z, broken_frame);
            (0.1%float, 4010%Z, 4020%Z, broken_frame)] overridden 5000%Z).
  - vm_compute. discriminate.
  - repeat constructor; vm_compute; discriminate.
Defined.

Lemma presence_gate_follows_hands_witness :
  exists e',
    synthRef (Tracking.app after_right_hand) = Some e'
    /\ gate_follows 0.5 false (leftChannel e')
    /\ gate_follows 0.5 true (rightChannel e').
Proof.
  apply (presence_gate_follows_hands (impl := correctly_rounded)
           atan2_on_axes initial_app 0.5
           1000 1000 right_hand_frame live_tracker after_right_hand).
  - exact live_in_step.
  - vm_compute. reflexivity.
  - reflexivity.
Defined.

Lemma override_keeps_gates_open_witness :
  gate_open (leftChannel (Engine.setDogMode 0 true Engine.new))
  /\ gate_open (rightChannel (Engine.setDogMode 0 true Engine.new)).
Proof.
  apply (override_keeps_gates_open (impl := correctly_rounded));
    [| reflexivity].
  apply (engine_reachable_step 0 (fun _ => 0%float) (EngineSetDogMode 0 true)
           Engine.new); [exact engine_reachable_new | reflexivity].
Defined.

Lemma unmapped_axis_is_ignored_witness :
  update (impl := correctly_rounded) 0 0.2 0.5 0.5 0.1 0 false
    (rightChannel initial_engine)
  = update (impl := correctly_rounded) 0 0.2 0.5 0.5 0.9 0 false
      (rightChannel initial_engine).
Proof.
  exact (proj2 (proj2 (unmapped_axis_is_ignored (impl := correctly_rounded)
                         0 0.2 0.5 0.5 0.1 0 0.2 0.5 0.9 false
                         (rightChannel initial_engine))) eq_refl).
Defined.

Lemma setDogMode_idempotent_witness :
  Engine.setDogMode 1 false (Engine.setDogMode 0 true Engine.new)
  = mkSynthEngine
      (set_isDogMode false (leftChannel (Engine.setDogMode 0 true Engine.new)))
      (set_isDogMode false (rightChannel (Engine.setDogMode 0 true Engine.new)))
      false.
Proof.
  exact (proj2 (setDogMode_idempotent 1 1 false
                  (Engine.setDogMode 0 true Engine.new)) eq_refl).
Defined.

Lemma dog_takes_over_at_once_witness :
  exists s' e',
    Tracking.predictWebcam (impl := correctly_rounded) atan2_on_axes
      initial_app 0.5 1000 1016
      (Tracking.mkVideoFrame
         (Some [mkDetection [mkCategory "dog" 0.9]])
         (Tracking.hands broken_frame)) live_tracker
    = Some s'
    /\ Tracking.dogModeExpiry s' = 4000%Z
    /\ Tracking.isDogModeShown s' = true
    /\ synthRef (Tracking.app s') = Some e'
    /\ _isDogMode e' = true
    /\ isDogMode (leftChannel e') = true
    /\ isDogMode (rightChannel e') = true
    /\ gate_open (leftChannel e') /\ gate_open (rightChannel e').
Proof.
  apply (dog_takes_over_at_once (impl := correctly_rounded) atan2_on_axes
           initial_app 0.5 1000 1016
           (Tracking.mkVideoFrame
              (Some [mkDetection [mkCategory "dog" 0.9]])
              (Tracking.hands broken_frame)) live_tracker).
  - exact live_in_step.
  - reflexivity.
  - vm_compute. reflexivity.
  - reflexivity.
Defined.

